(** * ai-author: the multi-agent book generator, embedded in Rocq

    A shallow embedding of the parts of [multi-agent-book-generator] that
    its specification makes testable promises about:

    - [utils/text_processing.py]: [chunk_text],
      [calculate_reading_statistics], [find_repeated_phrases],
      [extract_dialogue], [identify_scene_breaks];
    - [utils/parsing.py]: [parse_outline], [_lenient_parse_outline],
      [extract_character_profiles], [parse_feedback];
    - [core/llm_provider.py]: [LLMProvider.generate_text];
    - [core/agent.py]: [Agent.generate], [Agent.store_memory],
      [Agent.retrieve_memory], [Agent.parse_json_response];
    - [agents/writer.py]: [WriterAgent.write_chapter],
      [WriterAgent._write_long_chapter],
      [WriterAgent.generate_chapter_title];
    - [core/orchestrator.py]:
      [BookGenerationOrchestrator._sanitize_filename].

    Python [str] values are modelled as lists of characters whose code
    point is below 256 (the Latin-1 range), Python [int] as [Z], Python
    [float] as the rational number it stands for, and exceptions as
    explicit error results. *)

From Stdlib Require Import Ascii String DecimalString.
From Stdlib Require Import List ZArith QArith Qround Qpower Lia Lqa Bool Arith
  Sorted Permutation.
Import ListNotations.
Open Scope Z_scope.

(** ** Python strings *)

Module PyStr.

Definition str := list ascii.

Definition lit (s : string) : str := list_ascii_of_string s.

Definition len {A} (s : list A) : Z := Z.of_nat (List.length s).

(** Index normalisation of a slice bound, as done by [PySlice_AdjustIndices]
    for step 1: a negative bound counts from the end, and the result is
    clamped to [0 .. len]. *)
Definition adjust (n i : Z) : Z :=
  if i <? 0 then Z.max 0 (i + n) else Z.min i n.

(** [s[a:b]]; [None] stands for an omitted bound. *)
Definition slice {A} (s : list A) (a b : option Z) : list A :=
  let n := len s in
  let a' := match a with Some a => adjust n a | None => 0 end in
  let b' := match b with Some b => adjust n b | None => n end in
  firstn (Z.to_nat (b' - a')) (skipn (Z.to_nat a') s).

(** [text.rfind(c, a, b)] for a one-character needle: the highest index
    [i] with [a' <= i < b'] and [text[i] == c], or [-1]. *)
Fixpoint rfind_scan (c : ascii) (s : str) (i a b acc : Z) : Z :=
  match s with
  | [] => acc
  | x :: t =>
      rfind_scan c t (i + 1) a b
        (if (a <=? i) && (i <? b) && Ascii.eqb x c then i else acc)
  end.

Definition rfind (c : ascii) (s : str) (a b : Z) : Z :=
  let n := len s in
  rfind_scan c s 0 (adjust n a) (adjust n b) (-1).

Fixpoint str_eqb (s t : str) : bool :=
  match s, t with
  | [], [] => true
  | c :: s', d :: t' => Ascii.eqb c d && str_eqb s' t'
  | _, _ => false
  end.

Definition str_eq_dec : forall s t : str, {s = t} + {s <> t} :=
  list_eq_dec ascii_dec.

Definition code (c : ascii) : Z := Z.of_N (N_of_ascii c).

Definition between (lo hi : Z) (c : ascii) : bool :=
  (lo <=? code c) && (code c <=? hi).

(** [c.isspace()] on code points below 256: tab to carriage return, the
    four separators 28 to 31, space, NEL (133) and the no-break space (160). *)
Definition isspace (c : ascii) : bool :=
  between 9 13 c || between 28 32 c || (code c =? 133) || (code c =? 160).

(** What [\w] matches in a [str] pattern, on code points below 256:
    ASCII letters, digits and the underscore, and the Latin-1 letters and
    numeric characters. *)
Definition is_word (c : ascii) : bool :=
  between 48 57 c || between 65 90 c || (code c =? 95) || between 97 122 c
  || (code c =? 170) || between 178 179 c || (code c =? 181)
  || between 185 186 c || between 188 190 c
  || between 192 214 c || between 216 246 c || between 248 255 c.

(** [\d] on code points below 256. *)
Definition is_digit (c : ascii) : bool := between 48 57 c.

(** [c.lower()]: [A-Z] and the upper-case Latin-1 letters move up by 32. *)
Definition lower_char (c : ascii) : ascii :=
  if between 65 90 c || (between 192 222 c && negb (code c =? 215))
  then ascii_of_N (Z.to_N (code c + 32))
  else c.

Definition lower (s : str) : str := map lower_char s.

(** The maximal runs of characters satisfying [p], left to right.  [cur]
    holds the run being read, most recent character first. *)
Fixpoint runs_from (p : ascii -> bool) (s : str) (cur : str) : list str :=
  match s with
  | [] => match cur with [] => [] | _ => [rev cur] end
  | c :: t =>
      if p c then runs_from p t (c :: cur)
      else match cur with
           | [] => runs_from p t []
           | _ => rev cur :: runs_from p t []
           end
  end.

Definition runs (p : ascii -> bool) (s : str) : list str := runs_from p s [].

(** [s.split()]: the maximal runs of non-whitespace characters. *)
Definition split (s : str) : list str := runs (fun c => negb (isspace c)) s.

(** [sep.join(parts)] *)
Fixpoint join (sep : str) (parts : list str) : str :=
  match parts with
  | [] => []
  | [w] => w
  | w :: rest => w ++ sep ++ join sep rest
  end.

Fixpoint lstrip (s : str) : str :=
  match s with
  | c :: t => if isspace c then lstrip t else s
  | [] => []
  end.

(** [s.strip()] *)
Definition strip (s : str) : str := rev (lstrip (rev (lstrip s))).

(** [s.endswith(suffix)] *)
Definition endswith (s suffix : str) : bool :=
  (length suffix <=? length s)%nat
  && str_eqb (skipn (length s - length suffix) s) suffix.

(** [range(n)] *)
Definition range (n : Z) : list Z := map Z.of_nat (seq 0 (Z.to_nat n)).

(** [str(n)] on an integer *)
Definition str_of_Z (n : Z) : str := lit (NilZero.string_of_int (Z.to_int n)).

(** The line feed and the double quote. *)
Definition nl : str := ["010"%char].
Definition dquote : str := ["034"%char].

(** [range(a, b)] *)
Definition range_from (a b : Z) : list Z := map (Z.add a) (range (b - a)).

(** [s.startswith(l)], and [l in s]. *)
Fixpoint prefixb (l s : str) : bool :=
  match l, s with
  | [], _ => true
  | c :: l', d :: s' => Ascii.eqb c d && prefixb l' s'
  | _ :: _, [] => false
  end.

Fixpoint occursb (l s : str) : bool :=
  prefixb l s ||
  match s with
  | [] => false
  | _ :: s' => occursb l s'
  end.

(** Results of code that can raise. *)
Inductive result (E A : Type) : Type :=
| Ok (a : A)
| Raise (e : E).
Arguments Ok {E A} a.
Arguments Raise {E A} e.

Definition bind {E A B} (r : result E A) (k : A -> result E B) : result E B :=
  match r with
  | Ok a => k a
  | Raise e => Raise e
  end.

(** A [dict] with [str] keys, in insertion order. *)
Section Dict.
Context {V : Type}.

Fixpoint dict_lookup (d : list (str * V)) (k : str) : option V :=
  match d with
  | [] => None
  | (k', v) :: d' => if str_eqb k' k then Some v else dict_lookup d' k
  end.

(** [d.get(k, default)] *)
Definition dict_get (d : list (str * V)) (k : str) (default : V) : V :=
  match dict_lookup d k with Some v => v | None => default end.

(** [d[k] = v]: an existing key keeps its place, a new one goes last. *)
Fixpoint dict_set (d : list (str * V)) (k : str) (v : V) : list (str * V) :=
  match d with
  | [] => [(k, v)]
  | (k', v') :: d' =>
      if str_eqb k' k then (k', v) :: d' else (k', v') :: dict_set d' k v
  end.
End Dict.

(** [s.lstrip(chars)] and [s.strip(chars)] *)
Fixpoint lstrip_chars (chars : str) (s : str) : str :=
  match s with
  | c :: t => if existsb (Ascii.eqb c) chars then lstrip_chars chars t else s
  | [] => []
  end.

Definition strip_chars (chars : str) (s : str) : str :=
  rev (lstrip_chars chars (rev (lstrip_chars chars s))).

(** [s.split(sep, 1)] for a one-character separator: [s] alone when
    [sep] does not occur in it, else what stands before its first
    occurrence and what follows. *)
Fixpoint split_once (sep : ascii) (s : str) : list str :=
  match s with
  | [] => [[]]
  | c :: t =>
      if Ascii.eqb c sep then [[]; t]
      else match split_once sep t with
           | before :: rest => (c :: before) :: rest
           | [] => [[c]]
           end
  end.

End PyStr.

(** ** utils/text_processing.py *)

Module TextProcessing.
Import PyStr.

(** One iteration of the [while start < len(text)] loop of [chunk_text]:
    the end of the chunk that starts at [start]. *)
Definition chunk_end (text : str) (max_chunk_size start : Z) : Z :=
  let end_ := Z.min (start + max_chunk_size) (len text) in
  if end_ <? len text then
    let last_period := rfind "."%char text start end_ in
    let last_question := rfind "?"%char text start end_ in
    let last_exclamation := rfind "!"%char text start end_ in
    let sentence_end :=
      Z.max (Z.max last_period last_question) last_exclamation in
    if sentence_end >? start + max_chunk_size / 2
    then sentence_end + 1
    else end_
  else end_.

(** [start = end - overlap if end - overlap > start else end] *)
Definition next_start (overlap start end_ : Z) : Z :=
  if end_ - overlap >? start then end_ - overlap else end_.

(** The loop itself; [fuel] bounds the number of iterations and [None]
    means the bound was reached with the loop still running. *)
Fixpoint chunk_loop (fuel : nat) (text : str) (max_chunk_size overlap : Z)
    (start : Z) (chunks : list str) : option (list str) :=
  if start <? len text then
    match fuel with
    | O => None
    | S fuel' =>
        let end_ := chunk_end text max_chunk_size start in
        chunk_loop fuel' text max_chunk_size overlap
          (next_start overlap start end_)
          (chunks ++ [slice text (Some start) (Some end_)])
    end
  else Some chunks.

Definition chunk_text (fuel : nat) (text : str)
    (max_chunk_size overlap : Z) : option (list str) :=
  if len text <=? max_chunk_size then Some [text]
  else chunk_loop fuel text max_chunk_size overlap 0 [].

(** Reassembly used to state the round trip: the first chunk, followed by
    every later chunk without its first [overlap] characters
    ([chunk[overlap:]]). *)
Definition stitch (overlap : Z) (chunks : list str) : str :=
  match chunks with
  | [] => []
  | c :: rest => c ++ concat (map (fun k => slice k (Some overlap) None) rest)
  end.

(** *** [calculate_reading_statistics]

    The averages and the grade level are Python floats, that is binary64
    numbers.  A float is modelled by the rational it stands for, and every
    operation on floats rounds its exact result to the nearest float, ties
    to even.  The numbers of this function are quotients of lengths and
    sums of three terms of them: they stay far below the largest float, so
    no operation overflows. *)

Inductive exn := ZeroDivisionError.

(** The integer nearest to [q], ties to even. *)
Definition round_half_even (q : Q) : Z :=
  let f := Qfloor q in
  match ((q - inject_Z f) ?= (1 # 2))%Q with
  | Lt => f
  | Gt => f + 1
  | Eq => if Z.even f then f else f + 1
  end.

(** [floor(log2(q))] for a positive [q] *)
Definition ilog2 (q : Q) : Z :=
  let e := Z.log2 (Qnum q) - Z.log2 (Zpos (Qden q)) in
  if Qle_bool (2 ^ e) q then e else e - 1.

(** The float nearest to [q]: a multiple of [2 ^ e] with a factor of at
    most 53 bits, where [e] is at least [-1074] (the subnormal numbers). *)
Definition double (q : Q) : Q :=
  if Qeq_bool q 0 then 0%Q
  else
    let e := Z.max (ilog2 (Z.abs (Qnum q) # Qden q)) (-1022) - 52 in
    Qred (inject_Z (round_half_even (q / 2 ^ e)) * 2 ^ e).

(** [a * b], [a + b] and [a - b] on floats *)
Definition float_mul (a b : Q) : Q := double (a * b).
Definition float_add (a b : Q) : Q := double (a + b).
Definition float_sub (a b : Q) : Q := double (a - b).

(** [a / b] on integers: the float nearest to the quotient *)
Definition true_div (a b : Z) : result exn Q :=
  if b =? 0 then Raise ZeroDivisionError
  else Ok (double (inject_Z a / inject_Z b)).

(** [round(x, 2)] on a float: the float nearest to the decimal of two
    places that is nearest to [x], ties to even. *)
Definition round2 (x : Q) : Q :=
  double (inject_Z (round_half_even (x * 100)) / 100).

Definition is_vowel (c : ascii) : bool :=
  existsb (Ascii.eqb c) (lit "aeiouy").

(** The [for char in word] loop of [count_syllables]. *)
Fixpoint vowel_groups (word : str) (prev_is_vowel : bool) (count : Z) : Z :=
  match word with
  | [] => count
  | char :: rest =>
      vowel_groups rest (is_vowel char)
        (if is_vowel char && negb prev_is_vowel then count + 1 else count)
  end.

Definition count_syllables (word0 : str) : Z :=
  let word := lower word0 in
  if len word <=? 3 then 1
  else
    let count := vowel_groups word false 0 in
    let count :=
      if endswith word (lit "e") && negb (endswith word (lit "le"))
      then count - 1 else count in
    let count :=
      if endswith word (lit "es") || endswith word (lit "ed")
      then count - 1 else count in
    if count =? 0 then 1 else count.

Definition is_terminator (c : ascii) : bool :=
  existsb (Ascii.eqb c) (lit ".!?").

(** [re.split(r'[.!?]+', text)]: the pieces between the maximal runs of
    terminators, empty first and last pieces included.  [prev_sep] tells
    that the previous character was a terminator. *)
Fixpoint split_sentences (s : str) (prev_sep : bool) : list str :=
  match s with
  | [] => [[]]
  | c :: t =>
      if is_terminator c then
        if prev_sep then split_sentences t true
        else [] :: split_sentences t true
      else
        match split_sentences t false with
        | piece :: pieces => (c :: piece) :: pieces
        | [] => [[c]]
        end
  end.

Definition nonempty (s : str) : bool :=
  match s with [] => false | _ => true end.

(** [[s.strip() for s in re.split(...) if s.strip()]] *)
Definition sentences_of (text : str) : list str :=
  filter nonempty (map strip (split_sentences text false)).

(** [re.findall(r'\b\w+\b', text.lower())]: the maximal runs of word
    characters. *)
Definition words_of (text : str) : list str := runs is_word (lower text).

Record reading_statistics := {
  word_count : Z;
  sentence_count : Z;
  avg_words_per_sentence : Q;
  avg_syllables_per_word : Q;
  flesch_kincaid : Q
}.

Definition calculate_reading_statistics (text : str)
    : result exn reading_statistics :=
  let words := words_of text in
  let sentences := sentences_of text in
  let total_syllables := fold_right Z.add 0 (map count_syllables words) in
  let word_count := len words in
  let sentence_count := len sentences in
  let syllable_count := total_syllables in
  if sentence_count =? 0 then
    Ok {| word_count := word_count;
          sentence_count := 0;
          avg_words_per_sentence := 0;
          avg_syllables_per_word := 0;
          flesch_kincaid := 0 |}
  else
    bind (true_div word_count sentence_count) (fun avg_words_per_sentence =>
    bind (if word_count >? 0 then true_div syllable_count word_count
          else Ok 0%Q) (fun avg_syllables_per_word =>
    let flesch_kincaid :=
      float_sub
        (float_add (float_mul (double (39 # 100)) avg_words_per_sentence)
                   (float_mul (double (118 # 10)) avg_syllables_per_word))
        (double (1559 # 100)) in
    Ok {| word_count := word_count;
          sentence_count := sentence_count;
          avg_words_per_sentence := round2 avg_words_per_sentence;
          avg_syllables_per_word := round2 avg_syllables_per_word;
          flesch_kincaid := round2 flesch_kincaid |})).

(** *** [find_repeated_phrases] *)

(** The [for i in range(...)] loop that fills [phrases]. *)
Definition count_phrases (words : list str) (min_length : Z)
    : list (str * Z) :=
  fold_left
    (fun phrases i =>
       let phrase :=
         join (lit " ") (slice words (Some i) (Some (i + min_length))) in
       dict_set phrases phrase (dict_get phrases phrase 0 + 1))
    (range (len words - min_length + 1))
    [].

(** [repeated.sort(key=lambda x: x[1], reverse=True)]: a stable sort by
    descending count, entries with equal counts keeping their order. *)
Fixpoint insert_desc (x : str * Z) (l : list (str * Z)) : list (str * Z) :=
  match l with
  | [] => [x]
  | y :: l' => if snd y <=? snd x then x :: l else y :: insert_desc x l'
  end.

Definition sort_desc (l : list (str * Z)) : list (str * Z) :=
  fold_right insert_desc [] l.

Definition find_repeated_phrases (text : str) (min_length min_occurrences : Z)
    : list (str * Z) :=
  let normalized := lower text in
  let words := split normalized in
  let phrases := count_phrases words min_length in
  let repeated :=
    filter (fun pc => snd pc >=? min_occurrences) phrases in
  sort_desc repeated.

(** The number of positions at which the words [pat] stand, one after the
    other, in [words]. *)
Fixpoint occurrences (pat words : list str) : nat :=
  match words with
  | [] => 0
  | _ :: rest =>
      (if list_eq_dec str_eq_dec (firstn (length pat) words) pat
       then 1 else 0) + occurrences pat rest
  end%nat.

(** The statistics of a text without sentences. *)
Definition zero_statistics : reading_statistics :=
  {| word_count := 0; sentence_count := 0;
     avg_words_per_sentence := 0; avg_syllables_per_word := 0;
     flesch_kincaid := 0 |}.

(** The tally kept in [phrases], as a fold over the phrases themselves. *)
Definition tally (keys : list str) (d : list (str * Z)) : list (str * Z) :=
  fold_left
    (fun phrases k => dict_set phrases k (dict_get phrases k 0 + 1)) keys d.

(** Descending order of the counts. *)
Definition desc (a b : str * Z) : Prop := snd b <= snd a.

(** The windows of [k] consecutive words, from left to right. *)
Fixpoint windows (k : nat) (words : list str) : list (list str) :=
  match words with
  | [] => []
  | _ :: rest =>
      if (k <=? length words)%nat then firstn k words :: windows k rest
      else []
  end.

(** A word without white space, as [split] returns them. *)
Definition nospace (w : str) : Prop := Forall (fun c => isspace c = false) w.

(** The trigram of the specification, and a text that holds it five times. *)
Definition trigram : list str := [lit "the"; lit "dark"; lit "forest"].

Definition forest_text : str :=
  lit "The dark forest is old. In the dark forest the dark   forest hid the Dark Forest and the dark forest grew".

(** *** What the facts about [chunk_text] and [find_repeated_phrases] speak of *)

(** A piece of [text] of between one and [max_chunk_size] characters. *)
Definition piece_of (text : str) (max_chunk_size : Z) (c : str) : Prop :=
  (exists before after, text = before ++ c ++ after) /\
  1 <= len c <= max_chunk_size.


(** [chained R l]: [R] relates every element of [l] to the next one. *)
Fixpoint chained {A} (R : A -> A -> Prop) (l : list A) : Prop :=
  match l with
  | a :: (b :: _) as rest => R a b /\ chained R rest
  | _ => True
  end.

(** [c2] starts with the last [overlap] characters of [c1]:
    [c1[len(c1) - overlap:] == c2[:overlap]]. *)
Definition overlaps (overlap : Z) (c1 c2 : str) : Prop :=
  overlap <= len c1 /\
  slice c1 (Some (len c1 - overlap)) None = slice c2 None (Some overlap).

(** What the loop knows about its last chunk [text[s0:e0]] when it
    starts the next iteration at [start]. *)
Definition after_chunk (text : str) (overlap : Z) (chunks : list str)
    (start : Z) : Prop :=
  exists front s0 e0,
    chunks = front ++ [slice text (Some s0) (Some e0)] /\
    0 <= s0 < e0 /\ e0 <= len text /\ s0 <= len text - overlap /\
    ((start = e0 - overlap /\ s0 < start) \/
     (start = e0 /\ e0 = len text /\ e0 - overlap <= s0)).

(** The phrase that the loop of [find_repeated_phrases] reads at every
    index, in order. *)
Definition phrases_at (words : list str) (min_length : Z) : list str :=
  map (fun i => join (lit " ") (slice words (Some i) (Some (i + min_length))))
      (range (len words - min_length + 1)).

End TextProcessing.

(** ** Regular expressions

    The fragment of Python's [re] that [utils/parsing.py] uses, as a
    backtracking matcher in continuation-passing style.  Repetition is
    over character classes only, which is all the patterns need. *)

Module Re.
Import PyStr.

Inductive regex : Type :=
| Eps
| Chr (p : ascii -> bool)          (** one character of a class *)
| Seq (r1 r2 : regex)
| Alt (r1 r2 : regex)              (** [r1|r2] *)
| Star (p : ascii -> bool)         (** [p*], greedy *)
| Lazy (p : ascii -> bool)         (** [p*?] *)
| Group (n : nat) (r : regex)      (** the [n]-th pair of parentheses *)
| Ahead (r : regex)                (** [(?=r)] *)
| Eos.                             (** [$] without [re.MULTILINE] *)

(** [p+] *)
Definition Plus (p : ascii -> bool) : regex := Seq (Chr p) (Star p).

(** A literal string, and the same under [re.IGNORECASE]. *)
Fixpoint Lit (l : str) : regex :=
  match l with
  | [] => Eps
  | c :: l' => Seq (Chr (Ascii.eqb c)) (Lit l')
  end.

Definition same_letter (c x : ascii) : bool :=
  Ascii.eqb (lower_char c) (lower_char x).

Fixpoint LitI (l : str) : regex :=
  match l with
  | [] => Eps
  | c :: l' => Seq (Chr (same_letter c)) (LitI l')
  end.

(** [.] under [re.DOTALL] *)
Definition any (c : ascii) : bool := true.

(** The text of the groups matched so far, most recent first. *)
Definition captures := list (nat * str).

Fixpoint group (caps : captures) (n : nat) : option str :=
  match caps with
  | [] => None
  | (m, g) :: rest => if Nat.eqb m n then Some g else group rest n
  end.

Fixpoint star {A} (p : ascii -> bool) (s : str) (k : str -> option A)
    : option A :=
  match s with
  | c :: t =>
      if p c then
        match star p t k with
        | Some x => Some x
        | None => k s
        end
      else k s
  | [] => k s
  end.

Fixpoint lazy {A} (p : ascii -> bool) (s : str) (k : str -> option A)
    : option A :=
  match k s with
  | Some x => Some x
  | None =>
      match s with
      | c :: t => if p c then lazy p t k else None
      | [] => None
      end
  end.

(** [run r s caps k]: match [r] at the front of [s] and hand what is left
    of [s] to [k]; when [k] fails, try the next way of matching [r]. *)
Fixpoint run (r : regex) {A} (s : str) (caps : captures)
    (k : str -> captures -> option A) : option A :=
  match r with
  | Eps => k s caps
  | Chr p =>
      match s with
      | c :: t => if p c then k t caps else None
      | [] => None
      end
  | Seq r1 r2 => run r1 s caps (fun s1 caps1 => run r2 s1 caps1 k)
  | Alt r1 r2 =>
      match run r1 s caps k with
      | Some x => Some x
      | None => run r2 s caps k
      end
  | Star p => star p s (fun s' => k s' caps)
  | Lazy p => lazy p s (fun s' => k s' caps)
  | Group n r1 =>
      run r1 s caps
        (fun s' caps' =>
           k s' ((n, firstn (length s - length s') s) :: caps'))
  | Ahead r1 =>
      match run r1 s caps (fun _ caps' => Some caps') with
      | Some caps' => k s caps'
      | None => None
      end
  | Eos =>
      match s with
      | [] => k s caps
      | [c] => if Ascii.eqb c "010" then k s caps else None
      | _ => None
      end
  end.

(** A match anchored at the front of [s]: what follows it, and the groups. *)
Definition match_at (r : regex) (s : str) : option (str * captures) :=
  run r s [] (fun s' caps => Some (s', caps)).

Record rmatch := {
  start : nat;          (** [m.start()] *)
  text : str;           (** [m.group(0)] *)
  groups : captures
}.

(** [m.group(n)]; a group that took no part reads as the empty string. *)
Definition group_of (m : rmatch) (n : nat) : str :=
  match group (groups m) n with Some g => g | None => [] end.

(** [re.search(r, s)], [s] standing at offset [i]. *)
Fixpoint search_from (r : regex) (s : str) (i : nat) : option rmatch :=
  match match_at r s with
  | Some (rest, caps) =>
      Some {| start := i;
              text := firstn (length s - length rest) s;
              groups := caps |}
  | None =>
      match s with
      | [] => None
      | _ :: t => search_from r t (S i)
      end
  end.

Definition search (r : regex) (s : str) : option rmatch := search_from r s 0.

(** [re.finditer(r, s)]: the matches from left to right, none overlapping
    another.  [skip] counts the characters still inside the last match. *)
Fixpoint finditer_from (r : regex) (s : str) (i skip : nat) : list rmatch :=
  match skip with
  | S skip' =>
      match s with
      | [] => []
      | _ :: t => finditer_from r t (S i) skip'
      end
  | O =>
      match match_at r s with
      | Some (rest, caps) =>
          let n := (length s - length rest)%nat in
          {| start := i; text := firstn n s; groups := caps |}
          :: match s with
             | [] => []
             | _ :: t => finditer_from r t (S i) (n - 1)
             end
      | None =>
          match s with
          | [] => []
          | _ :: t => finditer_from r t (S i) 0
          end
      end
  end.

Definition finditer (r : regex) (s : str) : list rmatch :=
  finditer_from r s 0 0.

(** The pieces of [s] between the matches [ms], from offset [i] on. *)
Fixpoint pieces (s : str) (i : nat) (ms : list rmatch) : list str :=
  match ms with
  | [] => [skipn i s]
  | m :: ms' =>
      firstn (start m - i) (skipn i s)
      :: pieces s (start m + length (text m)) ms'
  end.

(** [re.split(r, s)] for a pattern without groups *)
Definition split (r : regex) (s : str) : list str :=
  pieces s 0 (finditer r s).

(** [re.sub(r, "", s)] *)
Definition remove_all (r : regex) (s : str) : str := concat (split r s).

(** [s.split(sep)] for a non-empty separator *)
Definition str_split (sep s : str) : list str := split (Lit sep) s.

(** [s.replace(old, "", 1)] *)
Definition remove_first (old s : str) : str :=
  match search (Lit old) s with
  | Some m => firstn (start m) s ++ skipn (start m + length old) s
  | None => s
  end.

(** [matches r s s' caps caps']: [r] can match the front of [s] leaving
    [s'], taking the groups from [caps] to [caps']. *)
Fixpoint matches (r : regex) (s s' : str) (caps caps' : captures) : Prop :=
  match r with
  | Eps => s' = s /\ caps' = caps
  | Chr p => exists c, s = c :: s' /\ p c = true /\ caps' = caps
  | Seq r1 r2 =>
      exists s1 caps1, matches r1 s s1 caps caps1 /\ matches r2 s1 s' caps1 caps'
  | Alt r1 r2 => matches r1 s s' caps caps' \/ matches r2 s s' caps caps'
  | Star p | Lazy p =>
      exists l, s = l ++ s' /\ Forall (fun c => p c = true) l /\ caps' = caps
  | Group n r1 =>
      exists caps1,
        matches r1 s s' caps caps1 /\
        caps' = (n, firstn (length s - length s') s) :: caps1
  | Ahead r1 => s' = s /\ exists s2, matches r1 s s2 caps caps'
  | Eos => s' = s /\ caps' = caps /\ (s = [] \/ s = nl)
  end.

(** [needs r l]: [r] cannot match a text that does not start with [l]. *)
Definition needs (r : regex) (l : str) : Prop :=
  forall A s caps (k : str -> captures -> option A),
    prefixb l s = false -> run r s caps k = None.

(** [re.sub(r, repl, s)] for a pattern that matches no empty string and a
    replacement without escapes *)
Definition sub (r : regex) (repl s : str) : str := join repl (Re.split r s).

(** A pattern without a group. *)
Fixpoint groupless (r : regex) : bool :=
  match r with
  | Seq r1 r2 | Alt r1 r2 => groupless r1 && groupless r2
  | Group _ _ => false
  | Ahead r1 => groupless r1
  | _ => true
  end.

End Re.

(** ** utils/parsing.py *)

Module Parsing.
Import PyStr Re.

Inductive exn : Type :=
| IndexError
| ValueError.

(** The most digits that the interpreter reads into an integer or writes
    of one, [sys.get_int_max_str_digits()]: 4300 unless the interpreter is
    told otherwise, which the program never does. *)
Definition int_max_str_digits : Z := 4300.

(** [int(s)] on a string: optional white space around an optional sign and
    decimal digits, single underscores allowed between digits.  [None]
    stands for [ValueError], which a text of more than
    [int_max_str_digits] digits raises as well, leading zeros counted. *)
Definition int_space (c : ascii) : bool :=
  between 9 13 c || (code c =? 32) || (code c =? 133) || (code c =? 160).

Fixpoint int_lstrip (s : str) : str :=
  match s with
  | c :: t => if int_space c then int_lstrip t else s
  | [] => []
  end.

Inductive int_state := AtStart | AfterDigit | AfterUnderscore.

Fixpoint int_digits (s : str) (acc : Z) (st : int_state) : option Z :=
  match s with
  | [] => match st with AfterDigit => Some acc | _ => None end
  | c :: t =>
      if is_digit c then int_digits t (acc * 10 + (code c - 48)) AfterDigit
      else if Ascii.eqb c "_" then
        match st with
        | AfterDigit => int_digits t acc AfterUnderscore
        | _ => None
        end
      else None
  end.

Definition int (s : str) : option Z :=
  let s := rev (int_lstrip (rev (int_lstrip s))) in
  if int_max_str_digits <? len (filter is_digit s) then None
  else
    match s with
    | "-"%char :: t => option_map Z.opp (int_digits t 0 AtStart)
    | "+"%char :: t => int_digits t 0 AtStart
    | _ => int_digits s 0 AtStart
    end.

(** The least number of more than [int_max_str_digits] digits. *)
Definition int_str_bound : Z := Eval vm_compute in 10 ^ int_max_str_digits.

(** [str(n)] on an integer, as an f-string writes it: [None] stands for the
    [ValueError] of an integer of more than [int_max_str_digits] digits. *)
Definition str_of_int (n : Z) : option str :=
  if int_str_bound <=? Z.abs n then None else Some (str_of_Z n).

(** [s.replace(',', '')] *)
Definition remove_commas (s : str) : str :=
  filter (fun c => negb (Ascii.eqb c ",")) s.

Definition not_digit (c : ascii) : bool := negb (is_digit c).
Definition digit_or_comma (c : ascii) : bool := is_digit c || Ascii.eqb c ",".
Definition not_newline (c : ascii) : bool := negb (Ascii.eqb c "010").

(** [r'Chapter (\d+):\s*(.*?)(?=\n(?:Summary|Estimated))'] *)
Definition chapter_pattern : regex :=
  Seq (Lit (lit "Chapter "))
  (Seq (Group 1 (Plus is_digit))
  (Seq (Lit (lit ":"))
  (Seq (Star isspace)
  (Seq (Group 2 (Lazy any))
       (Ahead (Seq (Lit nl)
                   (Alt (Lit (lit "Summary")) (Lit (lit "Estimated"))))))))).

(** [r'(?:Chapter \d+|Chapter):\s*(.*?)(?=\n(?:Summary|Estimated))'] *)
Definition alt_chapter_pattern : regex :=
  Seq (Alt (Seq (Lit (lit "Chapter ")) (Plus is_digit)) (Lit (lit "Chapter")))
  (Seq (Lit (lit ":"))
  (Seq (Star isspace)
  (Seq (Group 1 (Lazy any))
       (Ahead (Seq (Lit nl)
                   (Alt (Lit (lit "Summary")) (Lit (lit "Estimated")))))))).

(** [f'Chapter {chapter_num}:.*?(?=Chapter {int(chapter_num)+1}:|$)'],
    [next] being the text of [int(chapter_num)+1]. *)
Definition chapter_block_pattern (chapter_num next : str) : regex :=
  Seq (Lit (lit "Chapter " ++ chapter_num ++ lit ":"))
  (Seq (Lazy any)
       (Ahead (Alt (Lit (lit "Chapter " ++ next ++ lit ":")) Eos))).

(** [r'Summary:\s*(.*?)(?=\nEstimated|$)'] *)
Definition summary_pattern : regex :=
  Seq (Lit (lit "Summary:"))
  (Seq (Star isspace)
  (Seq (Group 1 (Lazy any))
       (Ahead (Alt (Lit (nl ++ lit "Estimated")) Eos)))).

(** [Estimated word count:\s*] followed by the group [\d[,\d]*]. *)
Definition word_count_pattern : regex :=
  Seq (Lit (lit "Estimated word count:"))
  (Seq (Star isspace)
       (Group 1 (Seq (Chr is_digit) (Star digit_or_comma)))).

(** [r'Chapter \d+|CHAPTER \d+'] *)
Definition chapter_marker : regex :=
  Alt (Seq (Lit (lit "Chapter ")) (Plus is_digit))
      (Seq (Lit (lit "CHAPTER ")) (Plus is_digit)).

(** [r'[:\-–—]\s*([^\n]+)'].  Of the four delimiters only the colon and the
    hyphen have a code point below 256. *)
Definition title_delimiter (c : ascii) : bool :=
  Ascii.eqb c ":" || Ascii.eqb c "-".

Definition title_pattern : regex :=
  Seq (Chr title_delimiter)
  (Seq (Star isspace) (Group 1 (Plus not_newline))).

(** [(?:Estimated|Target|Approximate)[^\d]*], the group [\d[,\d]*], and
    [[^\d]*words], under [re.IGNORECASE]. *)
Definition lenient_word_count_pattern : regex :=
  Seq (Alt (LitI (lit "Estimated"))
           (Alt (LitI (lit "Target")) (LitI (lit "Approximate"))))
  (Seq (Star not_digit)
  (Seq (Group 1 (Seq (Chr is_digit) (Star digit_or_comma)))
  (Seq (Star not_digit) (LitI (lit "words"))))).

Record chapter := {
  chapter_num : Z;
  title : str;
  summary : str;
  word_count : Z
}.

(** The word count read from a match of one of the two word-count
    patterns: [int(m.group(1).replace(',', ''))], or 3000 on [ValueError]. *)
Definition word_count_of (m : rmatch) : Z :=
  match int (remove_commas (group_of m 1)) with
  | Some n => n
  | None => 3000
  end.

(** The body of the [for block in chapter_blocks] loop of
    [_lenient_parse_outline], for a block that is not blank. *)
Definition lenient_chapter (i : Z) (block : str) : chapter :=
  let title_match := search title_pattern block in
  let title :=
    match title_match with
    | Some m => strip (group_of m 1)
    | None => lit "Chapter " ++ str_of_Z (i + 1)
    end in
  let summary :=
    match title_match with
    | Some m => remove_first (text m) block
    | None => block
    end in
  let word_count_match := search lenient_word_count_pattern summary in
  let word_count :=
    match word_count_match with
    | Some m => word_count_of m
    | None => 3000
    end in
  let summary :=
    match word_count_match with
    | Some _ => remove_all lenient_word_count_pattern summary
    | None => summary
    end in
  {| chapter_num := i + 1;
     title := title;
     summary := strip summary;
     word_count := word_count |}.

Fixpoint lenient_blocks (i : Z) (chapter_blocks : list str) : list chapter :=
  match chapter_blocks with
  | [] => []
  | block :: rest =>
      match strip block with
      | [] => lenient_blocks (i + 1) rest
      | _ => lenient_chapter i block :: lenient_blocks (i + 1) rest
      end
  end.

Definition _lenient_parse_outline (outline : str) : list chapter :=
  let chapter_blocks := Re.split chapter_marker outline in
  let chapter_blocks :=
    match chapter_blocks with
    | first :: rest =>
        match strip first with [] => rest | _ => chapter_blocks end
    | [] => chapter_blocks
    end in
  lenient_blocks 0 chapter_blocks.

(** The body of the [for (chapter_num, title) in chapter_matches] loop.
    The f-string of the block pattern reads [chapter_num] as an integer and
    writes its successor; either can raise [ValueError]. *)
Definition strict_chapter (outline chapter_num title : str)
    : result exn chapter :=
  match int chapter_num with
  | None => Raise ValueError
  | Some n =>
      match str_of_int (n + 1) with
      | None => Raise ValueError
      | Some next =>
          let chapter_block_match :=
            search (chapter_block_pattern chapter_num next) outline in
          bind
            (match chapter_block_match with
             | Some m => Ok (text m)
             | None =>
                 let before_next :=
                   hd [] (str_split (lit "Chapter " ++ next ++ lit ":")
                            outline) in
                 match str_split (lit "Chapter " ++ chapter_num ++ lit ":")
                         before_next with
                 | _ :: parts :: _ => Ok (strip parts)
                 | _ => Raise IndexError
                 end
             end)
            (fun chapter_block =>
               let summary :=
                 match search summary_pattern chapter_block with
                 | Some m => strip (group_of m 1)
                 | None => []
                 end in
               let word_count :=
                 match search word_count_pattern chapter_block with
                 | Some m => word_count_of m
                 | None => 3000
                 end in
               Ok {| chapter_num := n;
                     title := strip title;
                     summary := summary;
                     word_count := word_count |})
      end
  end.

Fixpoint strict_chapters (outline : str) (chapter_matches : list (str * str))
    : result exn (list chapter) :=
  match chapter_matches with
  | [] => Ok []
  | (chapter_num, title) :: rest =>
      bind (strict_chapter outline chapter_num title) (fun chapter =>
      bind (strict_chapters outline rest) (fun chapters =>
      Ok (chapter :: chapters)))
  end.

(** [chapters.sort(key=lambda x: x["chapter_num"])]: a stable sort. *)
Fixpoint insert_chapter (x : chapter) (l : list chapter) : list chapter :=
  match l with
  | [] => [x]
  | y :: l' =>
      if chapter_num x <=? chapter_num y then x :: l
      else y :: insert_chapter x l'
  end.

Definition sort_chapters (l : list chapter) : list chapter :=
  fold_right insert_chapter [] l.

(** The matches of the first pattern, or, when there are none, those of the
    second with the chapters numbered by position. *)
Definition chapter_matches (outline : str) : list (str * str) :=
  match finditer chapter_pattern outline with
  | [] =>
      let alt_matches :=
        map (fun m => group_of m 1) (finditer alt_chapter_pattern outline) in
      map (fun '(i, title) => (str_of_Z (i + 1), strip title))
          (combine (range (len alt_matches)) alt_matches)
  | ms => map (fun m => (group_of m 1, group_of m 2)) ms
  end.

Definition parse_outline (outline : str) : result exn (list chapter) :=
  bind (strict_chapters outline (chapter_matches outline)) (fun chapters =>
  let chapters :=
    match chapters with
    | [] => _lenient_parse_outline outline
    | _ => chapters
    end in
  Ok (sort_chapters chapters)).

(** A title or a summary fit for a well-formed block: it is not empty,
    neither starts nor ends with white space, stays on one line, and holds
    none of the markers [Chapter], [Summary:] and [Estimated]. *)
Definition plain (s : str) : bool :=
  match s with
  | [] => false
  | c :: _ =>
      negb (isspace c) && negb (isspace (last s c))
      && forallb not_newline s
      && negb (occursb (lit "Chapter") s)
      && negb (occursb (lit "Summary:") s)
      && negb (occursb (lit "Estimated") s)
  end.

(** The block that the specification calls well formed. *)
Definition well_formed_block (title summary : str) : str :=
  lit "Chapter 1: " ++ title ++ nl
  ++ lit "Summary: " ++ summary ++ nl
  ++ lit "Estimated word count: 2500".

(** What group 1 of the two word-count patterns holds: a digit followed
    by digits and commas. *)
Definition counted (g : str) : Prop :=
  exists c l, g = c :: l /\ is_digit c = true /\
              Forall (fun x => digit_or_comma x = true) l.

(** A header whose number has fewer than [int_max_str_digits] digits: the
    number can be read, and its successor written. *)
Definition short_number (m : rmatch) : Prop :=
  len (group_of m 1) < int_max_str_digits.

(** Ascending order of the chapter numbers. *)
Definition by_number (a b : chapter) : Prop := chapter_num a <= chapter_num b.

(** An outline of two chapters, the second one first. *)
Definition two_chapters : str :=
  lit "Chapter 2: Dusk" ++ nl ++ lit "Summary: They leave." ++ nl
  ++ lit "Estimated word count: 1,200" ++ nl
  ++ lit "Chapter 1: Dawn" ++ nl ++ lit "Summary: They arrive." ++ nl.

(** [$] fails on a text of two characters or more, and on a single
    character other than the line feed. *)
Definition goes_on (s : str) : Prop := s <> [] /\ s <> nl.

End Parsing.

(** ** utils/text_processing.py: the functions built on [re] *)

Module TextPatterns.
Import PyStr Re TextProcessing.

(** [first|second|...] on literal strings *)
Fixpoint one_of (first : str) (others : list str) : regex :=
  match others with
  | [] => Lit first
  | next :: others' => Alt (Lit first) (one_of next others')
  end.

Definition not_quote (c : ascii) : bool := negb (Ascii.eqb c "034").
Definition upper_az (c : ascii) : bool := between 65 90 c.
Definition lower_az (c : ascii) : bool := between 97 122 c.

(** [[A-Z][a-z]+] *)
Definition capitalised : regex := Seq (Chr upper_az) (Plus lower_az).

(** The pattern of [extract_dialogue] for a quotation with its speaker:
    the quotation [Q([^Q]+)Q] (with [Q] for the double quote),
    [\s*(?:,|\.)\s*], the speaker [(?:([A-Z][a-z]+)(?:\s+[A-Z][a-z]+)?)],
    and the verb [(?:\s+(?:said|asked|...))]. *)
Definition dialogue_pattern : regex :=
  Seq (Lit dquote)
  (Seq (Group 1 (Plus not_quote))
  (Seq (Lit dquote)
  (Seq (Star isspace)
  (Seq (Alt (Lit (lit ",")) (Lit (lit ".")))
  (Seq (Star isspace)
  (Seq (Seq (Group 2 capitalised)
            (Alt (Seq (Plus isspace) capitalised) Eps))
  (Seq (Plus isspace)
       (one_of (lit "said")
          [lit "asked"; lit "replied"; lit "answered"; lit "shouted";
           lit "whispered"; lit "muttered"; lit "exclaimed";
           lit "responded"])))))))).

(** The pattern for any quotation: [Q([^Q]+)Q]. *)
Definition quote_pattern : regex :=
  Seq (Lit dquote) (Seq (Group 1 (Plus not_quote)) (Lit dquote)).

Record line := {
  dialogue : str;
  speaker : str
}.

Definition extract_dialogue (text : str) : list line :=
  let matches :=
    map (fun m => (group_of m 1, group_of m 2))
        (finditer dialogue_pattern text) in
  let dialogue :=
    map (fun '(d, s) => {| dialogue := d; speaker := s |})
        (filter (fun '(d, s) => nonempty d && nonempty s) matches) in
  match dialogue with
  | [] =>
      let quotes := map (fun m => group_of m 1) (finditer quote_pattern text) in
      map (fun q => {| dialogue := q; speaker := lit "Unknown" |})
          (filter nonempty quotes)
  | _ => dialogue
  end.

(** *** [identify_scene_breaks] *)

(** [\n\s*X\s*X\s*X\s*\n] for a marker character [X]. *)
Definition marker (symbol : ascii -> bool) : regex :=
  Seq (Lit nl)
  (Seq (Star isspace)
  (Seq (Chr symbol)
  (Seq (Star isspace)
  (Seq (Chr symbol)
  (Seq (Star isspace)
  (Seq (Chr symbol)
  (Seq (Star isspace) (Lit nl)))))))).

(** The square, the circle and the diamond of the last three markers
    have code points above 255: no character of a text is one of them. *)
Definition outside (c : ascii) : bool := false.

Definition explicit_markers : list regex :=
  [ marker (Ascii.eqb "*"); marker (Ascii.eqb "#"); marker (Ascii.eqb "-");
    marker (Ascii.eqb "."); marker outside; marker outside; marker outside ].

Definition not_terminator (c : ascii) : bool := negb (is_terminator c).

(** [\n\n], an opening, [[^.!?]*], one of the words, [[^.!?]*[.!?]]. *)
Definition transition (opening words : regex) : regex :=
  Seq (Lit (nl ++ nl))
  (Seq opening
  (Seq (Star not_terminator)
  (Seq words
  (Seq (Star not_terminator) (Chr is_terminator))))).

Definition transition_patterns : list regex :=
  [ transition (Chr upper_az)
      (one_of (lit "later")
         [lit "hours"; lit "minutes"; lit "days"; lit "weeks"; lit "months";
          lit "years"]);
    transition (Chr upper_az)
      (one_of (lit "meanwhile") [lit "elsewhere"; lit "across"; lit "nearby"]);
    transition (one_of (lit "The next") [lit "That"; lit "The following"])
      (one_of (lit "morning")
         [lit "afternoon"; lit "evening"; lit "day"; lit "night"]) ].

(** [sorted(set(l))] on integers *)
Fixpoint insert_new (x : Z) (l : list Z) : list Z :=
  match l with
  | [] => [x]
  | y :: l' =>
      if x <? y then x :: l
      else if x =? y then l
      else y :: insert_new x l'
  end.

Definition sorted_set (l : list Z) : list Z := fold_right insert_new [] l.

(** The [for match in re.finditer(pattern, text)] loops over a list of
    patterns. *)
Definition starts_of (patterns : list regex) (text : str) : list Z :=
  flat_map (fun pattern =>
              map (fun m => Z.of_nat (start m)) (finditer pattern text))
           patterns.

Definition identify_scene_breaks (text : str) : list Z :=
  let break_indices := starts_of explicit_markers text in
  let break_indices := break_indices ++ starts_of transition_patterns text in
  sorted_set break_indices.

(** A name as the speaker group matches it: a capital letter followed by
    one small letter or more. *)
Definition capitalised_word (s : str) : Prop :=
  exists c d rest,
    s = c :: d :: rest /\ upper_az c = true /\
    Forall (fun x => lower_az x = true) (d :: rest).

(** A quotation: it is not empty and holds no double quote. *)
Definition quotation (s : str) : Prop :=
  s <> [] /\ Forall (fun c => not_quote c = true) s.

(** The quotation [d] stands in [text] between two double quotes. *)
Definition quoted (text d : str) : Prop :=
  exists before after, text = before ++ dquote ++ d ++ dquote ++ after.

(** In [text] the closing quote of the quotation [d] is followed, white
    space apart, by a comma or a full stop and by the name [sp]. *)
Definition attributed (text d sp : str) : Prop :=
  exists before ws p ws' after,
    text = before ++ dquote ++ d ++ dquote ++ ws ++ p ++ ws' ++ sp ++ after /\
    Forall (fun c => isspace c = true) (ws ++ ws') /\
    (p = lit "," \/ p = lit ".").

(** The verbs of the attribution in [dialogue_pattern]. *)
Definition verbs : list str :=
  [lit "said"; lit "asked"; lit "replied"; lit "answered"; lit "shouted";
   lit "whispered"; lit "muttered"; lit "exclaimed"; lit "responded"].

(** White space, at least one character of it. *)
Definition blank (ws : str) : Prop :=
  ws <> [] /\ Forall (fun c => isspace c = true) ws.

(** Nothing, or white space and a second capitalised word. *)
Definition second_name (s : str) : Prop :=
  s = [] \/ exists ws word, s = ws ++ word /\ blank ws /\ capitalised_word word.

End TextPatterns.

(** ** utils/parsing.py: character profiles *)

Module Profiles.
Import PyStr Re TextProcessing Parsing.

(** [\d+\.\s+|\*\*|\#\#|Character\s+\d+:|Character name:|Name:] *)
Definition profile_header : regex :=
  Alt (Seq (Plus is_digit) (Seq (Lit (lit ".")) (Plus isspace)))
  (Alt (Lit (lit "**"))
  (Alt (Lit (lit "##"))
  (Alt (Seq (Lit (lit "Character"))
            (Seq (Plus isspace) (Seq (Plus is_digit) (Lit (lit ":")))))
  (Alt (Lit (lit "Character name:")) (Lit (lit "Name:")))))).

(** [\n\s*(?=header)] *)
Definition block_separator : regex :=
  Seq (Lit nl) (Seq (Star isspace) (Ahead profile_header)).

(** [(?:header)\s*([^\n]+)] *)
Definition name_pattern : regex :=
  Seq profile_header (Seq (Star isspace) (Group 1 (Plus not_newline))).

(** [(?:a|b|c):] under [re.IGNORECASE] *)
Definition label (a b c : str) : regex :=
  Seq (Alt (LitI a) (Alt (LitI b) (LitI c))) (Lit (lit ":")).

(** [(?:Role|Role in story|Character role):\s*([^\n]+)] *)
Definition role_pattern : regex :=
  Seq (label (lit "Role") (lit "Role in story") (lit "Character role"))
  (Seq (Star isspace) (Group 1 (Plus not_newline))).

(** [(?:a|b|c):\s*(.*?)(?=\n\s*\w+:|$)] under [re.IGNORECASE | re.DOTALL] *)
Definition field_pattern (a b c : str) : regex :=
  Seq (label a b c)
  (Seq (Star isspace)
  (Seq (Group 1 (Lazy any))
       (Ahead (Alt (Seq (Lit nl)
                   (Seq (Star isspace) (Seq (Plus is_word) (Lit (lit ":")))))
                   Eos)))).

Definition personality_pattern : regex :=
  field_pattern (lit "Personality") (lit "Traits") (lit "Character traits").

Definition goals_pattern : regex :=
  field_pattern (lit "Goals") (lit "Motivations") (lit "Goals and motivations").

Record character := {
  name : str;
  role : str;
  personality : str;
  goals : str;
  full_profile : str
}.

(** [m.group(1).strip() if m else default] *)
Definition field (r : regex) (block default : str) : str :=
  match search r block with
  | Some m => strip (group_of m 1)
  | None => default
  end.

(** The body of the [for block in character_blocks] loop. *)
Definition character_of (block : str) : character :=
  {| name := field name_pattern block (lit "Unknown Character");
     role := field role_pattern block [];
     personality := field personality_pattern block [];
     goals := field goals_pattern block [];
     full_profile := block |}.

(** The profile returned when no block is found. *)
Definition main_character (profiles_text : str) : character :=
  {| name := lit "Main Character";
     role := [];
     personality := [];
     goals := [];
     full_profile := profiles_text |}.

Definition extract_character_profiles (profiles_text : str) : list character :=
  let character_blocks := Re.split block_separator profiles_text in
  let character_blocks :=
    map strip (filter (fun block => nonempty (strip block)) character_blocks) in
  let characters := map character_of character_blocks in
  match characters with
  | [] => [main_character profiles_text]
  | _ => characters
  end.

(** What stands behind a heading in a card: a text on one line, without a
    colon, that does not start or end with white space. *)
Definition entry (s : str) : bool :=
  match s with
  | [] => false
  | c :: _ =>
      negb (isspace c) && negb (isspace (last s c))
      && forallb (fun x => not_newline x && negb (Ascii.eqb x ":")) s
  end.

(** The card of a person: the name and the role, each under its heading. *)
Definition card (person : str * str) : str :=
  lit "Name: " ++ fst person ++ nl ++ lit "Role: " ++ snd person.

(** The profile that the card stands for. *)
Definition profile_of (person : str * str) : character :=
  {| name := fst person;
     role := snd person;
     personality := [];
     goals := [];
     full_profile := card person |}.

(** A person whose name and role are entries. *)
Definition entries (person : str * str) : Prop :=
  entry (fst person) = true /\ entry (snd person) = true.

(** The pattern [R] is not found where the heading of the name stands,
    nor at the line feed behind the name. *)
Definition skips_name (R : regex) : Prop :=
  forall prefix,
    In prefix [lit "Name:"; lit "ame:"; lit "me:"; lit "e:"; lit ":"; nl] ->
    forall s, match_at R (prefix ++ s) = None.

(** The pattern [R] is not found where the heading of the role stands. *)
Definition skips_role (R : regex) : Prop :=
  forall prefix,
    In prefix [lit "Role:"; lit "ole:"; lit "le:"; lit "e:"; lit ":"] ->
    forall s, match_at R (prefix ++ s) = None.

End Profiles.

(** ** utils/parsing.py: feedback *)

Module Feedback.
Import PyStr Re TextProcessing Parsing Profiles.

(** [(?:Issues|Problems|Errors):\s*(.*?)(?=\n\s*\w+:|$)] *)
Definition issues_pattern : regex :=
  field_pattern (lit "Issues") (lit "Problems") (lit "Errors").

(** [(?:Suggestions|Recommendations|Fixes):\s*(.*?)(?=\n\s*\w+:|$)] *)
Definition suggestions_pattern : regex :=
  field_pattern (lit "Suggestions") (lit "Recommendations") (lit "Fixes").

(** An item of a numbered or bulleted list:
    [(?:\d+\.|\*|\-)\s*([^\n]+)]. *)
Definition item_pattern : regex :=
  Seq (Alt (Seq (Plus is_digit) (Lit (lit ".")))
      (Alt (Lit (lit "*")) (Lit (lit "-"))))
  (Seq (Star isspace) (Group 1 (Plus not_newline))).

(** [(?:Rating|Score|Overall):\s*(\d+(?:\.\d+)?)] under [re.IGNORECASE] *)
Definition rating_pattern : regex :=
  Seq (label (lit "Rating") (lit "Score") (lit "Overall"))
  (Seq (Star isspace)
       (Group 1 (Seq (Plus is_digit)
                     (Alt (Seq (Lit (lit ".")) (Plus is_digit)) Eps)))).

(** [[item.strip() for item in re.findall(item_pattern, text)
     if item.strip()]] *)
Definition items (text : str) : list str :=
  map strip
      (filter (fun item => nonempty (strip item))
              (map (fun m => group_of m 1) (finditer item_pattern text))).

(** The list under one of the two headings; it stays empty when the
    heading is not found. *)
Definition listed (heading : regex) (feedback_text : str) : list str :=
  match search heading feedback_text with
  | Some m => items (group_of m 1)
  | None => []
  end.

Section Parse.

(** The JSON values, with [json.loads], which raises [JSONDecodeError] on
    a text that is not JSON ([None]); the floats, with [float], which
    raises [ValueError] on a text that is no number ([None]). *)
Variable value : Type.
Variable json_loads : str -> option value.
Variable float : Type.
Variable float_of : str -> option float.

(** The dictionary built by hand; [rating] is [None] when the key is not
    set. *)
Record result_dict := {
  issues : list str;
  suggestions : list str;
  rating : option float
}.

Inductive feedback : Type :=
| Loaded (parsed : value)     (** what [json.loads] returned *)
| Parsed (r : result_dict).

Definition parse_feedback (feedback_text : str) : feedback :=
  match json_loads feedback_text with
  | Some parsed => Loaded parsed
  | None =>
      Parsed
        {| issues := listed issues_pattern feedback_text;
           suggestions := listed suggestions_pattern feedback_text;
           rating :=
             match search rating_pattern feedback_text with
             | Some m => float_of (group_of m 1)
             | None => None
             end |}
  end.

End Parse.

Arguments issues {float}.
Arguments suggestions {float}.
Arguments rating {float}.
Arguments Loaded {value float}.
Arguments Parsed {value float}.

(** The mark of a list item: digits and a full stop, a star or a hyphen. *)
Definition list_marker (mark : str) : Prop :=
  (exists c l, mark = (c :: l) ++ lit "." /\
               Forall (fun d => is_digit d = true) (c :: l)) \/
  mark = lit "*" \/ mark = lit "-".

(** [item] is a line of [text], or the end of one, that follows a list
    mark: it is not empty, holds no line feed, has no white space at
    either end, and only white space stands between the mark and it. *)
Definition list_item (text item : str) : Prop :=
  item <> [] /\ strip item = item /\
  Forall (fun c => not_newline c = true) item /\
  exists before mark ws after,
    text = before ++ mark ++ ws ++ item ++ after /\
    list_marker mark /\ Forall (fun c => isspace c = true) ws.

End Feedback.

(** ** core/llm_provider.py *)

Module LLMProvider.
Import PyStr TextProcessing.

(** What the [try] statement catches. *)
Inductive error : Type :=
| BackendError (msg : str)
    (** whatever a client library raises *)
| UnknownProvider (name : str)
    (** [ValueError(f"Unknown provider: {current_provider}")] *).

(** What [generate_text] raises. *)
Inductive exn : Type :=
| NegativeSleep
    (** the [ValueError] of [time.sleep] on a negative length *)
| SleepOverflow
    (** the [OverflowError] of [time.sleep] on a length that its count of
        nanoseconds cannot hold *)
| AllProvidersFailed (last_error : option error)
    (** [Exception(f"All providers failed ... Last error: {last_error}")] *).

(** What a call of [generate_text] does to the outside world, in order. *)
Inductive event : Type :=
| Attempt (provider : str) (reply : result error str)
| Sleep (delay : Q).

(** The entries of [config["llm_settings"]] that [generate_text] reads;
    [None] is an absent key. *)
Record config := {
  default_provider : option str;
  initial_delay : option Q;
  max_retries : option Z;
  max_delay : option Q;
  provider_max_tokens : str -> option Z;
  provider_default_temperature : str -> option Q
}.

Definition get {A} (o : option A) (default : A) : A :=
  match o with Some a => a | None => default end.

(** [x or y] on an optional integer and on an optional float: [None] and
    zero are both falsy. *)
Definition or_int (x : option Z) (y : Z) : Z :=
  match x with
  | Some v => if v =? 0 then y else v
  | None => y
  end.

Definition or_float (x : option Q) (y : Q) : Q :=
  match x with
  | Some v => if Qeq_bool v 0 then y else v
  | None => y
  end.

Definition Qltb (a b : Q) : bool := negb (Qle_bool b a).

(** [min(a, b)] on floats *)
Definition min_float (a b : Q) : Q := if Qltb b a then b else a.

(** The checks of [time.sleep(secs)] on a float.  The length is counted
    in nanoseconds in a signed integer of 64 bits: [secs * 1e9], a float,
    has to lie between [-2^63] and [2^63], or the call raises
    [OverflowError]; [2^63] itself wraps around to a negative count, and a
    negative count raises [ValueError].  [None]: the length is accepted,
    and the call sleeps. *)
Definition time_sleep (secs : Q) : option exn :=
  let d := double (secs * 10 ^ 9) in
  if Qltb d (- (2 ^ 63)) || Qltb (2 ^ 63) d then Some SleepOverflow
  else if Qltb secs 0 || Qeq_bool d (2 ^ 63) then Some NegativeSleep
  else None.

(** A float of the interval from 0 to 1, 1 excluded: what
    [random.random()] returns. *)
Record fraction := {
  fraction_value : Q;
  fraction_range :
    Qle_bool 0 fraction_value && Qltb fraction_value 1 = true
}.

(** [self.providers] after [_setup_providers]: both keys are always set,
    [openai] first; the value kept here is the ["initialized"] flag. *)
Definition _setup_providers (openai_ready gemini_ready : bool)
    : list (str * bool) :=
  dict_set (dict_set [] (lit "openai") openai_ready)
           (lit "gemini") gemini_ready.

Section Gateway.
(** The two backends, [_generate_with_openai] and [_generate_with_gemini]:
    their reply to [(prompt, max_tokens, temperature)] may depend on all
    that happened before. *)
Variable generate_with_openai generate_with_gemini :
  list event -> str -> Z -> Q -> result error str.

(** [random.random()], which may depend on all that happened before as
    well. *)
Variable random : list event -> fraction.

Variable cfg : config.
Variable providers : list (str * bool).

(** [random.uniform(a, b)], which is [a + (b - a) * self.random()]. *)
Definition uniform (history : list event) (a b : Q) : Q :=
  a + (b - a) * fraction_value (random history).

(** [self.providers.get(p, {}).get("initialized", False)] *)
Definition initialized (p : str) : bool := dict_get providers p false.

(** The body of the [try] statement. *)
Definition call (history : list event) (current_provider prompt : str)
    (max_tokens : Z) (temperature : Q) : result error str :=
  if str_eqb current_provider (lit "openai") then
    generate_with_openai history prompt max_tokens temperature
  else if str_eqb current_provider (lit "gemini") then
    generate_with_gemini history prompt max_tokens temperature
  else Raise (UnknownProvider current_provider).

(** The fallback chain: the requested provider, then every other
    initialized one in the order of the dictionary. *)
Definition providers_to_try (provider : str) : list str :=
  fold_left
    (fun acc p =>
       if negb (existsb (str_eqb p) acc) && initialized p
       then acc ++ [p] else acc)
    (map fst providers)
    [provider].

(** The providers that follow [provider] in the chain. *)
Definition other_ready (provider p : str) : bool :=
  negb (str_eqb p provider) && initialized p.

(** How the [while retries < max_retries] loop is left. *)
Inductive loop_exit : Type :=
| Return (text : str)
| Propagate (e : exn)
| Exhausted (last_error : option error).

(** The [while] loop.  The event [Sleep delay] records the delay before
    jitter. *)
Fixpoint retry_loop (fuel : nat) (current_provider prompt : str)
    (current_max_tokens : Z) (current_temperature : Q)
    (retries : Z) (delay : Q) (last_error : option error)
    (history : list event) : option (loop_exit * list event) :=
  if retries <? get (max_retries cfg) 5 then
    match fuel with
    | O => None
    | S fuel' =>
        let reply :=
          call history current_provider prompt
               current_max_tokens current_temperature in
        let history := history ++ [Attempt current_provider reply] in
        match reply with
        | Ok text => Some (Return text, history)
        | Raise e =>
            let retries := retries + 1 in
            let last_error := Some e in
            if retries =? get (max_retries cfg) 5 then
              Some (Exhausted last_error, history)
            else
              let jitter := uniform history 0 ((1 # 10) * delay) in
              match time_sleep (delay + jitter) with
              | Some e => Some (Propagate e, history)
              | None =>
                  retry_loop fuel' current_provider prompt
                    current_max_tokens current_temperature retries
                    (min_float (delay * 2)%Q (get (max_delay cfg) 60%Q))
                    last_error (history ++ [Sleep delay])
              end
        end
    end
  else Some (Exhausted last_error, history).

(** The [for current_provider in providers_to_try] loop and the final
    [raise]. *)
Fixpoint try_providers (fuel : nat) (chain : list str) (prompt : str)
    (max_tokens : option Z) (temperature : option Q)
    (last_error : option error) (history : list event)
    : option (result exn str * list event) :=
  match chain with
  | [] => Some (Raise (AllProvidersFailed last_error), history)
  | current_provider :: rest =>
      if negb (initialized current_provider) then
        try_providers fuel rest prompt max_tokens temperature
          last_error history
      else
        let current_max_tokens :=
          or_int max_tokens
                 (get (provider_max_tokens cfg current_provider) 4000) in
        let current_temperature :=
          or_float temperature
            (get (provider_default_temperature cfg current_provider)
                 (7 # 10)) in
        match retry_loop fuel current_provider prompt current_max_tokens
                current_temperature 0 (get (initial_delay cfg) 1%Q)
                last_error history with
        | None => None
        | Some (Return text, history) => Some (Ok text, history)
        | Some (Propagate e, history) => Some (Raise e, history)
        | Some (Exhausted last_error, history) =>
            try_providers fuel rest prompt max_tokens temperature
              last_error history
        end
  end.

(** [provider] as resolved by the first statement of [generate_text]. *)
Definition resolve (provider : option str) : str :=
  match provider with
  | None => get (default_provider cfg) (lit "openai")
  | Some p =>
      if str_eqb p (lit "default")
      then get (default_provider cfg) (lit "openai")
      else p
  end.

(** [fuel] bounds the iterations of each retry loop; [None] means that a
    loop was cut short by it.  The result comes with the history extended
    by what the call did. *)
Definition generate_text (fuel : nat) (prompt : str) (provider : option str)
    (max_tokens : option Z) (temperature : option Q)
    (history : list event) : option (result exn str * list event) :=
  let provider := resolve provider in
  try_providers fuel (providers_to_try provider) prompt
    max_tokens temperature None history.

End Gateway.

(** The providers attempted in a history, in order. *)
Fixpoint attempts (trace : list event) : list str :=
  match trace with
  | [] => []
  | Attempt p _ :: rest => p :: attempts rest
  | Sleep _ :: rest => attempts rest
  end.

(** The error of the last failed attempt of a history. *)
Fixpoint last_failure (trace : list event) (acc : option error)
    : option error :=
  match trace with
  | [] => acc
  | Attempt _ (Raise e) :: rest => last_failure rest (Some e)
  | _ :: rest => last_failure rest acc
  end.

(** A configuration with two attempts for each provider. *)
Definition two_attempts : config :=
  {| default_provider := None;
     initial_delay := None;
     max_retries := Some 2;
     max_delay := None;
     provider_max_tokens := fun _ => None;
     provider_default_temperature := fun _ => None |}.

(** A backend that is always down. *)
Definition always_down : list event -> str -> Z -> Q -> result error str :=
  fun _ _ _ _ => Raise (BackendError (lit "503")).

(** A backend that always answers. *)
Definition always_up : list event -> str -> Z -> Q -> result error str :=
  fun _ prompt _ _ => Ok (lit "echo: " ++ prompt).

(** A random source that always returns 0, and one that always returns
    a half. *)
Definition no_jitter : list event -> fraction :=
  fun _ => {| fraction_value := 0; fraction_range := eq_refl |}.

Definition half_jitter : list event -> fraction :=
  fun _ => {| fraction_value := 1 # 2; fraction_range := eq_refl |}.

(** A delay that [time.sleep] takes with any jitter on top: not negative,
    and 4e9 seconds at most. *)
Definition sleepable (delay : Q) : Prop :=
  (0 <= delay)%Q /\ (delay <= 4 * 10 ^ 9)%Q.

(** An event other than a successful attempt. *)
Definition failure (e : event) : Prop :=
  match e with
  | Attempt _ (Ok _) => False
  | _ => True
  end.

(** The lengths of the sleeps of a history, in order (before jitter). *)
Fixpoint sleeps (trace : list event) : list Q :=
  match trace with
  | [] => []
  | Sleep d :: rest => d :: sleeps rest
  | Attempt _ _ :: rest => sleeps rest
  end.

(** The first [n] delays of the backoff that starts at [delay]:
    [delay = min(delay * 2, max_delay)] after every sleep. *)
Fixpoint backoff (cap delay : Q) (n : nat) : list Q :=
  match n with
  | O => []
  | S n' => delay :: backoff cap (min_float (delay * 2)%Q cap) n'
  end.

(** A configuration without a retry budget, and one with a negative
    initial delay. *)
Definition no_attempts : config :=
  {| default_provider := None;
     initial_delay := None;
     max_retries := Some 0;
     max_delay := None;
     provider_max_tokens := fun _ => None;
     provider_default_temperature := fun _ => None |}.

(** A configuration with an initial delay of 1e10 seconds. *)
Definition endless_delay : config :=
  {| default_provider := None;
     initial_delay := Some (10 ^ 10)%Q;
     max_retries := None;
     max_delay := None;
     provider_max_tokens := fun _ => None;
     provider_default_temperature := fun _ => None |}.

Definition negative_delay : config :=
  {| default_provider := None;
     initial_delay := Some (-1)%Q;
     max_retries := None;
     max_delay := None;
     provider_max_tokens := fun _ => None;
     provider_default_temperature := fun _ => None |}.

End LLMProvider.

(** ** core/agent.py and agents/writer.py *)

Module Writer.
Import PyStr.

Inductive exn : Type :=
| ProviderError (e : LLMProvider.exn)
    (** raised by [llm_provider.generate_text] *)
| ZeroDivisionError.

(** What [Agent.__init__] reads from the configuration. *)
Record agent := {
  settings_temperature : option Q;
  settings_provider : option str;
  save_prompts : bool
}.

(** [chapter_info]; [None] is an absent key. *)
Record chapter_info := {
  chapter_num : option Z;
  title : option str;
  summary : option str;
  word_count : option Z
}.

Section Agent.
(** The provider gateway the agent was built with: [generate_text]
    takes the prompt, the provider, [max_tokens] and the temperature,
    and acts on the outside world. *)
Variable World : Type.
Variable generate_text :
  str -> option str -> option Z -> option Q ->
  World -> result LLMProvider.exn str * World.

Variable self : agent.

(** The agent's [prompt_log] (without the time stamps), the outside world,
    and, for counting, the calls made to the gateway with their replies. *)
Record state := {
  world : World;
  prompt_log : list str;
  gateway_calls : list (str * result LLMProvider.exn str)
}.

(** [Agent.generate] *)
Definition generate (prompt : str) (max_tokens : option Z)
    (temperature : option Q) (provider : option str) (st : state)
    : result exn str * state :=
  let temperature :=
    match temperature with
    | None => settings_temperature self
    | Some _ => temperature
    end in
  let provider :=
    match provider with
    | None => Some (LLMProvider.get (settings_provider self) (lit "default"))
    | Some _ => provider
    end in
  let prompt_log :=
    if save_prompts self then prompt_log st ++ [prompt] else prompt_log st in
  let (reply, world) :=
    generate_text prompt provider max_tokens temperature (world st) in
  (match reply with
   | Ok text => Ok text
   | Raise e => Raise (ProviderError e)
   end,
   {| world := world;
      prompt_log := prompt_log;
      gateway_calls := gateway_calls st ++ [(prompt, reply)] |}).

Definition indent8 : str := lit "        ".
Definition indent12 : str := lit "            ".

(** The continuation prompt of [_write_long_chapter]. *)
Definition continuation_prompt (words_per_chunk : Z) (chunks : list str)
    : str :=
  join nl
    [ [];
      indent12 ++ lit "Continue the following chapter, adding approximately "
        ++ str_of_Z words_per_chunk ++ lit " more words.";
      indent12 ++ lit "Maintain the same style, tone, and character voices.";
      indent12 ++ lit "Pick up exactly where the previous section left off without any recapping or transition phrases.";
      indent12;
      indent12 ++ lit "Previous section:";
      indent12 ++ slice (last chunks []) (Some (-500)) None;
      indent12;
      indent12 ++ lit "Continue directly from this point:";
      indent12 ].

(** The [for i in range(2, max_chunks + 1)] loop. *)
Fixpoint more_chunks (indices : list Z) (target_word_count : Z)
    (chunks : list str) (total_words words_per_chunk : Z) (st : state)
    : result exn (list str) * state :=
  match indices with
  | [] => (Ok chunks, st)
  | _ :: indices' =>
      if total_words >=? target_word_count then (Ok chunks, st)
      else
        let remaining_words := target_word_count - total_words in
        let words_per_chunk :=
          if remaining_words <? 1000 then remaining_words
          else words_per_chunk in
        match generate (continuation_prompt words_per_chunk chunks)
                None (Some (7 # 10)) None st with
        | (Raise e, st) => (Raise e, st)
        | (Ok next_chunk, st) =>
            let chunk_words := len (split next_chunk) in
            more_chunks indices' target_word_count (chunks ++ [next_chunk])
              (total_words + chunk_words) words_per_chunk st
        end
  end.

Definition _write_long_chapter (initial_prompt : str)
    (target_word_count max_chunks : Z) (st : state)
    : result exn str * state :=
  if max_chunks =? 0 then (Raise ZeroDivisionError, st)
  else
    let words_per_chunk := Z.min 2500 (target_word_count / max_chunks) in
    match generate initial_prompt None (Some (7 # 10)) None st with
    | (Raise e, st) => (Raise e, st)
    | (Ok first_chunk, st) =>
        let chunk_words := len (split first_chunk) in
        match more_chunks (range_from 2 (max_chunks + 1)) target_word_count
                [first_chunk] chunk_words words_per_chunk st with
        | (Raise e, st) => (Raise e, st)
        | (Ok chunks, st) => (Ok (join (nl ++ nl) chunks), st)
        end
    end.

(** The context built from the last two of the previous chapters. *)
Definition previous_context (chapter_num : Z) (previous_chapters : list str)
    : str :=
  match previous_chapters with
  | [] => []
  | _ =>
      let recent := slice previous_chapters (Some (-2)) None in
      fold_left
        (fun context '(i, prev_chapter) =>
           let prev_idx := chapter_num - len recent + i in
           let prev_words := split prev_chapter in
           let start_context :=
             if len prev_words >? 200
             then join (lit " ") (slice prev_words None (Some 200))
             else prev_chapter in
           let end_context :=
             if len prev_words >? 400
             then join (lit " ") (slice prev_words (Some (-200)) None)
             else [] in
           let context :=
             context ++ lit "Chapter " ++ str_of_Z prev_idx
               ++ lit " beginning: " ++ start_context ++ nl ++ nl in
           match end_context with
           | [] => context
           | _ => context ++ lit "Chapter " ++ str_of_Z prev_idx
                    ++ lit " ending: " ++ end_context ++ nl ++ nl
           end)
        (combine (range (len recent)) recent)
        (nl ++ nl ++ lit "Context from previous chapters (for continuity):"
            ++ nl)
  end.

Definition chapter_prompt (info : chapter_info) (previous_chapters : list str)
    (character_profiles writing_style : str) : str :=
  let chapter_num := LLMProvider.get (chapter_num info) 1 in
  let chapter_title :=
    LLMProvider.get (title info) (lit "Chapter " ++ str_of_Z chapter_num) in
  let chapter_summary := LLMProvider.get (summary info) [] in
  let target_word_count := LLMProvider.get (word_count info) 3000 in
  join nl
    [ [];
      indent8 ++ lit "Write Chapter " ++ str_of_Z chapter_num ++ lit ": "
        ++ dquote ++ chapter_title ++ dquote ++ lit " for a story in the "
        ++ writing_style ++ lit " style.";
      indent8;
      indent8 ++ lit "Chapter Summary:";
      indent8 ++ chapter_summary;
      indent8;
      indent8 ++ lit "Character Information (reference for consistency):";
      indent8 ++ slice character_profiles None (Some 2000) ++ lit "...";
      indent8 ++ previous_context chapter_num previous_chapters;
      indent8;
      indent8 ++ lit "Guidelines:";
      indent8 ++ lit "- Target word count: Approximately "
        ++ str_of_Z target_word_count ++ lit " words";
      indent8 ++ lit "- Writing style: " ++ writing_style;
      indent8 ++ lit "- Include vivid description, engaging dialogue, and meaningful character development";
      indent8 ++ lit "- Focus on showing rather than telling";
      indent8 ++ lit "- Maintain consistent character voices based on their profiles";
      indent8 ++ lit "- Advance the plot as outlined in the chapter summary";
      indent8 ++ lit "- End the chapter in a way that encourages the reader to continue";
      indent8;
      indent8 ++ lit "Begin the chapter directly with the narrative, without including the chapter number or title.";
      indent8 ].

Definition write_chapter (info : chapter_info) (previous_chapters : list str)
    (character_profiles writing_style : str) (st : state)
    : result exn str * state :=
  let target_word_count := LLMProvider.get (word_count info) 3000 in
  let chapter_prompt :=
    chapter_prompt info previous_chapters character_profiles writing_style in
  if target_word_count >? 3000 then
    _write_long_chapter chapter_prompt target_word_count 3 st
  else
    generate chapter_prompt None (Some (7 # 10)) None st.

End Agent.

Arguments world {World} _.
Arguments prompt_log {World} _.
Arguments gateway_calls {World} _.

(** The words of the chunks that a list of gateway calls returned. *)
Fixpoint words_returned (calls : list (str * result LLMProvider.exn str))
    : Z :=
  match calls with
  | [] => 0
  | (_, Ok text) :: rest => len (split text) + words_returned rest
  | (_, Raise _) :: rest => words_returned rest
  end.

Definition returned (call : str * result LLMProvider.exn str) : Prop :=
  exists text, snd call = Ok text.

(** Every call but the first was made after chunks that all came back and
    whose words, counted together, were still short of the target. *)
Definition stops_at_target (target_word_count : Z)
    (calls : list (str * result LLMProvider.exn str)) : Prop :=
  forall pre call post,
    calls = pre ++ call :: post -> pre <> [] ->
    Forall returned pre /\ words_returned pre < target_word_count.

(** What [Agent.generate] makes of the reply of the gateway. *)
Definition surfaced (reply : result LLMProvider.exn str) : result exn str :=
  match reply with
  | Ok text => Ok text
  | Raise e => Raise (ProviderError e)
  end.

(** A gateway that answers every prompt with the same 2000 words, and
    counts its calls. *)
Definition two_thousand_words : str := concat (repeat (lit "word ") 2000).

(** The gateway itself. *)
Definition canned (prompt : str) (provider : option str)
    (max_tokens : option Z) (temperature : option Q) (calls : nat)
    : result LLMProvider.exn str * nat :=
  (Ok two_thousand_words, S calls).

(** An agent without settings of its own, before its first call. *)
Definition plain_agent : agent :=
  {| settings_temperature := None;
     settings_provider := None;
     save_prompts := true |}.

(** The state of that agent before its first call. *)
Definition fresh : state nat :=
  {| world := 0%nat; prompt_log := []; gateway_calls := [] |}.

(** A chapter above the threshold of 3000 words, and one below it. *)
Definition long_chapter : chapter_info :=
  {| chapter_num := Some 1; title := Some (lit "Arrival");
     summary := Some (lit "They arrive."); word_count := Some 3500 |}.


Definition short_chapter : chapter_info :=
  {| chapter_num := Some 2; title := None;
     summary := Some (lit "They rest."); word_count := Some 2500 |}.

(** The texts that a list of gateway calls returned, in order. *)
Fixpoint texts_returned (calls : list (str * result LLMProvider.exn str))
    : list str :=
  match calls with
  | [] => []
  | (_, Ok text) :: rest => text :: texts_returned rest
  | (_, Raise _) :: rest => texts_returned rest
  end.

(** What a run of calls leaves of a chunked generation: the chunks, or the
    exception of the last call, the calls before it having returned. *)
Definition outcome (new : list (str * result LLMProvider.exn str))
    (r : result Writer.exn (list str)) (chunks : list str) : Prop :=
  match r with
  | Ok chunks' => Forall returned new /\ chunks' = chunks ++ texts_returned new
  | Raise e =>
      exists before prompt ex,
        new = before ++ [(prompt, Raise ex)] /\ Forall returned before /\
        e = ProviderError ex
  end.

(** A gateway that answers once and is down from then on. *)
Definition one_answer (prompt : str) (provider : option str)
    (max_tokens : option Z) (temperature : option Q) (calls : nat)
    : result LLMProvider.exn str * nat :=
  (match calls with
   | O => Ok (lit "Once upon a time")
   | S _ => Raise (LLMProvider.AllProvidersFailed None)
   end, S calls).

End Writer.

(** ** core/agent.py: the working memory *)

Module Memory.
Import PyStr.
Section Store.
Context {V : Type}.
(** [self.memory], a dictionary that [__init__] leaves empty. *)
Definition memory := list (str * V).
Definition __init__ : memory := [].
Definition store_memory (key : str) (value : V) (self : memory) : memory :=
  dict_set self key value.
Definition retrieve_memory (key : str) (default : V) (self : memory) : V :=
  dict_get self key default.
End Store.
End Memory.

(** ** core/agent.py: JSON responses *)

Module JsonResponse.
Import PyStr Re.

(** Three backquotes, the fence of a code block. *)
Definition fence : str := lit "```".

(** The pattern of [parse_json_response] under [re.DOTALL]: the fence
    followed by [json\n], the group [(.*?)], and [\n] with the fence. *)
Definition fence_pattern : regex :=
  Seq (Lit (fence ++ lit "json" ++ nl))
  (Seq (Group 1 (Lazy any)) (Lit (nl ++ fence))).

Section Json.
(** The values of JSON, [json.loads] (with [None] when it raises), and
    the empty dictionary. *)
Variable value : Type.
Variable json_loads : str -> option value.
Variable empty_dict : value.

(** [None] is an omitted [default]. *)
Definition parse_json_response (response : str) (default : option value)
    : value :=
  let default :=
    match default with
    | None => empty_dict
    | Some d => d
    end in
  let json_matches :=
    map (fun m => group_of m 1) (finditer fence_pattern response) in
  let json_str :=
    match json_matches with
    | first :: _ => first
    | [] => response
    end in
  match json_loads json_str with
  | Some parsed => parsed
  | None => default
  end.
End Json.

(** A text without a backquote. *)
Definition unfenced (s : str) : Prop := Forall (fun c => c <> "`"%char) s.

End JsonResponse.

(** ** agents/writer.py: chapter titles *)

Module Titles.
Import PyStr Writer.

Inductive exn : Type :=
| Raised (e : Writer.exn)     (** raised by [Agent.generate] *)
| IndexError.

Definition title_prompt (chapter_content : str) : str :=
  join nl
    [ [];
      indent8 ++ lit "Create an engaging and appropriate title for the following book chapter.";
      indent8 ++ lit "The title should:";
      indent8 ++ lit "- Capture the essence of the chapter's content";
      indent8 ++ lit "- Be concise (1-6 words)";
      indent8 ++ lit "- Intrigue the reader without giving away major twists";
      indent8 ++ lit "- Maintain a consistent style with a literary work";
      indent8;
      indent8 ++ lit "Chapter Content (excerpt):";
      indent8 ++ slice chapter_content None (Some 2000) ++ lit "...";
      indent8;
      indent8 ++ lit "Respond with ONLY the title, nothing else.";
      indent8 ].

(** The two quotes of [title.strip('Q'')]. *)
Definition quotes : str := dquote ++ lit "'".

(** The statements that follow the call of [generate]. *)
Definition clean_up (title : str) : result exn str :=
  let title := strip (strip_chars quotes (strip title)) in
  if occursb (lit ":") title && negb (prefixb (lit "Chapter") title) then
    match split_once ":" title with
    | _ :: after :: _ => Ok (strip after)
    | _ => Raise IndexError
    end
  else Ok title.

Section Agent.
Variable World : Type.
Variable generate_text :
  str -> option str -> option Z -> option Q ->
  World -> result LLMProvider.exn str * World.
Variable self : agent.

Definition generate_chapter_title (chapter_content : str) (st : state World)
    : result exn str * state World :=
  match generate World generate_text self (title_prompt chapter_content)
          (Some 20) (Some (7 # 10)) None st with
  | (Raise e, st) => (Raise (Raised e), st)
  | (Ok title, st) => (clean_up title, st)
  end.
End Agent.
End Titles.

(** ** core/orchestrator.py *)

Module Orchestrator.
Import PyStr Re.

(** The class [[\\/*?:Q<>|]] of [_sanitize_filename], [Q] being the double
    quote. *)
Definition invalid (c : ascii) : bool :=
  existsb (Ascii.eqb c) (lit "\/*?:" ++ dquote ++ lit "<>|").

Definition _sanitize_filename (filename : str) : str :=
  let sanitized := sub (Chr invalid) (lit "_") filename in
  slice sanitized None (Some 100).

(** The pieces of [acc ++ s] between the characters of [s] that satisfy
    [p]. *)
Fixpoint chop (p : ascii -> bool) (s acc : str) : list str :=
  match s with
  | [] => [acc]
  | c :: t => if p c then acc :: chop p t [] else chop p t (acc ++ [c])
  end.

(** [_] in the place of every invalid character. *)
Definition underscored (filename : str) : str :=
  map (fun c => if invalid c then "_"%char else c) filename.

End Orchestrator.

(* ================================================================== *)
(** * Proofs *)

Module TextProcessingFacts.
Import PyStr TextProcessing.

Example chunk_text_ex1 :
  chunk_text 10 (lit "abcdefghij") 5 2
  = Some [lit "abcde"; lit "defgh"; lit "ghij"; lit "ij"].
Proof. reflexivity. Qed.

Example chunk_text_ex2 :
  chunk_text 10 (lit "ab. cd. efghij") 6 1
  = Some [lit "ab. cd"; lit "d. efg"; lit "ghij"; lit "j"].
Proof. vm_compute. reflexivity. Qed.



Example split_ex :
  split (lit "  the dark
 forest ") = [lit "the"; lit "dark"; lit "forest"].
Proof. reflexivity. Qed.

Example find_repeated_phrases_ex :
  find_repeated_phrases
    (lit "a b a b a b The Dark forest the dark Forest the dark forest x") 2 2
  = [(lit "a b", 3); (lit "the dark", 3); (lit "dark forest", 3);
     (lit "b a", 2); (lit "forest the", 2)].
Proof. vm_compute. reflexivity. Qed.

Example calculate_reading_statistics_ex :
  calculate_reading_statistics (lit "Hello there. General Kenobi!")
  = Ok {| word_count := 4; sentence_count := 2;
          avg_words_per_sentence := 2;
          avg_syllables_per_word := 9 # 4;
          flesch_kincaid := double (1174 # 100) |}.
Proof. vm_compute. reflexivity. Qed.

(** Forty words of forty-three syllables: the quotient 43/40 is the float
    just below 1.075, which [round] takes down to 1.07. *)
Example calculate_reading_statistics_float_ex :
  option_map avg_syllables_per_word
    (match calculate_reading_statistics
             (concat (repeat (lit "a ") 37) ++ lit "idea idea idea.") with
     | Ok stats => Some stats
     | Raise _ => None
     end)
  = Some (double (107 # 100)).
Proof. vm_compute. reflexivity. Qed.

(** *** Slices and [rfind] *)

Lemma adjust_id n i : 0 <= i <= n -> adjust n i = i.
Proof. unfold adjust. intros H. destruct (Z.ltb_spec i 0); lia. Qed.

Lemma slice_valid {A} (s : list A) a b :
  0 <= a -> a <= b -> b <= len s ->
  slice s (Some a) (Some b)
  = firstn (Z.to_nat (b - a)) (skipn (Z.to_nat a) s).
Proof.
  intros Ha Hab Hb. unfold slice.
  rewrite !adjust_id by lia. reflexivity.
Qed.

Lemma slice_from {A} (s : list A) o :
  0 <= o -> slice s (Some o) None = skipn (Z.to_nat o) s.
Proof.
  intros Ho. unfold slice, adjust, len.
  destruct (Z.ltb_spec o 0); [lia|].
  destruct (Z.le_gt_cases o (Z.of_nat (length s))).
  - rewrite Z.min_l by lia. apply firstn_all2.
    rewrite length_skipn. lia.
  - rewrite Z.min_r by lia. rewrite Z.sub_diag. simpl.
    symmetry. apply skipn_all2. lia.
Qed.

Lemma firstn_split {A} (l : list A) a b :
  (a <= b)%nat -> firstn a l ++ firstn (b - a) (skipn a l) = firstn b l.
Proof.
  revert l b. induction a as [|a IH]; intros l b H.
  - simpl. now rewrite Nat.sub_0_r.
  - destruct l as [|x l].
    + now rewrite !firstn_nil.
    + destruct b as [|b]; [lia|]. simpl. f_equal. apply IH. lia.
Qed.

Lemma skipn_firstn_sub {A} (l : list A) o k :
  skipn o (firstn k l) = firstn (k - o) (skipn o l).
Proof.
  revert l k. induction o as [|o IH]; intros l k.
  - simpl. now rewrite Nat.sub_0_r.
  - destruct k as [|k]; [reflexivity|].
    destruct l as [|x l]; simpl; [now rewrite firstn_nil | apply IH].
Qed.

Lemma rfind_scan_range c s : forall i a b acc,
  let r := rfind_scan c s i a b acc in
  r = acc \/ (a <= r < b /\ i <= r).
Proof.
  induction s as [|x t IH]; intros i a b acc; simpl.
  - now left.
  - specialize (IH (i + 1) a b
      (if (a <=? i) && (i <? b) && Ascii.eqb x c then i else acc)).
    simpl in IH. destruct IH as [IH | IH].
    + rewrite IH.
      destruct ((a <=? i) && (i <? b) && Ascii.eqb x c) eqn:E; [|now left].
      right. apply andb_prop in E as [E _]. apply andb_prop in E as [E1 E2].
      apply Z.leb_le in E1. apply Z.ltb_lt in E2. lia.
    + right. lia.
Qed.

Lemma rfind_range c s a b :
  let r := rfind c s a b in
  r = -1 \/ adjust (len s) a <= r < adjust (len s) b.
Proof.
  unfold rfind.
  destruct (rfind_scan_range c s 0 (adjust (len s) a) (adjust (len s) b) (-1))
    as [H | [H _]]; [now left | now right].
Qed.

Lemma rfind_scan_empty c s : forall i a b acc,
  b <= a -> rfind_scan c s i a b acc = acc.
Proof.
  induction s as [|x t IH]; intros i a b acc H; simpl; [reflexivity|].
  rewrite IH by assumption.
  destruct (Z.leb_spec a i); destruct (Z.ltb_spec i b); simpl; try reflexivity.
  lia.
Qed.

(** *** The loop of [chunk_text] *)

Lemma chunk_end_gt text max_chunk_size start :
  1 <= max_chunk_size -> start < len text ->
  start < chunk_end text max_chunk_size start.
Proof.
  intros Hm Hs. unfold chunk_end.
  assert (0 <= max_chunk_size / 2) by (apply Z.div_pos; lia).
  destruct (Z.ltb_spec (Z.min (start + max_chunk_size) (len text)) (len text)).
  - match goal with |- context [?x >? ?y] => destruct (Z.gtb_spec x y) end; lia.
  - lia.
Qed.

Lemma next_start_gt overlap start end_ :
  start < end_ -> start < next_start overlap start end_.
Proof.
  intros H. unfold next_start.
  destruct (Z.gtb_spec (end_ - overlap) start); lia.
Qed.

Lemma chunk_loop_terminates text max_chunk_size overlap :
  1 <= max_chunk_size ->
  forall fuel start chunks,
    len text - start <= Z.of_nat fuel ->
    exists res, chunk_loop fuel text max_chunk_size overlap start chunks
                = Some res.
Proof.
  intros Hm. induction fuel as [|fuel IH]; intros start chunks Hf; simpl.
  - destruct (Z.ltb_spec start (len text)); [lia|]. now eexists.
  - destruct (Z.ltb_spec start (len text)); [|now eexists].
    apply IH.
    pose proof (chunk_end_gt text max_chunk_size start Hm H) as He.
    pose proof (next_start_gt overlap start _ He). lia.
Qed.

Lemma chunk_loop_mono text max_chunk_size overlap :
  forall fuel start chunks res,
    chunk_loop fuel text max_chunk_size overlap start chunks = Some res ->
    forall fuel', (fuel <= fuel')%nat ->
    chunk_loop fuel' text max_chunk_size overlap start chunks = Some res.
Proof.
  induction fuel as [|fuel IH]; intros start chunks res H fuel' Hle.
  - simpl in H. destruct fuel'; simpl;
      destruct (start <? len text); congruence.
  - destruct fuel' as [|fuel']; [lia|]. simpl in *.
    destruct (start <? len text); [|assumption].
    eapply IH; [eassumption | lia].
Qed.

Lemma chunk_end_zero text : 0 < len text -> chunk_end text 0 0 = 0.
Proof.
  intros H. unfold chunk_end, rfind. change (0 + 0) with 0.
  rewrite Z.min_l by lia.
  destruct (Z.ltb_spec 0 (len text)); [|lia].
  rewrite !rfind_scan_empty by lia. reflexivity.
Qed.

Lemma chunk_loop_zero_diverges text overlap :
  0 < len text -> 0 <= overlap ->
  forall fuel chunks, chunk_loop fuel text 0 overlap 0 chunks = None.
Proof.
  intros Ht Ho. induction fuel as [|fuel IH]; intros chunks; simpl;
    destruct (Z.ltb_spec 0 (len text)); try lia; [reflexivity|].
  rewrite chunk_end_zero by assumption.
  replace (next_start overlap 0 0) with 0; [apply IH|].
  unfold next_start. destruct (Z.gtb_spec (0 - overlap) 0); lia.
Qed.

(** *** Round trip *)

Lemma stitch_snoc overlap chunks c :
  chunks <> [] ->
  stitch overlap (chunks ++ [c])
  = stitch overlap chunks ++ slice c (Some overlap) None.
Proof.
  destruct chunks as [|c0 rest]; [congruence|]. intros _. simpl.
  rewrite map_app, concat_app. simpl.
  now rewrite app_nil_r, app_assoc.
Qed.

Section RoundTrip.
Variable text : str.
Variables max_chunk_size overlap : Z.
Hypothesis overlap_nonneg : 0 <= overlap.
Hypothesis overlap_lt_max : overlap < max_chunk_size.
Hypothesis overlap_le_half : overlap <= max_chunk_size / 2 + 1.

(** Under the three hypotheses every chunk that does not reach the end
    of the text is longer than [overlap]. *)
Lemma chunk_end_bounds start :
  0 <= start < len text ->
  let e := chunk_end text max_chunk_size start in
  start < e <= len text /\ (e < len text -> start < e - overlap).
Proof.
  intros Hs. unfold chunk_end.
  set (e0 := Z.min (start + max_chunk_size) (len text)).
  destruct (Z.ltb_spec e0 (len text)) as [Hlt | Hge]; [|subst e0; lia].
  assert (Ha : adjust (len text) start = start) by (apply adjust_id; lia).
  assert (Hb : adjust (len text) e0 = e0) by (apply adjust_id; subst e0; lia).
  pose proof (rfind_range "."%char text start e0) as H1.
  pose proof (rfind_range "?"%char text start e0) as H2.
  pose proof (rfind_range "!"%char text start e0) as H3.
  simpl in H1, H2, H3. rewrite Ha, Hb in H1, H2, H3.
  match goal with |- context [?x >? ?y] => destruct (Z.gtb_spec x y) end;
    subst e0; lia.
Qed.

Lemma chunk_loop_stitch : forall fuel start chunks covered res,
  0 <= start -> covered <= len text ->
  (chunks = [] -> start = 0) ->
  (chunks <> [] ->
     stitch overlap chunks = firstn (Z.to_nat covered) text /\
     (start = covered - overlap \/ (start = covered /\ covered = len text))) ->
  chunk_loop fuel text max_chunk_size overlap start chunks = Some res ->
  stitch overlap res = text.
Proof.
  induction fuel as [|fuel IH]; intros start chunks covered res Hs Hc H0 H1 Hrun;
    simpl in Hrun; destruct (Z.ltb_spec start (len text)) as [Hlt | Hge];
    try discriminate.
  - (* the loop has ended *)
    injection Hrun as <-. destruct chunks as [|c0 rest].
    + specialize (H0 eq_refl). unfold len in Hge.
      destruct text; [reflexivity | simpl in Hge; lia].
    + destruct H1 as [Hst Hpos]; [discriminate|]. rewrite Hst.
      apply firstn_all2. unfold len in *. lia.
  - (* one more chunk *)
    pose proof (chunk_end_bounds start (conj Hs Hlt)) as [He Hlong].
    set (e := chunk_end text max_chunk_size start) in *.
    apply (IH _ _ e) in Hrun; try assumption; try lia.
    + unfold next_start. destruct (Z.gtb_spec (e - overlap) start); lia.
    + intros Habs. now apply app_eq_nil in Habs as [_ Habs].
    + intros _. split.
      * rewrite slice_valid by lia.
        destruct chunks as [|c0 rest].
        -- specialize (H0 eq_refl). subst start. simpl.
           rewrite app_nil_r, Z.sub_0_r. reflexivity.
        -- destruct H1 as [Hst Hpos]; [discriminate|].
           assert (Hse : start = covered - overlap) by lia.
           rewrite stitch_snoc by discriminate. rewrite Hst.
           rewrite slice_from by assumption.
           rewrite skipn_firstn_sub, skipn_skipn.
           replace (Z.to_nat overlap + Z.to_nat start)%nat
             with (Z.to_nat covered) by lia.
           replace (Z.to_nat (e - start) - Z.to_nat overlap)%nat
             with (Z.to_nat e - Z.to_nat covered)%nat by lia.
           apply firstn_split.
           destruct (Z.eq_dec e (len text)); [lia|].
           assert (start < e - overlap) by (apply Hlong; lia). lia.
      * unfold next_start. destruct (Z.gtb_spec (e - overlap) start).
        -- now left.
        -- right. split; [reflexivity|].
           destruct (Z.eq_dec e (len text)); [assumption|].
           assert (start < e - overlap) by (apply Hlong; lia). lia.
  - injection Hrun as <-. destruct chunks as [|c0 rest].
    + specialize (H0 eq_refl). unfold len in Hge.
      destruct text; [reflexivity | simpl in Hge; lia].
    + destruct H1 as [Hst Hpos]; [discriminate|]. rewrite Hst.
      apply firstn_all2. unfold len in *. lia.
Qed.

Lemma chunk_text_stitch :
  max_chunk_size < len text ->
  exists chunks,
    chunk_text (length text) text max_chunk_size overlap = Some chunks /\
    stitch overlap chunks = text.
Proof.
  intros Hlong. unfold chunk_text.
  destruct (Z.leb_spec (len text) max_chunk_size); [lia|].
  assert (Hm : 1 <= max_chunk_size) by lia.
  destruct (chunk_loop_terminates text max_chunk_size overlap Hm
              (length text) 0 []) as [res Hres]; [unfold len; lia|].
  exists res. split; [assumption|].
  apply (chunk_loop_stitch (length text) 0 [] 0 res).
  - lia.
  - unfold len; lia.
  - reflexivity.
  - congruence.
  - assumption.
Qed.
End RoundTrip.

(** C5 (as amended). A text no longer than [max_chunk_size] comes back as
    the one-element list holding it, whatever [overlap] is.  For a longer
    text, when [0 <= overlap < max_chunk_size] and
    [overlap <= max_chunk_size // 2 + 1] (so that every chunk which does not
    reach the end of the text is longer than [overlap]), [chunk_text]
    returns, and the first chunk followed by every later chunk without its
    first [overlap] characters is the original text. *)
Theorem chunk_text_round_trip (text : str) (max_chunk_size overlap : Z) :
  (len text <= max_chunk_size ->
     forall fuel, chunk_text fuel text max_chunk_size overlap = Some [text]) /\
  (max_chunk_size < len text ->
   0 <= overlap -> overlap < max_chunk_size ->
   overlap <= max_chunk_size / 2 + 1 ->
     exists chunks,
       chunk_text (length text) text max_chunk_size overlap = Some chunks /\
       stitch overlap chunks = text).
Proof.
  split.
  - intros H fuel. unfold chunk_text.
    destruct (Z.leb_spec (len text) max_chunk_size); [reflexivity | lia].
  - intros Hlong H0 H1 H2. now apply chunk_text_stitch.
Qed.

Lemma chunk_text_round_trip_witness :
  (forall fuel, chunk_text fuel (lit "Short.") 10 2 = Some [lit "Short."]) /\
  (exists chunks,
     chunk_text 20 (lit "One. Two! Three? Go.") 10 2 = Some chunks /\
     stitch 2 chunks = lit "One. Two! Three? Go.").
Proof.
  split.
  - apply (proj1 (chunk_text_round_trip (lit "Short.") 10 2)).
    vm_compute. discriminate.
  - apply (proj2 (chunk_text_round_trip (lit "One. Two! Three? Go.") 10 2));
      vm_compute; congruence.
Defined.

(** C5, as stated, fails: with [max_chunk_size = 10] and [overlap = 8] the
    first chunk of this text ends at the sentence boundary after seven
    characters, the overlap step would not advance, the next chunk starts
    at the chunk end, and dropping eight characters from it loses text. *)
Lemma chunk_text_round_trip_counterexample :
  chunk_text 20 (lit "abcdef.hijklmnopqrst") 10 8
  = Some [lit "abcdef."; lit "hijklmnopq"; lit "jklmnopqrs";
          lit "lmnopqrst"; lit "mnopqrst"] /\
  stitch 8 [lit "abcdef."; lit "hijklmnopq"; lit "jklmnopqrs";
            lit "lmnopqrst"; lit "mnopqrst"]
  = lit "abcdef.pqrst" /\
  lit "abcdef.pqrst" <> lit "abcdef.hijklmnopqrst".
Proof. repeat split; vm_compute; congruence. Qed.

(** C10. With [max_chunk_size >= 1] the start index strictly increases at
    every iteration, and [chunk_text] returns within [len(text)]
    iterations (more fuel does not change the result), for every text and
    every overlap.  With [max_chunk_size = 0], a non-empty text and a
    non-negative overlap the loop never ends. *)
Theorem chunk_text_terminates (text : str) (max_chunk_size overlap : Z) :
  (1 <= max_chunk_size ->
     (forall start, start < len text ->
        start < next_start overlap start
                  (chunk_end text max_chunk_size start)) /\
     (exists chunks, forall fuel, (length text <= fuel)%nat ->
        chunk_text fuel text max_chunk_size overlap = Some chunks)) /\
  (max_chunk_size = 0 -> 0 < len text -> 0 <= overlap ->
     forall fuel, chunk_text fuel text max_chunk_size overlap = None).
Proof.
  split.
  - intros Hm. split.
    + intros start Hs. apply next_start_gt. now apply chunk_end_gt.
    + unfold chunk_text. destruct (Z.leb_spec (len text) max_chunk_size).
      * now eexists.
      * destruct (chunk_loop_terminates text max_chunk_size overlap Hm
                    (length text) 0 []) as [res Hres]; [unfold len; lia|].
        exists res. intros fuel Hf. eapply chunk_loop_mono; eassumption.
  - intros -> Ht Ho fuel. unfold chunk_text.
    destruct (Z.leb_spec (len text) 0); [lia|].
    now apply chunk_loop_zero_diverges.
Qed.

Lemma chunk_text_terminates_witness :
  (exists chunks, forall fuel, (4 <= fuel)%nat ->
     chunk_text fuel (lit "a.bc") 1 (-3) = Some chunks) /\
  (forall fuel, chunk_text fuel (lit "a") 0 0 = None).
Proof.
  split.
  - apply (proj1 (chunk_text_terminates (lit "a.bc") 1 (-3))). lia.
  - apply (proj2 (chunk_text_terminates (lit "a") 0 0));
      [reflexivity | reflexivity | lia].
Defined.

(** *** [calculate_reading_statistics] *)

Lemma lstrip_head s :
  lstrip s = [] \/ exists c t, lstrip s = c :: t /\ isspace c = false.
Proof.
  induction s as [|c t IH]; simpl; [now left|].
  destruct (isspace c) eqn:E; [assumption|]. right. now exists c, t.
Qed.

Lemma lstrip_nil s : lstrip s = [] -> forallb isspace s = true.
Proof.
  induction s as [|c t IH]; simpl; [reflexivity|].
  destruct (isspace c); [assumption | discriminate].
Qed.

Lemma strip_nil s : strip s = [] -> forallb isspace s = true.
Proof.
  unfold strip. intros H.
  assert (H1 : lstrip (rev (lstrip s)) = []).
  { destruct (lstrip (rev (lstrip s))); [reflexivity|].
    simpl in H. now apply app_eq_nil in H as [_ H]. }
  apply lstrip_nil in H1.
  destruct (lstrip_head s) as [H2 | (c & t & H2 & Hc)].
  - now apply lstrip_nil.
  - rewrite H2 in H1. simpl in H1. rewrite forallb_app in H1.
    apply andb_prop in H1 as [_ H1]. simpl in H1.
    rewrite Hc in H1. discriminate.
Qed.

Lemma split_sentences_blank s : forall prev_sep,
  Forall (fun piece => forallb isspace piece = true)
         (split_sentences s prev_sep) ->
  forallb (fun c => is_terminator c || isspace c) s = true.
Proof.
  induction s as [|c t IH]; intros prev_sep H; simpl in *; [reflexivity|].
  destruct (is_terminator c) eqn:Et; simpl.
  - destruct prev_sep; [now apply (IH true)|].
    inversion H; subst. now apply (IH true).
  - destruct (split_sentences t false) as [|piece pieces] eqn:Es.
    + inversion H as [|? ? Hc _]; subst. simpl in Hc.
      destruct (isspace c); [|discriminate]. simpl.
      apply (IH false). rewrite Es. constructor.
    + inversion H as [|? ? Hc Hrest]; subst. simpl in Hc.
      apply andb_prop in Hc as [Hc Hp]. rewrite Hc. simpl.
      apply (IH false). rewrite Es. now constructor.
Qed.

Lemma sentences_of_nil text :
  sentences_of text = [] ->
  forallb (fun c => is_terminator c || isspace c) text = true.
Proof.
  unfold sentences_of. intros H.
  apply (split_sentences_blank text false).
  induction (split_sentences text false) as [|piece pieces IH];
    constructor; simpl in H.
  - apply strip_nil. destruct (strip piece); [reflexivity | discriminate].
  - apply IH. destruct (nonempty (strip piece)); [discriminate | assumption].
Qed.

(** No terminator and no whitespace character is, once lower-cased, a word
    character. *)
Lemma separator_not_word c :
  is_terminator c || isspace c = true -> is_word (lower_char c) = false.
Proof.
  destruct c as [b0 b1 b2 b3 b4 b5 b6 b7].
  destruct b0, b1, b2, b3, b4, b5, b6, b7; vm_compute; congruence.
Qed.

Lemma runs_from_none p s :
  forallb (fun c => negb (p c)) s = true -> runs_from p s [] = [].
Proof.
  induction s as [|c t IH]; simpl; [reflexivity|].
  intros H. apply andb_prop in H as [Hc Ht].
  destruct (p c); [discriminate | now apply IH].
Qed.

Lemma no_sentences_no_words text :
  sentences_of text = [] -> words_of text = [].
Proof.
  intros H. apply sentences_of_nil in H.
  unfold words_of, runs, lower. apply runs_from_none.
  rewrite forallb_forall in *. intros c Hc.
  apply in_map_iff in Hc as (c0 & <- & Hc0).
  rewrite separator_not_word; [reflexivity | now apply H].
Qed.

(** C8. A text without sentences, the empty string among them, gets the
    all-zero statistics, and for no text at all does
    [calculate_reading_statistics] raise [ZeroDivisionError]: each division
    is reached with a non-zero divisor only. *)
Theorem reading_statistics_no_sentences (text : str) :
  (sentences_of text = [] ->
     calculate_reading_statistics text = Ok zero_statistics) /\
  calculate_reading_statistics [] = Ok zero_statistics /\
  (exists stats, calculate_reading_statistics text = Ok stats).
Proof.
  split; [|split].
  - intros H. unfold calculate_reading_statistics.
    rewrite (no_sentences_no_words text H), H. reflexivity.
  - reflexivity.
  - unfold calculate_reading_statistics.
    destruct (Z.eqb_spec (len (sentences_of text)) 0) as [E | E];
      [now eexists|].
    unfold true_div. apply Z.eqb_neq in E. rewrite E. simpl.
    destruct (Z.gtb_spec (len (words_of text)) 0) as [G | G]; simpl.
    + destruct (Z.eqb_spec (len (words_of text)) 0); [lia|]. simpl.
      now eexists.
    + now eexists.
Qed.

Lemma reading_statistics_no_sentences_witness :
  calculate_reading_statistics (lit " ..! ?") = Ok zero_statistics.
Proof.
  apply (proj1 (reading_statistics_no_sentences (lit " ..! ?"))).
  reflexivity.
Defined.

(** *** [find_repeated_phrases] *)

Lemma str_eqb_eq s t : str_eqb s t = true <-> s = t.
Proof.
  revert t. induction s as [|c s IH]; intros [|d t]; simpl;
    try (split; congruence).
  rewrite andb_true_iff, Ascii.eqb_eq, IH. split.
  - now intros [-> ->].
  - intros H. now injection H.
Qed.

Lemma str_eqb_refl s : str_eqb s s = true.
Proof. now apply str_eqb_eq. Qed.

Lemma str_eqb_neq s t : s <> t -> str_eqb s t = false.
Proof.
  intros H. destruct (str_eqb s t) eqn:E; [|reflexivity].
  now apply str_eqb_eq in E.
Qed.

Section DictFacts.
Context {V : Type}.
Implicit Types (d : list (str * V)) (k : str) (v : V).

Lemma dict_lookup_set_same d k v : dict_lookup (dict_set d k v) k = Some v.
Proof.
  induction d as [|[k' v'] d IH]; simpl.
  - now rewrite str_eqb_refl.
  - destruct (str_eqb k' k) eqn:E; simpl; rewrite E; [reflexivity | apply IH].
Qed.

Lemma dict_lookup_set_other d k k0 v :
  k0 <> k -> dict_lookup (dict_set d k0 v) k = dict_lookup d k.
Proof.
  intros Hne. induction d as [|[k' v'] d IH]; simpl.
  - now rewrite str_eqb_neq.
  - destruct (str_eqb k' k0) eqn:E; simpl.
    + apply str_eqb_eq in E. subst k'. now rewrite str_eqb_neq.
    + destruct (str_eqb k' k); [reflexivity | apply IH].
Qed.

Lemma dict_get_set_same d k v default :
  dict_get (dict_set d k v) k default = v.
Proof. unfold dict_get. now rewrite dict_lookup_set_same. Qed.

Lemma dict_get_set_other d k k0 v default :
  k0 <> k -> dict_get (dict_set d k0 v) k default = dict_get d k default.
Proof. intros H. unfold dict_get. now rewrite dict_lookup_set_other. Qed.

Lemma dict_lookup_In d k v : dict_lookup d k = Some v -> In (k, v) d.
Proof.
  induction d as [|[k' v'] d IH]; simpl; [discriminate|].
  destruct (str_eqb k' k) eqn:E.
  - apply str_eqb_eq in E. intros [= ->]. left. now subst.
  - intros H. right. now apply IH.
Qed.
End DictFacts.

Lemma tally_lookup keys : forall d k,
  dict_lookup (tally keys d) k
  = if Nat.eqb (count_occ str_eq_dec keys k) 0 then dict_lookup d k
    else Some (dict_get d k 0 + Z.of_nat (count_occ str_eq_dec keys k)).
Proof.
  induction keys as [|k0 keys IH]; intros d k; [reflexivity|].
  change (tally (k0 :: keys) d)
    with (tally keys (dict_set d k0 (dict_get d k0 0 + 1))).
  rewrite IH. simpl. destruct (str_eq_dec k0 k) as [-> | Hne].
  - rewrite dict_get_set_same, dict_lookup_set_same.
    destruct (count_occ str_eq_dec keys k); simpl; f_equal; lia.
  - rewrite dict_get_set_other, dict_lookup_set_other by assumption.
    reflexivity.
Qed.

Lemma count_phrases_tally words min_length :
  count_phrases words min_length
  = tally (map (fun i => join (lit " ")
                           (slice words (Some i) (Some (i + min_length))))
               (range (len words - min_length + 1))) [].
Proof.
  unfold count_phrases, tally.
  generalize (@nil (str * Z)).
  induction (range (len words - min_length + 1)) as [|i l IH]; intros d;
    [reflexivity | simpl; apply IH].
Qed.

(** Sorting *)

Lemma insert_desc_In x y l : In y (insert_desc x l) <-> y = x \/ In y l.
Proof.
  induction l as [|z l IH]; simpl; [intuition congruence|].
  destruct (snd z <=? snd x); simpl; [intuition congruence|].
  rewrite IH. intuition congruence.
Qed.

Lemma sort_desc_In y l : In y (sort_desc l) <-> In y l.
Proof.
  induction l as [|x l IH]; simpl; [tauto|].
  rewrite insert_desc_In, IH. intuition congruence.
Qed.

Lemma insert_desc_sorted x l :
  StronglySorted desc l -> StronglySorted desc (insert_desc x l).
Proof.
  induction 1 as [|y l Hs IH Hy]; simpl.
  - constructor; constructor.
  - destruct (Z.leb_spec (snd y) (snd x)).
    + constructor; [now constructor|]. constructor; [assumption|].
      rewrite Forall_forall in *. intros z Hz. specialize (Hy z Hz).
      unfold desc in *. lia.
    + constructor; [assumption|].
      rewrite Forall_forall in *. intros z Hz.
      apply insert_desc_In in Hz as [-> | Hz]; [unfold desc; lia | auto].
Qed.

Lemma sort_desc_sorted l : StronglySorted desc (sort_desc l).
Proof.
  induction l as [|x l IH]; simpl; [constructor | now apply insert_desc_sorted].
Qed.

(** The phrases read by the loop are the windows of [min_length]
    consecutive words. *)

Lemma range_nonpos n : n <= 0 -> range n = [].
Proof. intros H. unfold range. now replace (Z.to_nat n) with 0%nat by lia. Qed.

Lemma range_succ n : 0 <= n -> range (n + 1) = 0 :: map Z.succ (range n).
Proof.
  intros H. unfold range.
  replace (Z.to_nat (n + 1)) with (S (Z.to_nat n)) by lia.
  simpl. f_equal. rewrite <- seq_shift, !map_map.
  apply map_ext. intros a. lia.
Qed.

Lemma range_bounds n i : In i (range n) -> 0 <= i < n.
Proof.
  unfold range. intros H. apply in_map_iff in H as (j & <- & Hj).
  apply in_seq in Hj. lia.
Qed.

Lemma slices_windows (k : nat) : (1 <= k)%nat -> forall words,
  map (fun i => slice words (Some i) (Some (i + Z.of_nat k)))
      (range (len words - Z.of_nat k + 1))
  = windows k words.
Proof.
  intros Hk. induction words as [|w ws IH].
  - rewrite range_nonpos by (unfold len; simpl; lia). reflexivity.
  - cbn [windows]. destruct (Nat.leb_spec k (length (w :: ws))) as [Hle | Hgt].
    + replace (len (w :: ws) - Z.of_nat k + 1)
        with ((len ws - Z.of_nat k + 1) + 1)
        by (unfold len; simpl length; lia).
      rewrite range_succ by (unfold len; simpl length in Hle; lia).
      cbn [map]. f_equal.
      * rewrite slice_valid by (unfold len; lia).
        simpl skipn. f_equal. lia.
      * rewrite <- IH, map_map. apply map_ext_in. intros i Hi.
        apply range_bounds in Hi.
        rewrite !slice_valid by (unfold len in *; simpl length; lia).
        replace (Z.to_nat (Z.succ i)) with (S (Z.to_nat i)) by lia.
        simpl skipn. f_equal. lia.
    + rewrite range_nonpos by (unfold len; lia). reflexivity.
Qed.

Lemma Forall_firstn_keep {A} (P : A -> Prop) k l :
  Forall P l -> Forall P (firstn k l).
Proof.
  intros H. revert k. induction H as [|x l Hx Hl IH]; intros [|k]; simpl;
    constructor; auto.
Qed.

Lemma windows_Forall (P : str -> Prop) k words :
  Forall P words ->
  Forall (fun win => length win = k /\ Forall P win) (windows k words).
Proof.
  induction 1 as [|w ws Hw Hws IH]; [constructor|].
  cbn [windows]. destruct (Nat.leb_spec k (length (w :: ws))); constructor.
  - split; [apply firstn_length_le; assumption|].
    apply Forall_firstn_keep. now constructor.
  - assumption.
Qed.

Lemma occurrences_short pat words :
  (length words < length pat)%nat -> occurrences pat words = 0%nat.
Proof.
  induction words as [|w ws IH]; intros H; [reflexivity|].
  cbn [occurrences]. rewrite IH by (simpl in H; lia).
  destruct (list_eq_dec str_eq_dec _ pat) as [E | _]; [|reflexivity].
  exfalso. apply (f_equal (@length _)) in E.
  rewrite length_firstn in E. lia.
Qed.

Lemma occurrences_windows pat words :
  pat <> [] ->
  occurrences pat words
  = count_occ (list_eq_dec str_eq_dec) (windows (length pat) words) pat.
Proof.
  intros Hp. induction words as [|w ws IH]; [reflexivity|].
  cbn [occurrences windows].
  destruct (Nat.leb_spec (length pat) (length (w :: ws))) as [Hle | Hgt].
  - cbn [count_occ]. rewrite IH.
    destruct (list_eq_dec str_eq_dec (firstn _ _) pat) as [E | E];
      reflexivity.
  - rewrite occurrences_short by (simpl in Hgt; lia).
    destruct (list_eq_dec str_eq_dec (firstn _ _) pat) as [E | _];
      [|reflexivity].
    exfalso. apply (f_equal (@length _)) in E.
    rewrite length_firstn in E. lia.
Qed.

(** Words without whitespace can be read back from their [join]. *)

Lemma break_at_space a a' r r' :
  nospace a -> nospace a' ->
  a ++ " "%char :: r = a' ++ " "%char :: r' -> a = a' /\ r = r'.
Proof.
  intros Ha. revert a'. induction Ha as [|c a Hc Ha IH]; intros a' Ha' E.
  - destruct Ha' as [|c' a' Hc' _]; simpl in E.
    + now injection E.
    + injection E as <- _. discriminate.
  - destruct Ha' as [|c' a' Hc' Ha']; simpl in E.
    + injection E as -> _. discriminate.
    + injection E as -> E. destruct (IH _ Ha' E) as [-> ->]. now split.
Qed.

Lemma join3_inj a b c a' b' c' :
  nospace a -> nospace b -> nospace a' -> nospace b' ->
  join (lit " ") [a; b; c] = join (lit " ") [a'; b'; c'] ->
  [a; b; c] = [a'; b'; c'].
Proof.
  intros Ha Hb Ha' Hb' E. cbn in E.
  apply break_at_space in E as [-> E]; try assumption.
  apply break_at_space in E as [-> ->]; try assumption.
  reflexivity.
Qed.

Lemma runs_from_Forall p s : forall cur,
  Forall (fun c => p c = true) cur ->
  Forall (Forall (fun c => p c = true)) (runs_from p s cur).
Proof.
  induction s as [|c t IH]; intros cur Hcur; simpl.
  - destruct cur; constructor; [|constructor].
    now apply Forall_rev.
  - destruct (p c) eqn:E.
    + apply IH. now constructor.
    + destruct cur; [now apply IH|].
      constructor; [now apply Forall_rev | now apply IH].
Qed.

Lemma split_nospace s : Forall nospace (split s).
Proof.
  unfold split, runs.
  eapply Forall_impl; [|apply runs_from_Forall; constructor].
  intros w Hw. eapply Forall_impl; [|exact Hw].
  intros c Hc. simpl in Hc. now destruct (isspace c).
Qed.

Lemma count_occ_map_join wins pat :
  length pat = 3%nat -> Forall nospace pat ->
  Forall (fun win => length win = 3%nat /\ Forall nospace win) wins ->
  count_occ str_eq_dec (map (join (lit " ")) wins) (join (lit " ") pat)
  = count_occ (list_eq_dec str_eq_dec) wins pat.
Proof.
  intros Hlen Hpat. induction 1 as [|win wins [Hl Hw] _ IH]; [reflexivity|].
  cbn [map count_occ]. rewrite IH.
  destruct (str_eq_dec (join (lit " ") win) (join (lit " ") pat)) as [E | E];
    destruct (list_eq_dec str_eq_dec win pat) as [E' | E'];
    try reflexivity.
  - exfalso. apply E'.
    destruct win as [|a [|b [|c [|? ?]]]]; try discriminate.
    destruct pat as [|a' [|b' [|c' [|? ?]]]]; try discriminate.
    inversion Hw as [|? ? Ha Hw1]; subst. inversion Hw1; subst.
    inversion Hpat as [|? ? Ha' Hp1]; subst. inversion Hp1; subst.
    now apply join3_inj.
  - exfalso. apply E. now subst.
Qed.

Lemma trigram_count text (n : nat) :
  occurrences trigram (split (lower text)) = n ->
  count_occ str_eq_dec
    (map (fun i => join (lit " ")
                     (slice (split (lower text)) (Some i) (Some (i + 3))))
         (range (len (split (lower text)) - 3 + 1)))
    (lit "the dark forest")
  = n.
Proof.
  intros <-.
  rewrite <- (map_map (fun i => slice (split (lower text))
                                  (Some i) (Some (i + 3)))
                      (join (lit " "))).
  rewrite (slices_windows 3) by lia.
  change (lit "the dark forest") with (join (lit " ") trigram).
  rewrite count_occ_map_join.
  - symmetry. apply (occurrences_windows trigram). discriminate.
  - reflexivity.
  - repeat constructor.
  - apply windows_Forall, split_nospace.
Qed.

(** C9. When the words [the], [dark], [forest] stand one after the other
    at exactly five positions among the lower-cased whitespace tokens of
    the text, the result of [find_repeated_phrases(text, 3, 3)] holds the
    pair [("the dark forest", 5)], and its counts are in descending
    order. *)
Theorem find_repeated_phrases_trigram (text : str) :
  occurrences trigram (split (lower text)) = 5%nat ->
  In (lit "the dark forest", 5) (find_repeated_phrases text 3 3) /\
  StronglySorted (fun a b => snd b <= snd a) (find_repeated_phrases text 3 3).
Proof.
  intros H. split; [|apply sort_desc_sorted].
  unfold find_repeated_phrases. apply sort_desc_In, filter_In.
  split; [|reflexivity]. apply dict_lookup_In.
  rewrite count_phrases_tally, tally_lookup, (trigram_count text 5 H).
  reflexivity.
Qed.

Lemma find_repeated_phrases_trigram_witness :
  In (lit "the dark forest", 5) (find_repeated_phrases forest_text 3 3) /\
  StronglySorted (fun a b => snd b <= snd a)
    (find_repeated_phrases forest_text 3 3).
Proof.
  apply (find_repeated_phrases_trigram forest_text).
  vm_compute. reflexivity.
Defined.

(** *** Stripping white space *)

Lemma lstrip_suffix s :
  exists sp, s = sp ++ lstrip s /\ forallb isspace sp = true.
Proof.
  induction s as [|c t (sp & E & Hsp)]; [now exists []|]. simpl.
  destruct (isspace c) eqn:Hc.
  - exists (c :: sp). simpl. rewrite Hc, Hsp. split; [now f_equal | reflexivity].
  - now exists [].
Qed.

Lemma lstrip_idem s : lstrip (lstrip s) = lstrip s.
Proof.
  destruct (lstrip_head s) as [-> | (c & t & -> & Hc)]; [reflexivity|].
  simpl. now rewrite Hc.
Qed.

Lemma strip_idem s : strip (strip s) = strip s.
Proof.
  unfold strip. set (y := lstrip s). set (z := lstrip (rev y)).
  assert (A : lstrip (rev z) = rev z).
  { destruct (lstrip_suffix (rev y)) as (sp & E & _). fold z in E.
    assert (Ey : y = rev z ++ rev sp).
    { rewrite <- (rev_involutive y), E. now rewrite rev_app_distr. }
    destruct (rev z) as [|c t] eqn:Ez; [reflexivity|].
    destruct (lstrip_head s) as [H | (c' & t' & H & Hc)]; fold y in H.
    - rewrite H in Ey. discriminate.
    - rewrite H in Ey. injection Ey as -> _. simpl. now rewrite Hc. }
  rewrite A, rev_involutive. subst z. now rewrite lstrip_idem.
Qed.

Lemma lstrip_blank s : forallb isspace s = true -> lstrip s = [].
Proof.
  induction s as [|c t IH]; simpl; [reflexivity|].
  destruct (isspace c); [assumption | discriminate].
Qed.

Lemma strip_blank s : forallb isspace s = true -> strip s = [].
Proof. intros H. unfold strip. now rewrite (lstrip_blank s H). Qed.

Lemma Forall_skipn_keep {A} (P : A -> Prop) k l :
  Forall P l -> Forall P (skipn k l).
Proof.
  revert l. induction k as [|k IH]; intros l H; [assumption|].
  destruct l; [constructor|]. inversion H; subst. simpl. now apply IH.
Qed.

(** *** The chunks of [chunk_text] *)

(** The end of a chunk lies after its start, at most [max_chunk_size]
    further and not beyond the end of the text. *)
Lemma chunk_end_range text max_chunk_size start :
  1 <= max_chunk_size -> 0 <= start < len text ->
  let e := chunk_end text max_chunk_size start in
  start < e /\ e <= start + max_chunk_size /\ e <= len text.
Proof.
  intros Hm Hs. unfold chunk_end.
  set (e0 := Z.min (start + max_chunk_size) (len text)).
  assert (0 <= max_chunk_size / 2) by (apply Z.div_pos; lia).
  destruct (Z.ltb_spec e0 (len text)) as [Hlt | Hge]; [|subst e0; lia].
  assert (Ha : adjust (len text) start = start) by (apply adjust_id; lia).
  assert (Hb : adjust (len text) e0 = e0) by (apply adjust_id; subst e0; lia).
  pose proof (rfind_range "."%char text start e0) as H1.
  pose proof (rfind_range "?"%char text start e0) as H2.
  pose proof (rfind_range "!"%char text start e0) as H3.
  simpl in H1, H2, H3. rewrite Ha, Hb in H1, H2, H3.
  match goal with |- context [?x >? ?y] => destruct (Z.gtb_spec x y) end;
    subst e0; lia.
Qed.

Lemma slice_piece text max_chunk_size a b :
  0 <= a -> a < b -> b <= a + max_chunk_size -> b <= len text ->
  piece_of text max_chunk_size (slice text (Some a) (Some b)).
Proof.
  intros Ha Hab Hb Hl. rewrite slice_valid by lia. split.
  - exists (firstn (Z.to_nat a) text),
           (skipn (Z.to_nat (b - a)) (skipn (Z.to_nat a) text)).
    now rewrite firstn_skipn, firstn_skipn.
  - unfold len in *. rewrite length_firstn, length_skipn. lia.
Qed.

Lemma chunk_loop_pieces text max_chunk_size overlap :
  1 <= max_chunk_size ->
  forall fuel start chunks res,
    0 <= start -> Forall (piece_of text max_chunk_size) chunks ->
    chunk_loop fuel text max_chunk_size overlap start chunks = Some res ->
    Forall (piece_of text max_chunk_size) res.
Proof.
  intros Hm. induction fuel as [|fuel IH]; intros start chunks res Hs Hc Hrun;
    simpl in Hrun; destruct (Z.ltb_spec start (len text)) as [Hlt | Hge];
    try discriminate; try (injection Hrun as <-; assumption).
  pose proof (chunk_end_range text max_chunk_size start Hm (conj Hs Hlt))
    as (He1 & He2 & He3).
  apply IH in Hrun; [assumption | |].
  - pose proof (next_start_gt overlap start _ He1). lia.
  - apply Forall_app. split; [assumption|]. constructor; [|constructor].
    apply slice_piece; lia.
Qed.

Lemma chunk_loop_extends text max_chunk_size overlap :
  forall fuel start chunks res,
    chunk_loop fuel text max_chunk_size overlap start chunks = Some res ->
    exists more, res = chunks ++ more /\ (start < len text -> more <> []).
Proof.
  induction fuel as [|fuel IH]; intros start chunks res Hrun;
    simpl in Hrun; destruct (Z.ltb_spec start (len text)) as [Hlt | Hge];
    try discriminate.
  - injection Hrun as <-. exists []. rewrite app_nil_r. split; [reflexivity | lia].
  - apply IH in Hrun as (more & -> & _). rewrite <- app_assoc.
    eexists. split; [reflexivity|]. intros _. discriminate.
  - injection Hrun as <-. exists []. rewrite app_nil_r. split; [reflexivity | lia].
Qed.

(** X1. With [max_chunk_size >= 1], every chunk of a text longer than
    [max_chunk_size] is a piece of the text of at least one and at most
    [max_chunk_size] characters, and there is at least one chunk. *)
Theorem chunk_text_chunk_sizes (text : str) (max_chunk_size overlap : Z) :
  1 <= max_chunk_size -> max_chunk_size < len text ->
  exists chunks,
    chunk_text (length text) text max_chunk_size overlap = Some chunks /\
    chunks <> [] /\
    Forall (fun c =>
              (exists before after, text = before ++ c ++ after) /\
              1 <= len c <= max_chunk_size) chunks.
Proof.
  intros Hm Hlong. unfold chunk_text.
  destruct (Z.leb_spec (len text) max_chunk_size); [lia|].
  destruct (chunk_loop_terminates text max_chunk_size overlap Hm
              (length text) 0 []) as [res Hres]; [unfold len; lia|].
  exists res. split; [assumption|]. split.
  - apply chunk_loop_extends in Hres as (more & -> & Hmore).
    apply Hmore. lia.
  - apply (chunk_loop_pieces text max_chunk_size overlap Hm (length text) 0 []);
      [lia | constructor | assumption].
Qed.

Lemma chunk_text_chunk_sizes_witness :
  exists chunks,
    chunk_text 20 (lit "One. Two! Three? Go.") 10 2 = Some chunks /\
    chunks <> [] /\
    Forall (fun c =>
              (exists before after,
                 lit "One. Two! Three? Go." = before ++ c ++ after) /\
              1 <= len c <= 10) chunks.
Proof.
  apply (chunk_text_chunk_sizes (lit "One. Two! Three? Go.") 10 2);
    vm_compute; congruence.
Defined.

Lemma chained_snoc {A} (R : A -> A -> Prop) l a b :
  chained R (l ++ [a]) -> R a b -> chained R (l ++ [a; b]).
Proof.
  induction l as [|x l IH]; intros H Hab; [now simpl|].
  destruct l as [|y l].
  - simpl in *. tauto.
  - change (chained R (x :: y :: l ++ [a; b])).
    change (chained R (x :: y :: l ++ [a])) in H.
    simpl in H. destruct H as [Hxy H]. split; [assumption|].
    apply IH; assumption.
Qed.

Lemma chained_inside {A} (R : A -> A -> Prop) pre c1 c2 post :
  chained R (pre ++ c1 :: c2 :: post) -> R c1 c2.
Proof.
  induction pre as [|x pre IH]; intros H; [now destruct H|].
  apply IH. destruct pre; simpl in H |- *; tauto.
Qed.

Section Overlap.
Variable text : str.
Variables max_chunk_size overlap : Z.
Hypothesis overlap_nonneg : 0 <= overlap.
Hypothesis overlap_lt_max : overlap < max_chunk_size.
Hypothesis overlap_le_half : overlap <= max_chunk_size / 2 + 1.
Hypothesis long : max_chunk_size < len text.

Lemma overlaps_slices s0 e0 e :
  0 <= s0 -> s0 < e0 - overlap -> e0 <= e -> e <= len text ->
  overlaps overlap (slice text (Some s0) (Some e0))
                   (slice text (Some (e0 - overlap)) (Some e)).
Proof.
  intros H0 H1 H2 H3.
  assert (L1 : len (slice text (Some s0) (Some e0)) = e0 - s0).
  { rewrite slice_valid by lia. unfold len in *.
    rewrite length_firstn, length_skipn. lia. }
  split; [lia|]. rewrite L1.
  rewrite slice_from by lia.
  rewrite !slice_valid by lia.
  unfold slice.
  assert (L2 : len (firstn (Z.to_nat (e - (e0 - overlap)))
                      (skipn (Z.to_nat (e0 - overlap)) text))
               = e - (e0 - overlap)).
  { unfold len in *. rewrite length_firstn, length_skipn. lia. }
  rewrite L2. rewrite adjust_id by lia. rewrite Z.sub_0_r.
  change (Z.to_nat 0) with 0%nat. rewrite skipn_O.
  rewrite skipn_firstn_sub, skipn_skipn, firstn_firstn.
  replace (Z.to_nat (e0 - s0 - overlap) + Z.to_nat s0)%nat
    with (Z.to_nat (e0 - overlap)) by lia.
  f_equal. lia.
Qed.

Lemma chunk_loop_overlap : forall fuel start chunks res,
  0 <= start ->
  (chunks = [] /\ start = 0) \/ after_chunk text overlap chunks start ->
  chained (overlaps overlap) chunks ->
  chunk_loop fuel text max_chunk_size overlap start chunks = Some res ->
  chained (overlaps overlap) res /\
  exists stop, len text <= stop /\ after_chunk text overlap res stop.
Proof.
  induction fuel as [|fuel IH]; intros start chunks res Hs Hinv Hch Hrun;
    simpl in Hrun; destruct (Z.ltb_spec start (len text)) as [Hlt | Hge];
    try discriminate.
  - injection Hrun as <-. split; [assumption|].
    destruct Hinv as [[-> ->] | (front & s0 & e0 & -> & H1 & H2 & H3 & H4)]; [lia|].
    exists start. split; [assumption|]. now exists front, s0, e0.
  - pose proof (chunk_end_bounds text max_chunk_size overlap overlap_nonneg
                  overlap_lt_max overlap_le_half start (conj Hs Hlt))
      as [He Hlong].
    set (e := chunk_end text max_chunk_size start) in *.
    apply IH in Hrun; [assumption | | |].
    + unfold next_start. destruct (Z.gtb_spec (e - overlap) start); lia.
    + right. exists chunks, start, e. split; [reflexivity|].
      split; [lia|]. split; [lia|]. split.
      * destruct Hinv as [[-> ->] | (front & s0 & e0 & -> & H1 & H2 & H3 & H4)];
          lia.
      * unfold next_start. destruct (Z.gtb_spec (e - overlap) start).
        -- left. lia.
        -- right. destruct (Z.eq_dec e (len text)); [lia|].
           assert (start < e - overlap) by (apply Hlong; lia). lia.
    + destruct Hinv as [[-> ->] | (front & s0 & e0 & -> & H1 & H2 & H3 & H4)];
        [exact I|].
      rewrite <- app_assoc. apply chained_snoc; [assumption|].
      destruct H4 as [[-> Hlt0] | [-> [-> _]]]; [|lia].
      apply overlaps_slices; lia.
  - injection Hrun as <-. split; [assumption|].
    destruct Hinv as [[-> ->] | (front & s0 & e0 & -> & H1 & H2 & H3 & H4)]; [lia|].
    exists start. split; [assumption|]. now exists front, s0, e0.
Qed.


End Overlap.

(** X2. Under the conditions of the round trip, every chunk of a long
    text starts with the last [overlap] characters of the chunk before it;
    and when [overlap] is not 0, the last chunk is the last [overlap]
    characters of the text, which the chunk before it holds already. *)
Theorem chunk_text_overlap (text : str) (max_chunk_size overlap : Z) :
  0 <= overlap -> overlap < max_chunk_size ->
  overlap <= max_chunk_size / 2 + 1 -> max_chunk_size < len text ->
  exists chunks,
    chunk_text (length text) text max_chunk_size overlap = Some chunks /\
    (forall before c1 c2 after,
       chunks = before ++ c1 :: c2 :: after ->
       overlap <= len c1 /\
       slice c1 (Some (len c1 - overlap)) None = slice c2 None (Some overlap)) /\
    (1 <= overlap ->
     exists front,
       chunks = front ++ [slice text (Some (len text - overlap)) None]).
Proof.
  intros H0 H1 H2 Hlong. unfold chunk_text.
  destruct (Z.leb_spec (len text) max_chunk_size); [lia|].
  assert (Hm : 1 <= max_chunk_size) by lia.
  destruct (chunk_loop_terminates text max_chunk_size overlap Hm
              (length text) 0 []) as [res Hres]; [unfold len; lia|].
  exists res. split; [assumption|].
  apply (chunk_loop_overlap text max_chunk_size overlap H0 H1 H2 Hlong)
    in Hres as (Hch & stop & Hstop & Hafter);
    [ | lia | now left | exact I].
  split.
  - intros before c1 c2 after ->.
    exact (chained_inside (overlaps overlap) before c1 c2 after Hch).
  - intros Ho. destruct Hafter as (front & s0 & e0 & -> & E1 & E2 & E3 & E4).
    exists front. do 2 f_equal.
    assert (s0 = len text - overlap /\ e0 = len text) as [-> ->] by lia.
    unfold slice. rewrite !adjust_id by lia. reflexivity.
Qed.

Lemma chunk_text_overlap_witness :
  exists chunks,
    chunk_text 20 (lit "One. Two! Three? Go.") 10 2 = Some chunks /\
    (forall before c1 c2 after,
       chunks = before ++ c1 :: c2 :: after ->
       2 <= len c1 /\
       slice c1 (Some (len c1 - 2)) None = slice c2 None (Some 2)) /\
    (1 <= 2 ->
     exists front,
       chunks = front ++ [slice (lit "One. Two! Three? Go.")
                            (Some (len (lit "One. Two! Three? Go.") - 2)) None]).
Proof.
  apply (chunk_text_overlap (lit "One. Two! Three? Go.") 10 2);
    vm_compute; congruence.
Defined.

(** *** The counts of [find_repeated_phrases] *)

Section DictKeys.
Context {V : Type}.
Implicit Types (d : list (str * V)) (k : str) (v : V).

Lemma dict_set_keys d k v :
  map fst (dict_set d k v)
  = if existsb (str_eqb k) (map fst d) then map fst d else map fst d ++ [k].
Proof.
  induction d as [|[k' v'] d IH]; simpl; [reflexivity|].
  destruct (str_eqb k' k) eqn:E.
  - apply str_eqb_eq in E. subst k'. now rewrite str_eqb_refl.
  - assert (E' : str_eqb k k' = false).
    { apply str_eqb_neq. intros ->. now rewrite str_eqb_refl in E. }
    rewrite E'. simpl. rewrite IH.
    now destruct (existsb (str_eqb k) (map fst d)).
Qed.

Lemma dict_set_NoDup d k v :
  NoDup (map fst d) -> NoDup (map fst (dict_set d k v)).
Proof.
  intros H. rewrite dict_set_keys.
  destruct (existsb (str_eqb k) (map fst d)) eqn:E; [assumption|].
  apply NoDup_app; [assumption | repeat constructor; intros [] |].
  intros x Hx [<- | []].
  assert (existsb (str_eqb k) (map fst d) = true); [|congruence].
  apply existsb_exists. exists k. split; [assumption | apply str_eqb_refl].
Qed.

Lemma dict_In_lookup d k v :
  NoDup (map fst d) -> In (k, v) d -> dict_lookup d k = Some v.
Proof.
  induction d as [|[k' v'] d IH]; simpl; intros Hnd Hin; [contradiction|].
  inversion Hnd as [|? ? Hk Hnd']; subst.
  destruct Hin as [[= -> ->] | Hin].
  - now rewrite str_eqb_refl.
  - destruct (str_eqb k' k) eqn:E.
    + apply str_eqb_eq in E. subst k'. exfalso. apply Hk.
      change k with (fst (k, v)). now apply in_map.
    + now apply IH.
Qed.
End DictKeys.

Lemma tally_NoDup keys : forall d,
  NoDup (map fst d) -> NoDup (map fst (tally keys d)).
Proof.
  induction keys as [|k keys IH]; intros d H; [assumption|].
  change (tally (k :: keys) d)
    with (tally keys (dict_set d k (dict_get d k 0 + 1))).
  apply IH. now apply dict_set_NoDup.
Qed.

Lemma insert_desc_perm x l : Permutation (x :: l) (insert_desc x l).
Proof.
  induction l as [|y l IH]; simpl; [reflexivity|].
  destruct (snd y <=? snd x); [reflexivity|].
  rewrite perm_swap. now constructor.
Qed.

Lemma sort_desc_perm l : Permutation l (sort_desc l).
Proof.
  induction l as [|x l IH]; simpl; [constructor|].
  rewrite <- insert_desc_perm. now constructor.
Qed.

Lemma NoDup_filter_keys (f : str * Z -> bool) l :
  NoDup (map fst l) -> NoDup (map fst (filter f l)).
Proof.
  induction l as [|x l IH]; simpl; intros H; [constructor|].
  inversion H as [|? ? Hx Hl]; subst.
  destruct (f x); simpl; [|now apply IH].
  constructor; [|now apply IH].
  intros Hin. apply Hx. apply in_map_iff in Hin as (y & Hy & Hin).
  apply filter_In in Hin as [Hin _]. rewrite <- Hy. now apply in_map.
Qed.

(** X3. [find_repeated_phrases] reports a phrase with the count [n] exactly
    when the phrase stands at [n] of the positions that the loop visits
    and [n] is at least [min_occurrences] (and at least 1); no phrase is
    reported twice. *)
Theorem find_repeated_phrases_counts
    (text : str) (min_length min_occurrences : Z) :
  (forall phrase n,
     In (phrase, n) (find_repeated_phrases text min_length min_occurrences)
     <-> n = Z.of_nat (count_occ str_eq_dec
                         (phrases_at (split (lower text)) min_length) phrase)
         /\ 1 <= n /\ min_occurrences <= n) /\
  NoDup (map fst (find_repeated_phrases text min_length min_occurrences)).
Proof.
  unfold find_repeated_phrases. rewrite count_phrases_tally.
  fold (phrases_at (split (lower text)) min_length).
  set (keys := phrases_at (split (lower text)) min_length).
  assert (Hnd : NoDup (map fst (tally keys []))) by (apply tally_NoDup; constructor).
  split.
  - intros phrase n. rewrite sort_desc_In, filter_In. simpl.
    pose proof (tally_lookup keys [] phrase) as Hl. simpl in Hl.
    unfold dict_get in Hl. simpl in Hl.
    split.
    + intros [Hin Hge]. apply (dict_In_lookup _ _ _ Hnd) in Hin.
      rewrite Hin in Hl.
      destruct (count_occ str_eq_dec keys phrase) eqn:E; simpl in Hl;
        [discriminate|]. injection Hl as ->. apply Z.geb_le in Hge. lia.
    + intros (-> & H1 & Hm).
      destruct (count_occ str_eq_dec keys phrase) eqn:E; [lia|].
      simpl in Hl. split; [|apply Z.geb_le; lia].
      apply dict_lookup_In. rewrite Hl. f_equal.
  - eapply Permutation_NoDup; [apply Permutation_map, sort_desc_perm|].
    now apply NoDup_filter_keys.
Qed.

(** *** Syllables *)

Lemma vowel_groups_mono word : forall prev count,
  count <= vowel_groups word prev count.
Proof.
  induction word as [|c w IH]; intros prev count; simpl; [lia|].
  destruct (is_vowel c && negb prev); [specialize (IH (is_vowel c) (count + 1)) |
                                        specialize (IH (is_vowel c) count)]; lia.
Qed.

Lemma vowel_groups_vowel word : forall count,
  existsb is_vowel word = true ->
  count + 1 <= vowel_groups word false count.
Proof.
  induction word as [|c w IH]; intros count H; simpl in *; [discriminate|].
  destruct (is_vowel c) eqn:E; simpl.
  - pose proof (vowel_groups_mono w true (count + 1)). lia.
  - now apply IH.
Qed.

Lemma skipn_suffix_In {A} (l suffix : list A) k x :
  skipn k l = suffix -> In x suffix -> In x l.
Proof.
  intros <- H. rewrite <- (firstn_skipn k l). apply in_or_app. now right.
Qed.

Lemma endswith_In word suffix c :
  endswith word suffix = true -> In c suffix -> In c word.
Proof.
  unfold endswith. intros H Hc. apply andb_prop in H as [_ H].
  apply str_eqb_eq in H. eapply skipn_suffix_In; eassumption.
Qed.

Lemma In_vowel c word :
  In c word -> is_vowel c = true -> existsb is_vowel word = true.
Proof. intros H Hc. apply existsb_exists. now exists c. Qed.

Lemma endswith_last word suffix c d :
  endswith word (suffix ++ [c]) = true -> endswith word [d] = true -> c = d.
Proof.
  unfold endswith. intros H1 H2.
  apply andb_prop in H1 as [L1 H1]. apply andb_prop in H2 as [L2 H2].
  apply str_eqb_eq in H1, H2. apply Nat.leb_le in L1, L2.
  rewrite length_app in *. simpl in *.
  assert (E : skipn (length word - 1) word = [c]).
  { replace (length word - 1)%nat
      with (length suffix + (length word - (length suffix + 1)))%nat by lia.
    rewrite <- skipn_skipn, H1.
    rewrite skipn_app, Nat.sub_diag, skipn_all. reflexivity. }
  congruence.
Qed.

Lemma count_syllables_ge_one (word : str) : 1 <= count_syllables word.
Proof.
  unfold count_syllables.
  set (w := lower word).
  destruct (len w <=? 3); [lia|].
  pose proof (vowel_groups_mono w false 0) as H0.
  destruct (endswith w (lit "e")) eqn:Ee.
  - (* the word ends in "e": it holds a vowel, and does not end in "es"/"ed" *)
    assert (Hv : 1 <= vowel_groups w false 0).
    { apply (vowel_groups_vowel w 0).
      apply (In_vowel "e"%char); [|reflexivity].
      eapply endswith_In; [eassumption | now left]. }
    assert (Es : endswith w (lit "es") = false).
    { destruct (endswith w (lit "es")) eqn:E; [|reflexivity].
      pose proof (endswith_last w (lit "e") _ _ E Ee). discriminate. }
    assert (Ed : endswith w (lit "ed") = false).
    { destruct (endswith w (lit "ed")) eqn:E; [|reflexivity].
      pose proof (endswith_last w (lit "e") _ _ E Ee). discriminate. }
    rewrite Es, Ed. cbv zeta.
    destruct (endswith w (lit "le")); cbn [andb negb orb];
      match goal with |- context [?x =? 0] => destruct (Z.eqb_spec x 0) end; lia.
  - cbn [andb]. cbv zeta.
    destruct (endswith w (lit "es") || endswith w (lit "ed")) eqn:E.
    + assert (Hv : 1 <= vowel_groups w false 0).
      { apply (vowel_groups_vowel w 0).
        apply (In_vowel "e"%char); [|reflexivity].
        apply orb_prop in E as [E | E];
          (eapply endswith_In; [eassumption | now left]). }
      match goal with |- context [?x =? 0] => destruct (Z.eqb_spec x 0) end; lia.
    + match goal with |- context [?x =? 0] => destruct (Z.eqb_spec x 0) end; lia.
Qed.

Lemma vowel_groups_le word : forall prev count,
  vowel_groups word prev count <= count + len word.
Proof.
  induction word as [|c w IH]; intros prev count; unfold len in *; simpl length;
    simpl vowel_groups; [lia|].
  destruct (is_vowel c && negb prev); [specialize (IH (is_vowel c) (count + 1)) |
                                        specialize (IH (is_vowel c) count)]; lia.
Qed.

(** X4. [count_syllables] gives every word at least one syllable, and never
    more syllables than the word has characters. *)
Theorem count_syllables_bounds (word : str) :
  1 <= count_syllables word <= Z.max 1 (len word).
Proof.
  split; [apply count_syllables_ge_one|].
  unfold count_syllables.
  assert (Hl : len (lower word) = len word)
    by (unfold len, lower; now rewrite length_map).
  rewrite Hl. destruct (Z.leb_spec (len word) 3); [lia|].
  pose proof (vowel_groups_le (lower word) false 0) as Hv. rewrite Hl in Hv.
  cbv zeta.
  destruct (endswith (lower word) (lit "e")
            && negb (endswith (lower word) (lit "le")));
    destruct (endswith (lower word) (lit "es")
              || endswith (lower word) (lit "ed"));
    match goal with |- context [?x =? 0] => destruct (Z.eqb_spec x 0) end; lia.
Qed.

Lemma syllables_sum words :
  len words <= fold_right Z.add 0 (map count_syllables words).
Proof.
  induction words as [|w ws IH]; [reflexivity|].
  simpl. pose proof (count_syllables_ge_one w).
  unfold len in *. simpl length. lia.
Qed.

(** *** Floats *)

Lemma round_half_even_ge (m : Z) (x : Q) :
  (inject_Z m <= x)%Q -> m <= round_half_even x.
Proof.
  intros H. assert (Hf : m <= Qfloor x).
  { rewrite <- (Qfloor_Z m). now apply Qfloor_resp_le. }
  unfold round_half_even.
  destruct ((x - inject_Z (Qfloor x)) ?= 1 # 2)%Q;
    [destruct (Z.even (Qfloor x))| |]; lia.
Qed.

Lemma pow2_pos (e : Z) : (0 < 2 ^ e)%Q.
Proof. now apply Qpower_0_lt. Qed.

Lemma pow2_inject (e : Z) : 0 <= e -> (inject_Z (2 ^ e) == 2 ^ e)%Q.
Proof. intros H. now rewrite Zpower_Qpower. Qed.

(** [2 ^ ilog2 q <= q] *)
Lemma ilog2_lower (q : Q) : (0 < q)%Q -> (2 ^ ilog2 q <= q)%Q.
Proof.
  intros Hq. unfold ilog2.
  set (e := Z.log2 (Qnum q) - Z.log2 (Z.pos (Qden q))).
  destruct (Qle_bool (2 ^ e) q) eqn:E; [now apply Qle_bool_iff|].
  destruct q as [n d]. cbn [Qnum Qden] in *.
  assert (Hn : 0 < n) by (unfold Qlt in Hq; cbn in Hq; lia).
  pose proof (Z.log2_nonneg n) as Hln.
  pose proof (Z.log2_nonneg (Z.pos d)) as Hld.
  destruct (Z.log2_spec n Hn) as [Hn1 _].
  destruct (Z.log2_spec (Z.pos d) ltac:(lia)) as [_ Hd2].
  replace (e - 1) with (Z.log2 n - Z.succ (Z.log2 (Z.pos d))) by (subst e; lia).
  rewrite Qpower_minus by discriminate.
  rewrite <- !pow2_inject by lia.
  apply Qle_shift_div_r.
  - change 0%Q with (inject_Z 0). rewrite <- Zlt_Qlt. lia.
  - unfold Qle, Qmult, inject_Z. cbn [Qnum Qden].
    rewrite Pos.mul_1_r, Z.mul_1_r.
    set (X := 2 ^ Z.log2 n) in *. set (Y := 2 ^ Z.succ (Z.log2 (Z.pos d))) in *.
    nia.
Qed.

Lemma ilog2_nonneg (q : Q) : (1 <= q)%Q -> 0 <= ilog2 q.
Proof.
  intros Hq. unfold ilog2.
  set (e := Z.log2 (Qnum q) - Z.log2 (Z.pos (Qden q))).
  assert (He : 0 <= e).
  { subst e. destruct q as [n d]. cbn [Qnum Qden].
    unfold Qle in Hq. cbn in Hq.
    pose proof (Z.log2_le_mono (Z.pos d) n). lia. }
  destruct (Qle_bool (2 ^ e) q) eqn:E; [assumption|].
  destruct (Z.eq_dec e 0) as [E0 | E0]; [|lia].
  rewrite E0 in E. change (2 ^ 0)%Q with 1%Q in E.
  apply Qle_bool_iff in Hq. congruence.
Qed.

(** Rounding to a float does not go below 1. *)
Lemma double_ge_one (q : Q) : (1 <= q)%Q -> (1 <= double q)%Q.
Proof.
  intros Hq. unfold double.
  assert (Hpos : (0 < q)%Q) by (eapply Qlt_le_trans; [|exact Hq]; reflexivity).
  destruct (Qeq_bool q 0) eqn:E0.
  { apply Qeq_bool_eq in E0. rewrite E0 in Hpos. discriminate. }
  assert (Eabs : (Z.abs (Qnum q) # Qden q) = q).
  { destruct q as [n d]. cbn [Qnum Qden]. unfold Qlt in Hpos. cbn in Hpos.
    f_equal. lia. }
  rewrite Eabs.
  pose proof (ilog2_nonneg q Hq) as Hk. pose proof (ilog2_lower q Hpos) as Hlow.
  set (k := ilog2 q) in *.
  replace (Z.max k (-1022)) with k by lia.
  rewrite Qred_correct.
  assert (Hm : 2 ^ 52 <= round_half_even (q / 2 ^ (k - 52))).
  { apply round_half_even_ge. apply Qle_shift_div_l; [apply pow2_pos|].
    rewrite (pow2_inject 52) by lia.
    rewrite <- Qpower_plus by discriminate.
    now replace (52 + (k - 52)) with k by lia. }
  apply Qle_trans with (inject_Z (2 ^ 52) * 2 ^ (k - 52))%Q.
  - rewrite (pow2_inject 52) by lia. rewrite <- Qpower_plus by discriminate.
    replace (52 + (k - 52)) with k by lia.
    apply Qpower_1_le; [discriminate | assumption].
  - apply Qmult_le_compat_r; [|apply Qlt_le_weak, pow2_pos].
    now rewrite <- Zle_Qle.
Qed.

Lemma round2_ge_one q : (1 <= q)%Q -> (1 <= round2 q)%Q.
Proof.
  intros H. unfold round2. apply double_ge_one.
  assert (Hr : 100 <= round_half_even (q * 100)).
  { apply round_half_even_ge.
    setoid_replace (inject_Z 100) with (1 * 100)%Q by reflexivity.
    apply Qmult_le_compat_r; [assumption | discriminate]. }
  apply Qle_shift_div_l; [reflexivity|].
  rewrite Qmult_1_l. change (100%Q) with (inject_Z 100).
  now rewrite <- Zle_Qle.
Qed.

Lemma round_half_even_le (m : Z) (x : Q) :
  (x <= inject_Z m)%Q -> round_half_even x <= m.
Proof.
  intros H. pose proof (Qfloor_resp_le _ _ H) as Hf. rewrite Qfloor_Z in Hf.
  unfold round_half_even.
  destruct (Z.eq_dec (Qfloor x) m) as [E | E].
  - assert (Hx : (x - inject_Z (Qfloor x) <= 0)%Q).
    { rewrite E. unfold Qminus. rewrite <- (Qplus_opp_r (inject_Z m)).
      now apply Qplus_le_l. }
    assert (Hlt : (x - inject_Z (Qfloor x) < 1 # 2)%Q).
    { eapply Qle_lt_trans; [exact Hx | reflexivity]. }
    assert (Ec : ((x - inject_Z (Qfloor x)) ?= 1 # 2)%Q = Lt)
      by now apply Qlt_alt.
    rewrite Ec. lia.
  - destruct ((x - inject_Z (Qfloor x)) ?= 1 # 2)%Q;
      [destruct (Z.even (Qfloor x))| |]; lia.
Qed.

Lemma ilog2_upper (q : Q) (k : Z) : (0 < q)%Q -> (q <= 2 ^ k)%Q -> ilog2 q <= k.
Proof.
  intros Hq Hk. pose proof (ilog2_lower q Hq) as Hl.
  apply (Qpower_le_compat_l_inv 2); [|reflexivity].
  now apply Qle_trans with q.
Qed.

Lemma Qabs_of_pos (q : Q) : (0 < q)%Q -> (Z.abs (Qnum q) # Qden q) = q.
Proof.
  destruct q as [n d]. unfold Qlt. cbn. intros H. f_equal. lia.
Qed.

Lemma Qabs_of_neg (q : Q) : (q < 0)%Q -> (Z.abs (Qnum q) # Qden q) = (- q)%Q.
Proof.
  destruct q as [n d]. unfold Qlt, Qopp. cbn. intros H. f_equal. lia.
Qed.

(** Rounding to a float keeps the sign. *)
Lemma double_nonneg (q : Q) : (0 <= q)%Q -> (0 <= double q)%Q.
Proof.
  intros Hq. unfold double. destruct (Qeq_bool q 0); [apply Qle_refl|].
  rewrite Qred_correct.
  apply Qmult_le_0_compat; [|apply Qlt_le_weak, pow2_pos].
  change 0%Q with (inject_Z 0). rewrite <- Zle_Qle.
  apply round_half_even_ge. apply Qle_shift_div_l; [apply pow2_pos|].
  now rewrite Qmult_0_l.
Qed.

Lemma double_nonpos (q : Q) : (q <= 0)%Q -> (double q <= 0)%Q.
Proof.
  intros Hq. unfold double. destruct (Qeq_bool q 0); [apply Qle_refl|].
  rewrite Qred_correct.
  set (e := Z.max _ _ - 52).
  assert (H : round_half_even (q / 2 ^ e) <= 0).
  { apply round_half_even_le. apply Qle_shift_div_r; [apply pow2_pos|].
    now rewrite Qmult_0_l. }
  rewrite <- (Qmult_0_l (2 ^ e)).
  apply Qmult_le_compat_r; [|apply Qlt_le_weak, pow2_pos].
  change 0%Q with (inject_Z 0). now rewrite <- Zle_Qle.
Qed.

(** Rounding to a float does not cross a power of two. *)
Lemma double_le_pow2 (q : Q) (k : Z) :
  -1022 <= k -> (q <= 2 ^ k)%Q -> (double q <= 2 ^ k)%Q.
Proof.
  intros Hk Hq. destruct (Qlt_le_dec 0 q) as [Hpos | Hneg].
  2:{ apply Qle_trans with 0%Q; [now apply double_nonpos|].
      apply Qlt_le_weak, pow2_pos. }
  unfold double. destruct (Qeq_bool q 0) eqn:E0.
  { apply Qlt_le_weak, pow2_pos. }
  rewrite (Qabs_of_pos q Hpos), Qred_correct.
  pose proof (ilog2_upper q k Hpos Hq) as Hu.
  set (e := Z.max (ilog2 q) (-1022) - 52).
  assert (He : 0 <= k - e) by (subst e; lia).
  assert (Hm : round_half_even (q / 2 ^ e) <= 2 ^ (k - e)).
  { apply round_half_even_le. apply Qle_shift_div_r; [apply pow2_pos|].
    rewrite pow2_inject by assumption.
    rewrite <- Qpower_plus by discriminate.
    now replace (k - e + e) with k by lia. }
  apply Qle_trans with (inject_Z (2 ^ (k - e)) * 2 ^ e)%Q.
  - apply Qmult_le_compat_r; [|apply Qlt_le_weak, pow2_pos].
    now rewrite <- Zle_Qle.
  - rewrite pow2_inject by assumption.
    rewrite <- Qpower_plus by discriminate.
    replace (k - e + e) with k by lia. apply Qle_refl.
Qed.

Lemma double_ge_opp_pow2 (q : Q) (k : Z) :
  -1022 <= k -> (- (2 ^ k) <= q)%Q -> (- (2 ^ k) <= double q)%Q.
Proof.
  intros Hk Hq. destruct (Qlt_le_dec q 0) as [Hneg | Hpos].
  2:{ apply Qle_trans with 0%Q; [|now apply double_nonneg].
      apply (Qopp_le_compat 0), Qlt_le_weak, pow2_pos. }
  unfold double. destruct (Qeq_bool q 0) eqn:E0.
  { apply (Qopp_le_compat 0), Qlt_le_weak, pow2_pos. }
  rewrite (Qabs_of_neg q Hneg), Qred_correct.
  assert (Hpos : (0 < - q)%Q).
  { apply (Qopp_lt_compat q 0). exact Hneg. }
  assert (Hle : (- q <= 2 ^ k)%Q).
  { apply Qopp_le_compat in Hq. now rewrite Qopp_involutive in Hq. }
  pose proof (ilog2_upper (- q) k Hpos Hle) as Hu.
  set (e := Z.max (ilog2 (- q)) (-1022) - 52).
  assert (He : 0 <= k - e) by (subst e; lia).
  assert (Hm : - 2 ^ (k - e) <= round_half_even (q / 2 ^ e)).
  { apply round_half_even_ge. apply Qle_shift_div_l; [apply pow2_pos|].
    rewrite inject_Z_opp, pow2_inject by assumption.
    setoid_replace (- 2 ^ (k - e) * 2 ^ e)%Q with (- (2 ^ (k - e) * 2 ^ e))%Q
      by ring.
    rewrite <- Qpower_plus by discriminate.
    now replace (k - e + e) with k by lia. }
  apply Qle_trans with (inject_Z (- 2 ^ (k - e)) * 2 ^ e)%Q.
  - rewrite inject_Z_opp, pow2_inject by assumption.
    setoid_replace (- 2 ^ (k - e) * 2 ^ e)%Q with (- (2 ^ (k - e) * 2 ^ e))%Q
      by ring.
    rewrite <- Qpower_plus by discriminate.
    replace (k - e + e) with k by lia. apply Qle_refl.
  - apply Qmult_le_compat_r; [|apply Qlt_le_weak, pow2_pos].
    now rewrite <- Zle_Qle.
Qed.

(** X5. The average number of syllables per word that
    [calculate_reading_statistics] reports is 0 for a text without a word
    and at least 1 for every other text; the word count is the number of
    words found. *)
Theorem reading_statistics_syllables (text : str) :
  exists stats,
    calculate_reading_statistics text = Ok stats /\
    word_count stats = len (words_of text) /\
    (words_of text = [] -> (avg_syllables_per_word stats == 0)%Q) /\
    (words_of text <> [] -> (1 <= avg_syllables_per_word stats)%Q).
Proof.
  unfold calculate_reading_statistics.
  destruct (Z.eqb_spec (len (sentences_of text)) 0) as [Hs | Hs].
  - (* no sentence: then no word either *)
    assert (Hw : words_of text = []).
    { apply no_sentences_no_words.
      destruct (sentences_of text); [reflexivity | discriminate]. }
    eexists. split; [reflexivity|]. simpl. rewrite Hw.
    split; [reflexivity|]. split; [reflexivity | congruence].
  - unfold true_div at 1.
    destruct (Z.eqb_spec (len (sentences_of text)) 0); [contradiction|].
    cbn [bind].
    destruct (words_of text) as [|w ws] eqn:Hw.
    + eexists. split; [reflexivity|]. simpl.
      split; [reflexivity|]. split; [reflexivity | congruence].
    + assert (Hpos : 0 < len (w :: ws)) by (unfold len; simpl; lia).
      destruct (Z.gtb_spec (len (w :: ws)) 0); [|lia].
      unfold true_div. destruct (Z.eqb_spec (len (w :: ws)) 0); [lia|].
      cbn [bind]. eexists. split; [reflexivity|]. cbn [word_count avg_syllables_per_word].
      split; [reflexivity|]. split; [discriminate|]. intros _.
      apply round2_ge_one, double_ge_one.
      apply Qle_shift_div_l.
      * change 0%Q with (inject_Z 0). now rewrite <- Zlt_Qlt.
      * rewrite Qmult_1_l. rewrite <- Zle_Qle. apply syllables_sum.
Qed.

Lemma reading_statistics_syllables_witness :
  exists stats,
    calculate_reading_statistics (lit "Hello there. General Kenobi!")
    = Ok stats /\
    (1 <= avg_syllables_per_word stats)%Q.
Proof.
  destruct (reading_statistics_syllables (lit "Hello there. General Kenobi!"))
    as (stats & Hrun & _ & _ & Hsome).
  exists stats. split; [exact Hrun|]. apply Hsome. vm_compute. discriminate.
Defined.

End TextProcessingFacts.

(* ------------------------------------------------------------------ *)

Module LLMProviderFacts.
Import PyStr LLMProvider TextProcessingFacts.

Example setup_providers_ex :
  _setup_providers true false = [(lit "openai", true); (lit "gemini", false)].
Proof. reflexivity. Qed.

Lemma Qltb_nonneg q : (0 <= q)%Q -> Qltb q 0 = false.
Proof.
  intros H. unfold Qltb. apply negb_false_iff. now apply Qle_bool_iff.
Qed.

Lemma min_float_nonneg a b : (0 <= a)%Q -> (0 <= b)%Q -> (0 <= min_float a b)%Q.
Proof. intros Ha Hb. unfold min_float. now destruct (Qltb b a). Qed.

Lemma min_float_le_r a b : (min_float a b <= b)%Q.
Proof.
  unfold min_float. destruct (Qltb b a) eqn:E; [apply Qle_refl|].
  unfold Qltb in E. apply negb_false_iff in E. now apply Qle_bool_iff in E.
Qed.

(** *** Sleeping *)

Lemma Qltb_lt a b : Qltb a b = true <-> (a < b)%Q.
Proof.
  unfold Qltb. rewrite negb_true_iff. split.
  - intros H. apply Qnot_le_lt. intros Hle. apply Qle_bool_iff in Hle.
    congruence.
  - intros H. destruct (Qle_bool b a) eqn:E; [|reflexivity].
    apply Qle_bool_iff in E. exfalso. now apply (Qlt_not_le _ _ H).
Qed.

Lemma Qltb_ge a b : Qltb a b = false <-> (b <= a)%Q.
Proof. unfold Qltb. rewrite negb_false_iff. apply Qle_bool_iff. Qed.

Lemma fraction_bounds (r : fraction) :
  (0 <= fraction_value r)%Q /\ (fraction_value r < 1)%Q.
Proof.
  destruct r as [v H]. cbn. apply andb_true_iff in H as [H0 H1].
  split; [now apply Qle_bool_iff | now apply Qltb_lt].
Qed.

(** A length of 2^62 nanoseconds at most, either way, is one that
    [time.sleep] can count. *)
Lemma time_sleep_in_range secs :
  (- (2 ^ 62) <= secs * 10 ^ 9)%Q -> (secs * 10 ^ 9 <= 2 ^ 62)%Q ->
  time_sleep secs = if Qltb secs 0 then Some NegativeSleep else None.
Proof.
  intros Hlo Hhi. unfold time_sleep.
  pose proof (double_ge_opp_pow2 _ 62 ltac:(lia) Hlo) as H1.
  pose proof (double_le_pow2 _ 62 ltac:(lia) Hhi) as H2.
  set (d := TextProcessing.double (secs * 10 ^ 9)) in *.
  assert (E1 : Qltb d (- (2 ^ 63)) = false).
  { apply Qltb_ge. eapply Qle_trans; [|exact H1]. discriminate. }
  assert (E2 : Qltb (2 ^ 63) d = false).
  { apply Qltb_ge. eapply Qle_trans; [exact H2 | discriminate]. }
  assert (E3 : Qeq_bool d (2 ^ 63) = false).
  { destruct (Qeq_bool d (2 ^ 63)) eqn:E; [|reflexivity].
    apply Qeq_bool_eq in E. rewrite E in H2. exfalso. now apply H2. }
  rewrite E1, E2, E3. cbn [orb]. now rewrite orb_false_r.
Qed.

Lemma time_sleep_negative secs :
  (secs < 0)%Q ->
  exists e, time_sleep secs = Some e /\
            (e = NegativeSleep \/ e = SleepOverflow).
Proof.
  intros H. unfold time_sleep.
  destruct (_ || _); [eexists; split; eauto|].
  rewrite (proj2 (Qltb_lt _ _) H). cbn [orb]. eauto.
Qed.

(** The delay with its jitter, which is a tenth of it at most. *)
Lemma jitter_bounds (r : fraction) (delay : Q) :
  let secs := (delay + (0 + ((1 # 10) * delay - 0) * fraction_value r))%Q in
  ((0 <= delay)%Q -> (0 <= secs)%Q /\ (secs <= (11 # 10) * delay)%Q) /\
  ((delay < 0)%Q -> (secs < 0)%Q /\ ((11 # 10) * delay <= secs)%Q).
Proof.
  destruct (fraction_bounds r) as [H0 H1]. set (v := fraction_value r) in *.
  cbv zeta. split; intros Hd; split; nra.
Qed.

Lemma existsb_str_eqb p l : existsb (str_eqb p) l = true <-> In p l.
Proof.
  rewrite existsb_exists. split.
  - intros (x & Hx & E). apply str_eqb_eq in E. now subst.
  - intros H. exists p. split; [assumption | apply str_eqb_refl].
Qed.

Lemma attempts_app t1 t2 : attempts (t1 ++ t2) = attempts t1 ++ attempts t2.
Proof.
  induction t1 as [|[p r | d] t1 IH]; simpl; [reflexivity | now f_equal | assumption].
Qed.

Lemma last_failure_app t1 t2 acc :
  last_failure (t1 ++ t2) acc = last_failure t2 (last_failure t1 acc).
Proof.
  revert acc. induction t1 as [|[p [a | e] | d] t1 IH]; intros acc; simpl; auto.
Qed.

Section GatewayFacts.
Variable generate_with_openai generate_with_gemini :
  list event -> str -> Z -> Q -> result error str.
Variable random : list event -> fraction.
Variable cfg : config.
Variable providers : list (str * bool).

#[local] Abbreviation initialized := (initialized providers).
#[local] Abbreviation call := (call generate_with_openai generate_with_gemini).
#[local] Abbreviation retry_loop :=
  (retry_loop generate_with_openai generate_with_gemini random cfg).
#[local] Abbreviation uniform := (uniform random).
#[local] Abbreviation try_providers :=
  (try_providers generate_with_openai generate_with_gemini random cfg
     providers).
#[local] Abbreviation generate_text :=
  (generate_text generate_with_openai generate_with_gemini random cfg
     providers).
#[local] Abbreviation providers_to_try := (providers_to_try providers).
#[local] Abbreviation keys := (map fst providers).
#[local] Abbreviation other_ready := (other_ready providers).

(** The chain, in closed form. *)

Lemma chain_fold provider : forall (ks done : list str),
  NoDup ks -> (forall k, In k ks -> ~ In k done) ->
  fold_left
    (fun acc p =>
       if negb (existsb (str_eqb p) acc) && initialized p
       then acc ++ [p] else acc)
    ks (provider :: done)
  = provider :: done ++ filter (other_ready provider) ks.
Proof.
  induction ks as [|k ks IH]; intros done Hnd Hfresh; cbn [fold_left filter].
  - now rewrite app_nil_r.
  - inversion Hnd as [|? ? Hk Hnd']; subst.
    assert (Hc : negb (existsb (str_eqb k) (provider :: done)) && initialized k
                 = other_ready provider k).
    { destruct (existsb (str_eqb k) done) eqn:E.
      - apply existsb_str_eqb in E. exfalso. apply (Hfresh k); simpl; auto.
      - simpl. now rewrite E, orb_false_r. }
    rewrite Hc. destruct (other_ready provider k).
    + change ((provider :: done) ++ [k]) with (provider :: (done ++ [k])).
      rewrite IH; [rewrite <- app_assoc; reflexivity | assumption |].
      intros k' Hk' Hin. apply in_app_iff in Hin as [Hin | [-> | []]].
      * apply (Hfresh k'); simpl; auto.
      * contradiction.
    + apply IH; [assumption|]. intros k' Hk'. apply Hfresh. simpl. auto.
Qed.

Lemma providers_to_try_closed provider :
  NoDup keys ->
  providers_to_try provider
  = provider :: filter (other_ready provider) keys.
Proof.
  intros Hnd. unfold LLMProvider.providers_to_try.
  now rewrite (chain_fold provider keys []).
Qed.

Lemma initialized_In p : initialized p = true -> In p keys.
Proof.
  unfold LLMProvider.initialized, dict_get.
  destruct (dict_lookup providers p) as [v|] eqn:E; [|discriminate].
  intros _. apply dict_lookup_In in E.
  apply in_map_iff. now exists (p, v).
Qed.

(** Providers that are not initialized are passed over. *)
Lemma try_providers_ready fuel prompt max_tokens temperature :
  forall chain last_error history,
    try_providers fuel chain prompt max_tokens temperature last_error history
    = try_providers fuel (filter initialized chain) prompt max_tokens
        temperature last_error history.
Proof.
  induction chain as [|p chain IH]; intros last_error history; [reflexivity|].
  simpl. destruct (initialized p) eqn:E; simpl; [|apply IH].
  rewrite E. simpl.
  destruct (retry_loop fuel p prompt _ _ 0 _ last_error history)
    as [[[text | e | last] h]|]; try reflexivity.
  apply IH.
Qed.

(** What [time.sleep(delay + jitter)] does. *)

Lemma sleep_ok history delay :
  sleepable delay ->
  time_sleep (delay + uniform history 0 ((1 # 10) * delay)) = None.
Proof.
  intros [Hlo Hhi]. unfold LLMProvider.uniform.
  destruct (proj1 (jitter_bounds (random history) delay) Hlo) as [H0 H1].
  cbv zeta in H0, H1.
  set (secs := (delay + _)%Q) in *.
  assert (E9 : (10 ^ 9 == 1000000000)%Q) by reflexivity.
  assert (E62 : (2 ^ 62 == 4611686018427387904)%Q) by reflexivity.
  rewrite time_sleep_in_range.
  - now rewrite (proj2 (Qltb_ge _ _) H0).
  - rewrite E9, E62. rewrite E9 in Hhi. lra.
  - rewrite E9, E62. rewrite E9 in Hhi. lra.
Qed.

Lemma sleep_raises history delay :
  (delay < 0)%Q ->
  exists e,
    time_sleep (delay + uniform history 0 ((1 # 10) * delay)) = Some e /\
    (e = NegativeSleep \/ e = SleepOverflow) /\
    ((- (4 * 10 ^ 9) <= delay)%Q -> e = NegativeSleep).
Proof.
  intros Hd. unfold LLMProvider.uniform.
  destruct (proj2 (jitter_bounds (random history) delay) Hd) as [H0 H1].
  cbv zeta in H0, H1.
  set (secs := (delay + _)%Q) in *.
  destruct (time_sleep_negative secs H0) as (e & He & Hkind).
  exists e. split; [assumption|]. split; [assumption|].
  intros Hlo.
  assert (E9 : (10 ^ 9 == 1000000000)%Q) by reflexivity.
  assert (E62 : (2 ^ 62 == 4611686018427387904)%Q) by reflexivity.
  rewrite time_sleep_in_range in He.
  - rewrite (proj2 (Qltb_lt _ _) H0) in He. congruence.
  - rewrite E9, E62. rewrite E9 in Hlo. lra.
  - rewrite E9, E62. lra.
Qed.

Lemma sleep_nonneg history delay :
  time_sleep (delay + uniform history 0 ((1 # 10) * delay)) = None ->
  (0 <= delay)%Q.
Proof.
  intros H. destruct (Qlt_le_dec delay 0) as [Hd | Hd]; [|assumption].
  destruct (sleep_raises history delay Hd) as (e & He & _). congruence.
Qed.

Lemma min_float_sleepable a b :
  (0 <= a)%Q -> sleepable b -> sleepable (min_float a b).
Proof.
  intros Ha [Hb0 Hb1]. split; [now apply min_float_nonneg|].
  eapply Qle_trans; [apply min_float_le_r | assumption].
Qed.

(** The retry loop against a provider whose every call raises. *)

#[local] Abbreviation budget := (get (max_retries cfg) 5).

Lemma retry_loop_all_fail p prompt mt t :
  (forall h, exists e, call h p prompt mt t = Raise e) ->
  sleepable (get (max_delay cfg) 60%Q) ->
  forall (k fuel : nat) retries delay last history,
    sleepable delay -> k = Z.to_nat (budget - retries) -> (k <= fuel)%nat ->
    exists trace,
      retry_loop fuel p prompt mt t retries delay last history
      = Some (Exhausted (last_failure trace last), history ++ trace) /\
      attempts trace = repeat p k.
Proof.
  intros Hfail Hmax. induction k as [|k IH];
    intros fuel retries delay last history Hdelay Hk Hfuel.
  - exists []. rewrite app_nil_r. split; [|reflexivity].
    destruct fuel; simpl; destruct (Z.ltb_spec retries budget);
      try reflexivity; lia.
  - destruct fuel as [|fuel]; [lia|]. cbn [LLMProvider.retry_loop].
    destruct (Z.ltb_spec retries budget); [|lia].
    destruct (Hfail history) as [e He]. rewrite He.
    destruct (Z.eqb_spec (retries + 1) budget) as [Heq | Hne].
    + exists [Attempt p (Raise e)]. split; [reflexivity|].
      replace k with 0%nat by lia. reflexivity.
    + cbv zeta. rewrite (sleep_ok _ delay Hdelay).
      destruct (IH fuel (retries + 1)
                  (min_float (delay * 2)%Q (get (max_delay cfg) 60%Q)) (Some e)
                  ((history ++ [Attempt p (Raise e)]) ++ [Sleep delay]))
        as (trace & Hrun & Hatt); try lia.
      { apply min_float_sleepable; [|assumption].
        apply Qmult_le_0_compat; [apply Hdelay | discriminate]. }
      exists (Attempt p (Raise e) :: Sleep delay :: trace). split.
      * rewrite Hrun. f_equal. f_equal. now rewrite <- !app_assoc.
      * simpl. now f_equal.
Qed.

Lemma try_providers_all_fail fuel prompt max_tokens temperature :
  (forall h p mt t, initialized p = true ->
     exists e, call h p prompt mt t = Raise e) ->
  0 <= budget -> sleepable (get (initial_delay cfg) 1%Q) ->
  sleepable (get (max_delay cfg) 60%Q) ->
  (Z.to_nat budget <= fuel)%nat ->
  forall chain last history,
    Forall (fun p => initialized p = true) chain ->
    exists trace,
      try_providers fuel chain prompt max_tokens temperature last history
      = Some (Raise (AllProvidersFailed (last_failure trace last)),
              history ++ trace) /\
      attempts trace = flat_map (fun p => repeat p (Z.to_nat budget)) chain.
Proof.
  intros Hfail Hb Hinit Hmax Hfuel.
  induction chain as [|p chain IH]; intros last history Hready.
  - exists []. now rewrite app_nil_r.
  - inversion Hready as [|? ? Hp Hchain]; subst. simpl. rewrite Hp. simpl.
    destruct (retry_loop_all_fail p prompt
                (or_int max_tokens (get (provider_max_tokens cfg p) 4000))
                (or_float temperature
                   (get (provider_default_temperature cfg p) (7 # 10)))
                (fun h => Hfail h p _ _ Hp) Hmax
                (Z.to_nat budget) fuel 0 (get (initial_delay cfg) 1%Q)
                last history Hinit)
      as (trace1 & Hrun1 & Hatt1); [f_equal; lia | assumption |].
    rewrite Hrun1.
    destruct (IH (last_failure trace1 last) (history ++ trace1) Hchain)
      as (trace2 & Hrun2 & Hatt2).
    exists (trace1 ++ trace2). split.
    + rewrite Hrun2. now rewrite last_failure_app, app_assoc.
    + now rewrite attempts_app, Hatt1, Hatt2.
Qed.

(** Counting *)

Lemma count_occ_repeat (p q : str) n :
  count_occ str_eq_dec (repeat p n) q
  = if str_eq_dec p q then n else 0%nat.
Proof.
  induction n as [|n IH]; simpl.
  - now destruct (str_eq_dec p q).
  - rewrite IH. now destruct (str_eq_dec p q).
Qed.

Lemma count_occ_rounds (l : list str) n q :
  count_occ str_eq_dec (flat_map (fun p => repeat p n) l) q
  = (n * count_occ str_eq_dec l q)%nat.
Proof.
  induction l as [|p l IH]; simpl; [lia|].
  rewrite count_occ_app, IH, count_occ_repeat.
  destruct (str_eq_dec p q); lia.
Qed.

Lemma length_rounds (l : list str) n :
  length (flat_map (fun p => repeat p n) l) = (n * length l)%nat.
Proof.
  induction l as [|p l IH]; simpl; [lia|].
  rewrite length_app, repeat_length, IH. lia.
Qed.

Lemma count_occ_filter_if (f : str -> bool) l q :
  count_occ str_eq_dec (filter f l) q
  = if f q then count_occ str_eq_dec l q else 0%nat.
Proof.
  induction l as [|x l IH]; simpl; [now destruct (f q)|].
  destruct (f x) eqn:Ex; simpl; rewrite IH;
    destruct (str_eq_dec x q) as [-> | Hne]; try reflexivity.
  - now rewrite Ex.
  - now rewrite Ex.
Qed.

Lemma count_occ_key q :
  NoDup keys -> initialized q = true -> count_occ str_eq_dec keys q = 1%nat.
Proof.
  intros Hnd Hq. apply initialized_In in Hq.
  apply (count_occ_In str_eq_dec) in Hq.
  pose proof (proj1 (NoDup_count_occ str_eq_dec keys) Hnd q). lia.
Qed.

Lemma ready_chain_count provider q :
  NoDup keys ->
  count_occ str_eq_dec (filter initialized (providers_to_try provider)) q
  = if initialized q then 1%nat else 0%nat.
Proof.
  intros Hnd. rewrite count_occ_filter_if.
  destruct (initialized q) eqn:Hq; [|reflexivity].
  rewrite providers_to_try_closed by assumption. simpl.
  rewrite count_occ_filter_if. unfold other_ready.
  destruct (str_eq_dec provider q) as [-> | Hne].
  - now rewrite str_eqb_refl.
  - rewrite str_eqb_neq by congruence. simpl. rewrite Hq.
    now apply count_occ_key.
Qed.

Lemma ready_chain_length provider :
  NoDup keys ->
  length (filter initialized (providers_to_try provider))
  = length (filter initialized keys).
Proof.
  intros Hnd. apply Permutation_length.
  apply (Permutation_count_occ str_eq_dec). intros q.
  rewrite ready_chain_count by assumption.
  rewrite count_occ_filter_if.
  destruct (initialized q) eqn:Hq; [|reflexivity].
  symmetry. now apply count_occ_key.
Qed.

(** C1 (as amended). When every call to every initialized provider
    raises, [max_retries] is not negative, and [initial_delay] and
    [max_delay] are lengths that [time.sleep] takes (between 0 and 4e9
    seconds), [generate_text] raises the one exception 'all providers
    failed', after exactly [max_retries] attempts against each initialized
    provider and none against any other, [max_retries] times the number of
    initialized providers in all; the exception carries the error of the
    last failed attempt. *)
Theorem generate_text_all_fail prompt provider max_tokens temperature history :
  NoDup keys ->
  0 <= budget ->
  sleepable (get (initial_delay cfg) 1%Q) ->
  sleepable (get (max_delay cfg) 60%Q) ->
  (forall h p mt t, initialized p = true ->
     exists e, call h p prompt mt t = Raise e) ->
  forall fuel, (Z.to_nat budget <= fuel)%nat ->
  exists trace,
    generate_text fuel prompt provider max_tokens temperature history
    = Some (Raise (AllProvidersFailed (last_failure trace None)),
            history ++ trace) /\
    (forall p, Z.of_nat (count_occ str_eq_dec (attempts trace) p)
               = if initialized p then budget else 0) /\
    Z.of_nat (length (attempts trace))
    = budget * Z.of_nat (length (filter initialized keys)).
Proof.
  intros Hnd Hb Hinit Hmax Hfail fuel Hfuel.
  unfold LLMProvider.generate_text. rewrite try_providers_ready.
  destruct (try_providers_all_fail fuel prompt max_tokens temperature
              Hfail Hb Hinit Hmax Hfuel
              (filter initialized (providers_to_try (resolve cfg provider)))
              None history) as (trace & Hrun & Hatt).
  { apply Forall_forall. intros p Hp. now apply filter_In in Hp. }
  exists trace. split; [assumption|]. rewrite Hatt. split.
  - intros p. rewrite count_occ_rounds, ready_chain_count by assumption.
    destruct (initialized p); lia.
  - rewrite length_rounds, ready_chain_length by assumption. lia.
Qed.

(** C2 (as amended). With two initialized providers in the chain, the
    first of which raises at every call and the second of which returns at
    every call, with a retry budget of at least one attempt and with an
    [initial_delay] and a [max_delay] that [time.sleep] takes (between 0
    and 4e9 seconds), [generate_text] returns what the second provider
    returned, after [max_retries] failed attempts against the first.  The
    chain is the requested provider followed by the other initialized
    providers in the order of the dictionary. *)
Theorem generate_text_failover prompt provider max_tokens temperature history
    first second :
  NoDup keys ->
  1 <= budget ->
  sleepable (get (initial_delay cfg) 1%Q) ->
  sleepable (get (max_delay cfg) 60%Q) ->
  filter initialized (providers_to_try (resolve cfg provider))
  = [first; second] ->
  (forall h mt t, exists e, call h first prompt mt t = Raise e) ->
  (forall h mt t, exists r, call h second prompt mt t = Ok r) ->
  forall fuel, (Z.to_nat budget <= fuel)%nat ->
  providers_to_try (resolve cfg provider)
  = resolve cfg provider
    :: filter (fun p => negb (str_eqb p (resolve cfg provider))
                        && initialized p) keys /\
  exists trace reply,
    generate_text fuel prompt provider max_tokens temperature history
    = Some (Ok reply, history ++ trace ++ [Attempt second (Ok reply)]) /\
    attempts trace = repeat first (Z.to_nat budget) /\
    exists mt t, call (history ++ trace) second prompt mt t = Ok reply.
Proof.
  intros Hnd Hb Hinit Hmax Hchain Hfirst Hsecond fuel Hfuel.
  split; [now apply providers_to_try_closed|].
  assert (H1 : initialized first = true).
  { assert (H : In first [first; second]) by (simpl; auto).
    rewrite <- Hchain in H. now apply filter_In in H. }
  assert (H2 : initialized second = true).
  { assert (H : In second [first; second]) by (simpl; auto).
    rewrite <- Hchain in H. now apply filter_In in H. }
  unfold LLMProvider.generate_text. rewrite try_providers_ready, Hchain.
  simpl. rewrite H1, H2. simpl.
  destruct (retry_loop_all_fail first prompt
              (or_int max_tokens (get (provider_max_tokens cfg first) 4000))
              (or_float temperature
                 (get (provider_default_temperature cfg first) (7 # 10)))
              (fun h => Hfirst h _ _) Hmax
              (Z.to_nat budget) fuel 0 (get (initial_delay cfg) 1%Q)
              None history Hinit)
    as (trace & Hrun & Hatt); [f_equal; lia | assumption |].
  rewrite Hrun.
  destruct fuel as [|fuel]; [lia|]. simpl.
  destruct (Z.ltb_spec 0 budget); [|lia].
  destruct (Hsecond (history ++ trace)
              (or_int max_tokens (get (provider_max_tokens cfg second) 4000))
              (or_float temperature
                 (get (provider_default_temperature cfg second) (7 # 10))))
    as [reply Hreply].
  rewrite Hreply. exists trace, reply. split; [|split].
  - now rewrite app_assoc.
  - assumption.
  - eauto.
Qed.

End GatewayFacts.

Example failover_trace :
  generate_text always_down always_up half_jitter two_attempts
    (_setup_providers true true) 2 (lit "Once") None None None []
  = Some (Ok (lit "echo: Once"),
          [ Attempt (lit "openai") (Raise (BackendError (lit "503")));
            Sleep 1;
            Attempt (lit "openai") (Raise (BackendError (lit "503")));
            Attempt (lit "gemini") (Ok (lit "echo: Once")) ]).
Proof. vm_compute. reflexivity. Qed.

Example time_sleep_ex :
  time_sleep (21 # 20) = None /\
  time_sleep (- (1 # 2)) = Some NegativeSleep /\
  time_sleep (10 ^ 10) = Some SleepOverflow /\
  time_sleep (- (10 ^ 10)) = Some SleepOverflow.
Proof. repeat split; vm_compute; reflexivity. Qed.

Example preferred_provider_first :
  providers_to_try (_setup_providers true true) (lit "gemini")
  = [lit "gemini"; lit "openai"].
Proof. reflexivity. Qed.

Example no_provider_ready :
  generate_text always_up always_up no_jitter two_attempts
    (_setup_providers false false) 2 (lit "Once") None None None []
  = Some (Raise (AllProvidersFailed None), []).
Proof. reflexivity. Qed.

Lemma both_ready_NoDup : NoDup (map fst (_setup_providers true true)).
Proof. repeat constructor; simpl; intuition discriminate. Qed.

Lemma generate_text_all_fail_witness :
  exists trace,
    generate_text always_down always_down no_jitter two_attempts
      (_setup_providers true true) 2 (lit "Once") None None None []
    = Some (Raise (AllProvidersFailed (last_failure trace None)), [] ++ trace)
    /\ (forall p, Z.of_nat (count_occ str_eq_dec (attempts trace) p)
                  = if initialized (_setup_providers true true) p
                    then 2 else 0)
    /\ Z.of_nat (length (attempts trace)) = 2 * 2.
Proof.
  apply (generate_text_all_fail always_down always_down no_jitter two_attempts
           (_setup_providers true true) (lit "Once") None None None []).
  - exact both_ready_NoDup.
  - simpl. lia.
  - split; vm_compute; discriminate.
  - split; vm_compute; discriminate.
  - intros h p mt t _. unfold call, always_down.
    destruct (str_eqb p (lit "openai")); [now eexists|].
    destruct (str_eqb p (lit "gemini")); now eexists.
  - simpl. lia.
Defined.

(** With a negative initial delay, and with one of 1e10 seconds, the first
    failure ends the call with the error of [time.sleep], after a single
    attempt. *)
Lemma generate_text_all_fail_counterexample :
  generate_text always_down always_down half_jitter negative_delay
    (_setup_providers true true) 5 (lit "Once") None None None []
  = Some (Raise NegativeSleep,
          [Attempt (lit "openai") (Raise (BackendError (lit "503")))]) /\
  generate_text always_down always_down half_jitter endless_delay
    (_setup_providers true true) 5 (lit "Once") None None None []
  = Some (Raise SleepOverflow,
          [Attempt (lit "openai") (Raise (BackendError (lit "503")))]).
Proof. split; vm_compute; reflexivity. Qed.

Lemma generate_text_failover_witness :
  exists trace reply,
    generate_text always_down always_up no_jitter two_attempts
      (_setup_providers true true) 2 (lit "Once") None None None []
    = Some (Ok reply, [] ++ trace ++ [Attempt (lit "gemini") (Ok reply)]) /\
    attempts trace = repeat (lit "openai") 2 /\
    exists mt t,
      call always_down always_up ([] ++ trace) (lit "gemini") (lit "Once") mt t
      = Ok reply.
Proof.
  apply (generate_text_failover always_down always_up no_jitter two_attempts
           (_setup_providers true true) (lit "Once") None None None []
           (lit "openai") (lit "gemini")).
  - exact both_ready_NoDup.
  - simpl. lia.
  - split; vm_compute; discriminate.
  - split; vm_compute; discriminate.
  - reflexivity.
  - intros h mt t. now eexists.
  - intros h mt t. now eexists.
  - simpl. lia.
Defined.

(** Without a retry budget the second provider is not called, although it
    would answer; with a negative initial delay, and with one of 1e10
    seconds, the first failure of the first provider ends the call with
    the error of [time.sleep]. *)
Lemma generate_text_failover_counterexample :
  generate_text always_down always_up half_jitter no_attempts
    (_setup_providers true true) 5 (lit "Once") None None None []
  = Some (Raise (AllProvidersFailed None), []) /\
  generate_text always_down always_up half_jitter negative_delay
    (_setup_providers true true) 5 (lit "Once") None None None []
  = Some (Raise NegativeSleep,
          [Attempt (lit "openai") (Raise (BackendError (lit "503")))]) /\
  generate_text always_down always_up half_jitter endless_delay
    (_setup_providers true true) 5 (lit "Once") None None None []
  = Some (Raise SleepOverflow,
          [Attempt (lit "openai") (Raise (BackendError (lit "503")))]).
Proof. split; [|split]; vm_compute; reflexivity. Qed.

(** *** Whatever the backends do *)

Lemma sleeps_app t1 t2 : sleeps (t1 ++ t2) = sleeps t1 ++ sleeps t2.
Proof.
  induction t1 as [|[p r | d] t1 IH]; simpl; [reflexivity | assumption |].
  now rewrite IH.
Qed.

Section GatewayInvariants.
Variable generate_with_openai generate_with_gemini :
  list event -> str -> Z -> Q -> result error str.
Variable random : list event -> fraction.
Variable cfg : config.
Variable providers : list (str * bool).

#[local] Abbreviation initialized := (initialized providers).
#[local] Abbreviation call := (call generate_with_openai generate_with_gemini).
#[local] Abbreviation retry_loop :=
  (retry_loop generate_with_openai generate_with_gemini random cfg).
#[local] Abbreviation uniform := (uniform random).
#[local] Abbreviation try_providers :=
  (try_providers generate_with_openai generate_with_gemini random cfg
     providers).
#[local] Abbreviation generate_text :=
  (generate_text generate_with_openai generate_with_gemini random cfg
     providers).
#[local] Abbreviation providers_to_try := (providers_to_try providers).
#[local] Abbreviation keys := (map fst providers).
#[local] Abbreviation budget := (get (max_retries cfg) 5).
#[local] Abbreviation cap := (get (max_delay cfg) 60%Q).

(** *** Without a retry budget *)

Lemma retry_loop_no_budget fuel p prompt mt t delay last history :
  budget <= 0 ->
  retry_loop fuel p prompt mt t 0 delay last history
  = Some (Exhausted last, history).
Proof.
  intros Hb. destruct fuel; simpl; destruct (Z.ltb_spec 0 budget);
    try reflexivity; lia.
Qed.

(** X6. With [max_retries <= 0] no backend is ever called:
    [generate_text] raises "all providers failed", with no last error,
    whatever the providers are and would answer. *)
Theorem generate_text_no_budget fuel prompt provider max_tokens temperature
    history :
  budget <= 0 ->
  generate_text fuel prompt provider max_tokens temperature history
  = Some (Raise (AllProvidersFailed None), history).
Proof.
  intros Hb. unfold LLMProvider.generate_text.
  generalize (providers_to_try (resolve cfg provider)).
  induction l as [|p chain IH]; [reflexivity|].
  simpl. destruct (initialized p); simpl; [|exact IH].
  rewrite retry_loop_no_budget by assumption. exact IH.
Qed.

(** *** Whatever the backends answer *)

Lemma retry_loop_trace p prompt mt t :
  forall (k fuel : nat) retries delay last history,
    k = Z.to_nat (budget - retries) -> (k <= fuel)%nat ->
    exists exit trace,
      retry_loop fuel p prompt mt t retries delay last history
      = Some (exit, history ++ trace) /\
      attempts trace = repeat p (length (attempts trace)) /\
      (length (attempts trace) <= k)%nat /\
      (retries < budget -> (1 <= length (attempts trace))%nat) /\
      sleeps trace = backoff cap delay (length (sleeps trace)) /\
      Forall (fun d => (0 <= d)%Q) (sleeps trace) /\
      (length (sleeps trace) <= length (attempts trace) - 1)%nat /\
      match exit with
      | Return text =>
          exists before,
            trace = before ++ [Attempt p (Ok text)] /\ Forall failure before
      | Propagate _ => Forall failure trace
      | Exhausted e => Forall failure trace /\ e = last_failure trace last
      end.
Proof.
  induction k as [|k IH]; intros fuel retries delay last history Hk Hfuel.
  - exists (Exhausted last), []. rewrite app_nil_r.
    assert (E : retry_loop fuel p prompt mt t retries delay last history
                = Some (Exhausted last, history)).
    { destruct fuel; simpl; destruct (Z.ltb_spec retries budget);
        try reflexivity; lia. }
    rewrite E. simpl. repeat split; auto. lia.
  - destruct fuel as [|fuel]; [lia|]. cbn [LLMProvider.retry_loop].
    destruct (Z.ltb_spec retries budget); [|lia].
    destruct (call history p prompt mt t) as [text | e] eqn:Hcall.
    + exists (Return text), [Attempt p (Ok text)]. simpl.
      repeat split; auto; try lia. exists []. split; [reflexivity | constructor].
    + destruct (Z.eqb_spec (retries + 1) budget) as [Heq | Hne].
      * exists (Exhausted (Some e)), [Attempt p (Raise e)]. simpl.
        repeat split; auto; try lia. repeat constructor.
      * cbv zeta. destruct (time_sleep _) as [ex|] eqn:Hd.
        -- exists (Propagate ex), [Attempt p (Raise e)]. simpl.
           repeat split; auto; try lia. repeat constructor.
        -- destruct (IH fuel (retries + 1) (min_float (delay * 2)%Q cap)
                       (Some e)
                       ((history ++ [Attempt p (Raise e)]) ++ [Sleep delay]))
             as (exit & trace & Hrun & Hatt & Hlen & Hone & Hsl & Hpos & Hcnt
                 & Hexit);
             try lia.
           exists exit, (Attempt p (Raise e) :: Sleep delay :: trace).
           rewrite Hrun. split; [now rewrite <- !app_assoc|].
           simpl. split; [now f_equal|]. split; [lia|]. split; [lia|].
           split; [now f_equal|]. split.
           { constructor; [|assumption]. now apply sleep_nonneg in Hd. }
           split; [lia|].
           destruct exit as [text | ex | last'].
           ++ destruct Hexit as (before & -> & Hb).
              exists (Attempt p (Raise e) :: Sleep delay :: before).
              split; [reflexivity|]. repeat constructor. assumption.
           ++ repeat constructor. assumption.
           ++ destruct Hexit as [Hf ->]. split; [|reflexivity].
              repeat constructor. assumption.
Qed.

Lemma backoff_capped c n : forall d,
  Forall (fun x => (x <= c)%Q) (backoff c (min_float (d * 2) c) n).
Proof.
  induction n as [|n IH]; intros d; [constructor|]. simpl.
  constructor; [apply min_float_le_r | apply IH].
Qed.

Lemma backoff_bounded c d n :
  Forall (fun x => (0 <= x)%Q) (backoff c d n) ->
  Forall (fun x => (0 <= x)%Q /\ ((x <= d)%Q \/ (x <= c)%Q)) (backoff c d n).
Proof.
  destruct n as [|n]; [constructor|]. simpl. intros H.
  inversion H as [|? ? H0 Hrest]; subst.
  constructor; [split; [assumption | left; apply Qle_refl]|].
  pose proof (backoff_capped c n d) as Hcap.
  rewrite Forall_forall in *. intros x Hx. split; [now apply Hrest|].
  right. now apply Hcap.
Qed.

(** The chain of providers, one retry loop after the other. *)
Lemma try_providers_trace fuel prompt max_tokens temperature :
  (Z.to_nat budget <= fuel)%nat ->
  forall chain last history,
    exists r trace,
      try_providers fuel chain prompt max_tokens temperature last history
      = Some (r, history ++ trace) /\
      Forall (fun p => In p chain /\ initialized p = true) (attempts trace) /\
      (NoDup chain ->
       forall p, Z.of_nat (count_occ str_eq_dec (attempts trace) p)
                 <= Z.max 0 budget) /\
      Forall (fun d => (0 <= d)%Q /\
                       ((d <= get (initial_delay cfg) 1)%Q \/ (d <= cap)%Q))
             (sleeps trace) /\
      match r with
      | Ok text =>
          exists before p,
            trace = before ++ [Attempt p (Ok text)] /\ Forall failure before
      | Raise _ => Forall failure trace
      end.
Proof.
  intros Hfuel. induction chain as [|p chain IH]; intros last history.
  - exists (Raise (AllProvidersFailed last)), []. rewrite app_nil_r. simpl.
    repeat split; auto. intros _ q. lia.
  - simpl. destruct (initialized p) eqn:Hp; simpl.
    + destruct (retry_loop_trace p prompt
                  (or_int max_tokens (get (provider_max_tokens cfg p) 4000))
                  (or_float temperature
                     (get (provider_default_temperature cfg p) (7 # 10)))
                  (Z.to_nat budget) fuel 0 (get (initial_delay cfg) 1%Q)
                  last history)
        as (exit & trace1 & Hrun & Hatt & Hlen & _ & Hsl & Hpos & _ & Hexit);
        [f_equal; lia | assumption |].
      rewrite Hrun.
      assert (Hon : Forall (fun q => In q (p :: chain) /\ initialized q = true)
                      (attempts trace1)).
      { rewrite Hatt. apply Forall_forall. intros q Hq.
        apply repeat_spec in Hq. subst q. simpl. auto. }
      assert (Hcount : forall q,
                 Z.of_nat (count_occ str_eq_dec (attempts trace1) q)
                 <= Z.max 0 budget /\
                 (q <> p -> count_occ str_eq_dec (attempts trace1) q = 0%nat)).
      { intros q. rewrite Hatt, count_occ_repeat.
        destruct (str_eq_dec p q); split; try lia; congruence. }
      assert (Hbound : Forall (fun d => (0 <= d)%Q /\
                          ((d <= get (initial_delay cfg) 1)%Q \/ (d <= cap)%Q))
                         (sleeps trace1)).
      { rewrite Hsl in Hpos |- *. now apply backoff_bounded. }
      destruct exit as [text | ex | last'].
      * exists (Ok text), trace1. split; [reflexivity|].
        split; [assumption|]. split; [intros _ q; apply Hcount|].
        split; [assumption|].
        destruct Hexit as (before & -> & Hb). now exists before, p.
      * exists (Raise ex), trace1. split; [reflexivity|].
        split; [assumption|]. split; [intros _ q; apply Hcount|].
        split; assumption.
      * destruct (IH last' (history ++ trace1))
          as (r & trace2 & Hrun2 & Hon2 & Hcount2 & Hbound2 & Hr).
        exists r, (trace1 ++ trace2). rewrite Hrun2.
        split; [now rewrite app_assoc|].
        rewrite attempts_app, sleeps_app. split.
        { apply Forall_app. split; [assumption|].
          eapply Forall_impl; [|exact Hon2]. simpl. intros q [Hq1 Hq2]. auto. }
        split.
        { intros Hnd q. inversion Hnd as [|? ? Hnp Hnd']; subst.
          rewrite count_occ_app. destruct (str_eq_dec q p) as [-> | Hne].
          - assert (E : count_occ str_eq_dec (attempts trace2) p = 0%nat).
            { apply count_occ_not_In. intros Hin.
              rewrite Forall_forall in Hon2. apply Hon2 in Hin as [Hin _].
              contradiction. }
            rewrite E. pose proof (proj1 (Hcount p)). lia.
          - rewrite (proj2 (Hcount q) Hne). simpl. now apply Hcount2. }
        split; [apply Forall_app; now split|].
        destruct Hexit as [Hf _]. destruct r as [text | ex].
        -- destruct Hr as (before & q & -> & Hb).
           exists (trace1 ++ before), q. split; [now rewrite app_assoc|].
           apply Forall_app. now split.
        -- apply Forall_app. now split.
    + destruct (IH last history) as (r & trace & Hrun & Hon & Hcount & Hbound & Hr).
      exists r, trace. split; [assumption|]. split.
      { eapply Forall_impl; [|exact Hon]. simpl. intros q [Hq1 Hq2]. auto. }
      split; [|split; assumption].
      intros Hnd. inversion Hnd; subst. now apply Hcount.
Qed.

Lemma providers_to_try_NoDup provider :
  NoDup keys -> NoDup (filter initialized (providers_to_try provider)).
Proof.
  intros Hnd. apply (NoDup_count_occ str_eq_dec). intros q.
  rewrite (ready_chain_count providers provider q Hnd).
  destruct (initialized q); lia.
Qed.

(** X7. Whatever the backends answer, [generate_text] returns or raises
    once every retry loop has the fuel of its budget; it attempts
    initialized providers only, none more than [max_retries] times, and
    every attempt but the one whose reply is returned has failed. *)
Theorem generate_text_attempts prompt provider max_tokens temperature history :
  NoDup keys ->
  forall fuel, (Z.to_nat budget <= fuel)%nat ->
  exists r trace,
    generate_text fuel prompt provider max_tokens temperature history
    = Some (r, history ++ trace) /\
    Forall (fun p => initialized p = true) (attempts trace) /\
    (forall p, Z.of_nat (count_occ str_eq_dec (attempts trace) p)
               <= Z.max 0 budget) /\
    match r with
    | Ok text =>
        exists before p,
          trace = before ++ [Attempt p (Ok text)] /\ Forall failure before
    | Raise _ => Forall failure trace
    end.
Proof.
  intros Hnd fuel Hfuel. unfold LLMProvider.generate_text.
  rewrite (try_providers_ready generate_with_openai generate_with_gemini random
             cfg).
  destruct (try_providers_trace fuel prompt max_tokens temperature Hfuel
              (filter initialized (providers_to_try (resolve cfg provider)))
              None history)
    as (r & trace & Hrun & Hon & Hcount & _ & Hr).
  exists r, trace. split; [assumption|]. split.
  - eapply Forall_impl; [|exact Hon]. simpl. now intros q [_ Hq].
  - split; [|assumption]. apply Hcount. now apply providers_to_try_NoDup.
Qed.

(** X8. The sleeps of one retry loop are the backoff that starts at the
    delay the loop was entered with and doubles up to [max_delay]; there is
    no sleep after the last attempt.  No sleep of [generate_text] is
    negative or longer (before jitter) than the larger of [initial_delay]
    and [max_delay]. *)
Theorem generate_text_backoff prompt max_tokens temperature history :
  (forall p mt t retries delay last fuel,
     (Z.to_nat (budget - retries) <= fuel)%nat ->
     exists exit trace,
       retry_loop fuel p prompt mt t retries delay last history
       = Some (exit, history ++ trace) /\
       sleeps trace = backoff cap delay (length (sleeps trace)) /\
       (length (sleeps trace) <= length (attempts trace) - 1)%nat) /\
  (forall provider fuel,
     (Z.to_nat budget <= fuel)%nat ->
     exists r trace,
       generate_text fuel prompt provider max_tokens temperature history
       = Some (r, history ++ trace) /\
       Forall (fun d => (0 <= d)%Q /\
                        ((d <= get (initial_delay cfg) 1)%Q \/ (d <= cap)%Q))
              (sleeps trace)).
Proof.
  split.
  - intros p mt t retries delay last fuel Hfuel.
    destruct (retry_loop_trace p prompt mt t _ fuel retries delay last history
                eq_refl Hfuel)
      as (exit & trace & Hrun & _ & _ & _ & Hsl & _ & Hcnt & _).
    now exists exit, trace.
  - intros provider fuel Hfuel. unfold LLMProvider.generate_text.
    destruct (try_providers_trace fuel prompt max_tokens temperature Hfuel
                (providers_to_try (resolve cfg provider)) None history)
      as (r & trace & Hrun & _ & _ & Hbound & _).
    now exists r, trace.
Qed.

(** *** Falsy arguments *)

Lemma try_providers_zero fuel prompt max_tokens temperature q :
  (q == 0)%Q ->
  forall chain last history,
    try_providers fuel chain prompt (Some 0) (Some q) last history
    = try_providers fuel chain prompt None None last history /\
    try_providers fuel chain prompt max_tokens (Some q) last history
    = try_providers fuel chain prompt max_tokens None last history /\
    try_providers fuel chain prompt (Some 0) temperature last history
    = try_providers fuel chain prompt None temperature last history.
Proof.
  intros Hq.
  assert (E : forall y, or_float (Some q) y = y).
  { intros y. unfold or_float.
    now rewrite (proj2 (Qeq_bool_iff q 0) Hq). }
  induction chain as [|p chain IH]; intros last history; [now repeat split|].
  assert (E1 : forall y, or_float None y = y) by reflexivity.
  assert (E2 : forall y, or_int None y = y) by reflexivity.
  assert (E3 : forall y, or_int (Some 0) y = y) by reflexivity.
  cbn [LLMProvider.try_providers]. rewrite !E, !E1, !E2, !E3.
  destruct (initialized p); cbn [negb]; [|apply IH].
  repeat split;
    match goal with
    | |- context [retry_loop ?f ?p ?pr ?mt ?t ?r ?d ?l ?h] =>
        destruct (retry_loop f p pr mt t r d l h) as [[[text | ex | last'] h']|];
        try reflexivity; apply IH
    end.
Qed.

(** X9. A [temperature] of 0 and a [max_tokens] of 0 count as not given:
    the call behaves as one without them, and the backends get the
    defaults of the configuration. *)
Theorem generate_text_zero_is_unset
    fuel prompt provider max_tokens temperature history q :
  (q == 0)%Q ->
  generate_text fuel prompt provider max_tokens (Some q) history
  = generate_text fuel prompt provider max_tokens None history /\
  generate_text fuel prompt provider (Some 0) temperature history
  = generate_text fuel prompt provider None temperature history.
Proof.
  intros Hq. unfold LLMProvider.generate_text.
  destruct (try_providers_zero fuel prompt max_tokens temperature q Hq
              (providers_to_try (resolve cfg provider)) None history)
    as (_ & H1 & H2).
  now split.
Qed.

(** *** A negative delay *)

Lemma providers_to_try_head provider :
  exists rest, providers_to_try provider = provider :: rest.
Proof.
  unfold LLMProvider.providers_to_try.
  assert (H : forall ks done, exists rest,
             fold_left
               (fun acc p =>
                  if negb (existsb (str_eqb p) acc) && initialized p
                  then acc ++ [p] else acc)
               ks (provider :: done)
             = provider :: rest).
  { induction ks as [|k ks IH]; intros done; simpl; [now exists done|].
    destruct (negb _ && initialized k); [apply (IH (done ++ [k])) | apply IH]. }
  apply H.
Qed.

(** X10. With a negative [initial_delay] and a budget of two attempts or
    more, the first failure of an initialized preferred provider ends
    [generate_text] with the error of [time.sleep]: there is no second
    attempt and no failover.  The error is the [ValueError] of a negative
    length when [initial_delay] is -4e9 seconds or more, and that or the
    [OverflowError] of a length out of range below that. *)
Theorem generate_text_negative_delay
    prompt provider max_tokens temperature history e :
  let p := resolve cfg provider in
  initialized p = true ->
  2 <= budget ->
  (get (initial_delay cfg) 1 < 0)%Q ->
  call history p prompt
    (or_int max_tokens (get (provider_max_tokens cfg p) 4000))
    (or_float temperature (get (provider_default_temperature cfg p) (7 # 10)))
  = Raise e ->
  forall fuel, (1 <= fuel)%nat ->
  exists ex,
    generate_text fuel prompt provider max_tokens temperature history
    = Some (Raise ex, history ++ [Attempt p (Raise e)]) /\
    (ex = NegativeSleep \/ ex = SleepOverflow) /\
    ((- (4 * 10 ^ 9) <= get (initial_delay cfg) 1)%Q -> ex = NegativeSleep).
Proof.
  intros p Hp Hb Hd Hcall fuel Hfuel. unfold LLMProvider.generate_text.
  fold p. destruct (providers_to_try_head p) as [rest ->].
  cbn [LLMProvider.try_providers]. rewrite Hp. cbn [negb].
  destruct fuel as [|fuel]; [lia|]. cbn [LLMProvider.retry_loop].
  destruct (Z.ltb_spec 0 budget); [|lia].
  rewrite Hcall. destruct (Z.eqb_spec (0 + 1) budget); [lia|].
  cbv zeta.
  destruct (sleep_raises random (history ++ [Attempt p (Raise e)])
              (get (initial_delay cfg) 1%Q) Hd) as (ex & Hex & Hkind & Hval).
  rewrite Hex. exists ex. now repeat split.
Qed.

End GatewayInvariants.

Lemma generate_text_no_budget_witness :
  generate_text always_up always_up no_jitter no_attempts (_setup_providers true true)
    3 (lit "Once") None None None []
  = Some (Raise (AllProvidersFailed None), []).
Proof.
  apply (generate_text_no_budget always_up always_up no_jitter no_attempts
           (_setup_providers true true) 3 (lit "Once") None None None []).
  simpl. lia.
Defined.

Lemma generate_text_attempts_witness :
  exists r trace,
    generate_text always_down always_up no_jitter two_attempts
      (_setup_providers true true) 2 (lit "Once") None None None []
    = Some (r, [] ++ trace) /\
    Forall (fun p => initialized (_setup_providers true true) p = true)
           (attempts trace) /\
    (forall p, Z.of_nat (count_occ str_eq_dec (attempts trace) p)
               <= Z.max 0 2) /\
    match r with
    | Ok text =>
        exists before p,
          trace = before ++ [Attempt p (Ok text)] /\ Forall failure before
    | Raise _ => Forall failure trace
    end.
Proof.
  apply (generate_text_attempts always_down always_up no_jitter two_attempts
           (_setup_providers true true) (lit "Once") None None None []
           both_ready_NoDup 2%nat).
  simpl. lia.
Defined.

Lemma generate_text_backoff_witness :
  exists r trace,
    generate_text always_down always_up no_jitter two_attempts
      (_setup_providers true true) 2 (lit "Once") None None None []
    = Some (r, [] ++ trace) /\
    Forall (fun d => (0 <= d)%Q /\ ((d <= 1)%Q \/ (d <= 60)%Q)) (sleeps trace).
Proof.
  apply (proj2 (generate_text_backoff always_down always_up no_jitter two_attempts
                  (_setup_providers true true) (lit "Once") None None [])
               None 2%nat).
  simpl. lia.
Defined.

Lemma generate_text_zero_is_unset_witness :
  generate_text always_down always_up no_jitter two_attempts (_setup_providers true true)
    2 (lit "Once") None None (Some (0 # 5)) []
  = generate_text always_down always_up no_jitter two_attempts
      (_setup_providers true true) 2 (lit "Once") None None None [].
Proof.
  apply (proj1 (generate_text_zero_is_unset always_down always_up no_jitter two_attempts
                  (_setup_providers true true) 2 (lit "Once") None None None
                  [] (0 # 5) eq_refl)).
Defined.

Lemma generate_text_negative_delay_witness :
  exists ex,
    generate_text always_down always_up half_jitter negative_delay
      (_setup_providers true true) 1 (lit "Once") None None None []
    = Some (Raise ex,
            [] ++ [Attempt (lit "openai") (Raise (BackendError (lit "503")))])
    /\ (ex = NegativeSleep \/ ex = SleepOverflow)
    /\ ((- (4 * 10 ^ 9) <= -1)%Q -> ex = NegativeSleep).
Proof.
  apply (generate_text_negative_delay always_down always_up half_jitter
           negative_delay (_setup_providers true true) (lit "Once")
           None None None [] (BackendError (lit "503")));
    try reflexivity; simpl; lia.
Defined.

End LLMProviderFacts.

(* ------------------------------------------------------------------ *)

Module WriterFacts.
Import PyStr LLMProvider Writer.

Section AgentFacts.
Variable World : Type.
Variable generate_text :
  str -> option str -> option Z -> option Q ->
  World -> result LLMProvider.exn str * World.
Variable self : agent.

#[local] Abbreviation generate := (generate World generate_text self).
#[local] Abbreviation more_chunks := (more_chunks World generate_text self).
#[local] Abbreviation _write_long_chapter :=
  (_write_long_chapter World generate_text self).
#[local] Abbreviation write_chapter := (write_chapter World generate_text self).

Lemma generate_calls prompt max_tokens temperature provider st :
  exists reply,
    fst (generate prompt max_tokens temperature provider st) = surfaced reply /\
    gateway_calls (snd (generate prompt max_tokens temperature provider st))
    = gateway_calls st ++ [(prompt, reply)].
Proof.
  unfold Writer.generate.
  destruct (generate_text prompt _ max_tokens _ (world st)) as [reply w].
  exists reply. split; reflexivity.
Qed.

Lemma more_chunks_calls : forall indices target chunks total per_chunk st,
  exists new,
    gateway_calls (snd (more_chunks indices target chunks total per_chunk st))
    = gateway_calls st ++ new /\
    (length new <= length indices)%nat /\
    forall pre call post,
      new = pre ++ call :: post ->
      Forall returned pre /\ total + words_returned pre < target.
Proof.
  induction indices as [|i indices IH]; intros target chunks total per_chunk st.
  - exists []. simpl. rewrite app_nil_r.
    split; [reflexivity|]. split; [lia|].
    intros pre call post E. destruct pre; discriminate.
  - simpl. destruct (Z.geb_spec total target) as [Hge | Hlt].
    + exists []. simpl. rewrite app_nil_r.
      split; [reflexivity|]. split; [lia|].
      intros pre call post E. destruct pre; discriminate.
    + set (prompt := continuation_prompt _ chunks).
      destruct (generate_calls prompt None (Some (7 # 10)) None st)
        as (reply & Hfst & Hcalls).
      destruct (generate prompt None (Some (7 # 10)) None st) as [r st1].
      simpl in Hfst, Hcalls. subst r. destruct reply as [next | e]; simpl.
      * destruct (IH target (chunks ++ [next]) (total + len (split next))
                    (if target - total <? 1000 then target - total
                     else per_chunk) st1)
          as (new & Hnew & Hlen & Hstop).
        exists ((prompt, Ok next) :: new). split; [|split].
        -- rewrite Hnew, Hcalls. now rewrite <- app_assoc.
        -- simpl. lia.
        -- intros [|c0 pre] call post E.
           ++ split; [constructor | simpl; lia].
           ++ injection E as <- E. destruct (Hstop _ _ _ E) as [Hok Hw].
              split; [constructor; [now exists next | assumption]|].
              simpl. lia.
      * exists [(prompt, Raise e)]. split; [assumption|]. split; [simpl; lia|].
        intros [|c0 pre] call post E.
        -- split; [constructor | simpl; lia].
        -- injection E as _ E. destruct pre; discriminate.
Qed.

Lemma length_range_from a b : length (range_from a b) = Z.to_nat (b - a).
Proof. unfold range_from, range. now rewrite !length_map, length_seq. Qed.

Lemma generate_reply prompt temperature st :
  exists reply provider temperature',
    generate_text prompt provider None temperature' (world st)
    = (reply, world (snd (generate prompt None (Some temperature) None st))) /\
    fst (generate prompt None (Some temperature) None st) = surfaced reply /\
    gateway_calls (snd (generate prompt None (Some temperature) None st))
    = gateway_calls st ++ [(prompt, reply)].
Proof.
  unfold Writer.generate.
  destruct (generate_text prompt
              (Some (get (settings_provider self) (lit "default")))
              None (Some temperature) (world st)) as [reply w] eqn:E.
  exists reply, (Some (get (settings_provider self) (lit "default"))),
    (Some temperature).
  repeat split. exact E.
Qed.

Lemma write_long_chapter_calls initial_prompt target max_chunks st :
  0 <= max_chunks ->
  exists new,
    gateway_calls (snd (_write_long_chapter initial_prompt target max_chunks st))
    = gateway_calls st ++ new /\
    Z.of_nat (length new) <= max_chunks /\
    stops_at_target target new /\
    (forall first rest,
       new = first :: rest -> returned first ->
       target <= words_returned [first] -> rest = []) /\
    (max_chunks <> 0 ->
       exists reply rest, new = (initial_prompt, reply) :: rest).
Proof.
  intros Hmax. unfold Writer._write_long_chapter.
  destruct (Z.eqb_spec max_chunks 0) as [-> | Hne].
  - exists []. simpl. rewrite app_nil_r. split; [reflexivity|].
    split; [lia|]. split; [|split].
    + intros pre call post E. destruct pre; discriminate.
    + discriminate.
    + congruence.
  - destruct (generate_calls initial_prompt None (Some (7 # 10)) None st)
      as (reply & Hfst & Hcalls).
    destruct (generate initial_prompt None (Some (7 # 10)) None st)
      as [r st1].
    simpl in Hfst, Hcalls. subst r. destruct reply as [first_chunk | e]; simpl.
    + destruct (more_chunks_calls (range_from 2 (max_chunks + 1)) target
                  [first_chunk] (len (split first_chunk))
                  (Z.min 2500 (target / max_chunks)) st1)
        as (new & Hnew & Hlen & Hstop).
      rewrite length_range_from in Hlen.
      exists ((initial_prompt, Ok first_chunk) :: new).
      split; [|split; [|split; [|split]]].
      * destruct (more_chunks _ _ _ _ _ st1) as [[chunks | e] st2];
          simpl in *; rewrite Hnew, Hcalls; now rewrite <- app_assoc.
      * simpl length. lia.
      * intros [|c0 pre] call post E Hpre; [congruence|].
        injection E as <- E. destruct (Hstop _ _ _ E) as [Hok Hw].
        split; [constructor; [now exists first_chunk | assumption]|].
        simpl. lia.
      * intros first rest E _ Hreach. injection E as <- <-.
        destruct new as [|call post]; [reflexivity|].
        destruct (Hstop [] call post eq_refl) as [_ Hw].
        simpl in Hw, Hreach. lia.
      * intros _. now eexists _, _.
    + exists [(initial_prompt, Raise e)].
      split; [assumption|]. split; [simpl; lia|]. split; [|split].
      * intros [|c0 [|c1 pre]] call post E Hpre; try congruence; discriminate.
      * intros first rest E _ _. now injection E.
      * intros _. now eexists _, _.
Qed.

(** C3. A chunked generation makes at most [max_chunks] calls to the
    gateway ([max_chunks] being a non-negative count); [write_chapter]
    chunks when the target is above 3000 words, with [max_chunks = 3], and
    then makes at most three calls.  Every call after the first is made
    only while the whitespace-separated words of the chunks generated so
    far are fewer than the target; so when the first chunk alone reaches
    the target, it is the only call. *)
Theorem chunked_generation_calls :
  (forall initial_prompt target max_chunks st,
     0 <= max_chunks ->
     exists new,
       gateway_calls
         (snd (_write_long_chapter initial_prompt target max_chunks st))
       = gateway_calls st ++ new /\
       Z.of_nat (length new) <= max_chunks /\
       stops_at_target target new /\
       (forall first rest,
          new = first :: rest -> returned first ->
          target <= words_returned [first] -> rest = []) /\
       (max_chunks <> 0 ->
          exists reply rest, new = (initial_prompt, reply) :: rest)) /\
  (forall info previous_chapters character_profiles writing_style st,
     3000 < get (word_count info) 3000 ->
     exists new,
       gateway_calls
         (snd (write_chapter info previous_chapters character_profiles
                 writing_style st))
       = gateway_calls st ++ new /\
       Z.of_nat (length new) <= 3 /\
       stops_at_target (get (word_count info) 3000) new /\
       (forall first rest,
          new = first :: rest -> returned first ->
          get (word_count info) 3000 <= words_returned [first] ->
          rest = []) /\
       exists reply rest,
         new = (chapter_prompt info previous_chapters character_profiles
                  writing_style, reply) :: rest).
Proof.
  split.
  - exact write_long_chapter_calls.
  - intros info previous_chapters character_profiles writing_style st H.
    unfold Writer.write_chapter.
    destruct (Z.gtb_spec (get (word_count info) 3000) 3000); [|lia].
    destruct (write_long_chapter_calls
                (chapter_prompt info previous_chapters character_profiles
                   writing_style)
                (get (word_count info) 3000) 3 st)
      as (new & H1 & H2 & H3 & H4 & H5); [lia|].
    exists new. split; [exact H1|]. split; [exact H2|].
    split; [exact H3|]. split; [exact H4|]. apply H5. discriminate.
Qed.

(** C4. A chapter whose target is not above 3000 words takes exactly one
    call to the gateway, with the chapter prompt, and [write_chapter]
    returns what that call returned (or raises what it raised). *)
Theorem write_chapter_single_call
    info previous_chapters character_profiles writing_style st :
  get (word_count info) 3000 <= 3000 ->
  exists reply provider temperature,
    generate_text
      (chapter_prompt info previous_chapters character_profiles writing_style)
      provider None temperature (world st)
    = (reply,
       world (snd (write_chapter info previous_chapters character_profiles
                     writing_style st))) /\
    fst (write_chapter info previous_chapters character_profiles
           writing_style st)
    = surfaced reply /\
    gateway_calls (snd (write_chapter info previous_chapters
                          character_profiles writing_style st))
    = gateway_calls st
      ++ [(chapter_prompt info previous_chapters character_profiles
             writing_style, reply)].
Proof.
  intros H. unfold Writer.write_chapter.
  destruct (Z.gtb_spec (get (word_count info) 3000) 3000); [lia|].
  apply generate_reply.
Qed.

End AgentFacts.

Example write_long_chapter_ex :
  map (fun c => words_returned [c])
      (gateway_calls
         (snd (_write_long_chapter nat canned plain_agent (lit "Begin.")
                 3500 3 fresh)))
  = [2000; 2000].
Proof. vm_compute. reflexivity. Qed.

Lemma chunked_generation_calls_witness :
  (exists new,
     gateway_calls
       (snd (_write_long_chapter nat canned plain_agent (lit "Begin.")
               3500 3 fresh))
     = gateway_calls fresh ++ new /\
     Z.of_nat (length new) <= 3 /\
     stops_at_target 3500 new /\
     (forall first rest,
        new = first :: rest -> returned first ->
        3500 <= words_returned [first] -> rest = []) /\
     (3 <> 0 -> exists reply rest, new = (lit "Begin.", reply) :: rest)) /\
  (exists new,
     gateway_calls
       (snd (write_chapter nat canned plain_agent long_chapter []
               (lit "Ann, a pilot.") (lit "noir") fresh))
     = gateway_calls fresh ++ new /\
     Z.of_nat (length new) <= 3).
Proof.
  split.
  - apply (proj1 (chunked_generation_calls nat canned plain_agent)). lia.
  - destruct (proj2 (chunked_generation_calls nat canned plain_agent)
                long_chapter [] (lit "Ann, a pilot.") (lit "noir") fresh)
      as (new & H1 & H2 & _); [simpl; lia|].
    now exists new.
Defined.

Lemma write_chapter_single_call_witness :
  exists reply provider temperature,
    canned (chapter_prompt short_chapter [] (lit "Ann, a pilot.") (lit "noir"))
      provider None temperature (world fresh)
    = (reply,
       world (snd (write_chapter nat canned plain_agent short_chapter []
                     (lit "Ann, a pilot.") (lit "noir") fresh))) /\
    fst (write_chapter nat canned plain_agent short_chapter []
           (lit "Ann, a pilot.") (lit "noir") fresh)
    = surfaced reply /\
    gateway_calls (snd (write_chapter nat canned plain_agent short_chapter []
                          (lit "Ann, a pilot.") (lit "noir") fresh))
    = gateway_calls fresh
      ++ [(chapter_prompt short_chapter [] (lit "Ann, a pilot.") (lit "noir"),
           reply)].
Proof.
  apply (write_chapter_single_call nat canned plain_agent short_chapter []
           (lit "Ann, a pilot.") (lit "noir") fresh).
  simpl. lia.
Defined.

(** *** What a chapter is made of *)

Lemma slice_last_idem {A} (l : list A) k :
  1 <= k ->
  slice (slice l (Some (- k)) None) (Some (- k)) None = slice l (Some (- k)) None.
Proof.
  intros Hk. unfold slice.
  set (n := len l). set (a := adjust n (- k)).
  assert (Hn : 0 <= n) by (subst n; unfold len; lia).
  assert (Ha : 0 <= a <= n).
  { subst a. unfold adjust. destruct (Z.ltb_spec (- k) 0); lia. }
  assert (Hak : n - a <= k).
  { subst a. unfold adjust. destruct (Z.ltb_spec (- k) 0); lia. }
  set (r := firstn (Z.to_nat (n - a)) (skipn (Z.to_nat a) l)).
  assert (Hr : len r = n - a).
  { subst r. unfold len in *. rewrite length_firstn, length_skipn. lia. }
  rewrite Hr.
  assert (E : adjust (n - a) (- k) = 0).
  { unfold adjust. destruct (Z.ltb_spec (- k) 0); lia. }
  rewrite E. simpl. rewrite Z.sub_0_r. apply firstn_all2.
  unfold len in Hr. lia.
Qed.

Lemma slice_first_idem {A} (l : list A) k :
  0 <= k ->
  slice (slice l None (Some k)) None (Some k) = slice l None (Some k).
Proof.
  intros Hk. unfold slice. simpl. rewrite !Z.sub_0_r.
  set (n := len l).
  assert (Hn : 0 <= n) by (subst n; unfold len; lia).
  assert (Hb : adjust n k = Z.min k n).
  { unfold adjust. destruct (Z.ltb_spec k 0); lia. }
  rewrite Hb.
  assert (Hr : len (firstn (Z.to_nat (Z.min k n)) l) = Z.min k n).
  { unfold len in *. rewrite length_firstn. lia. }
  rewrite Hr.
  assert (E : adjust (Z.min k n) k = Z.min k n).
  { unfold adjust. destruct (Z.ltb_spec k 0); lia. }
  rewrite E. apply firstn_all2. unfold len in Hr. lia.
Qed.

Lemma slice_last_nil {A} (l : list A) k :
  1 <= k -> slice l (Some (- k)) None = [] -> l = [].
Proof.
  intros Hk H. destruct l as [|x l]; [reflexivity|]. exfalso.
  assert (Hl : len (slice (x :: l) (Some (- k)) None) = 0) by now rewrite H.
  unfold slice in Hl. set (n := len (x :: l)) in *.
  assert (Hn : 1 <= n) by (subst n; unfold len; simpl; lia).
  assert (Ha : 0 <= adjust n (- k) < n).
  { unfold adjust. destruct (Z.ltb_spec (- k) 0); lia. }
  unfold len in Hl. rewrite length_firstn, length_skipn in Hl.
  fold (len (x :: l)) in Hl. fold n in Hl.
  unfold len in n. lia.
Qed.

Lemma previous_context_recent chapter_num previous_chapters :
  previous_context chapter_num previous_chapters
  = previous_context chapter_num (slice previous_chapters (Some (-2)) None).
Proof.
  unfold previous_context.
  destruct previous_chapters as [|c0 rest] eqn:E; [reflexivity|].
  rewrite <- E.
  destruct (slice previous_chapters (Some (-2)) None) as [|r0 recent] eqn:Er.
  - apply (slice_last_nil _ 2) in Er; [congruence | lia].
  - rewrite <- Er. change (-2) with (- (2)). now rewrite slice_last_idem by lia.
Qed.

Section AgentEffects.
Variable World : Type.
Variable generate_text :
  str -> option str -> option Z -> option Q ->
  World -> result LLMProvider.exn str * World.
Variable self : agent.

#[local] Abbreviation generate := (generate World generate_text self).
#[local] Abbreviation more_chunks := (more_chunks World generate_text self).
#[local] Abbreviation _write_long_chapter :=
  (_write_long_chapter World generate_text self).
#[local] Abbreviation write_chapter := (write_chapter World generate_text self).

(** X11. [write_chapter] reads of the previous chapters only the last two,
    and of the character profiles only the first 2000 characters. *)
Theorem write_chapter_context
    info previous_chapters character_profiles writing_style st :
  write_chapter info previous_chapters character_profiles writing_style st
  = write_chapter info (slice previous_chapters (Some (-2)) None)
      (slice character_profiles None (Some 2000)) writing_style st.
Proof.
  unfold Writer.write_chapter.
  assert (E : chapter_prompt info previous_chapters character_profiles
                writing_style
              = chapter_prompt info (slice previous_chapters (Some (-2)) None)
                  (slice character_profiles None (Some 2000)) writing_style).
  { unfold chapter_prompt.
    rewrite (previous_context_recent _ previous_chapters).
    now rewrite slice_first_idem by lia. }
  now rewrite E.
Qed.


Lemma generate_effects prompt max_tokens temperature provider st :
  exists reply,
    fst (generate prompt max_tokens temperature provider st) = surfaced reply /\
    gateway_calls (snd (generate prompt max_tokens temperature provider st))
    = gateway_calls st ++ [(prompt, reply)] /\
    prompt_log (snd (generate prompt max_tokens temperature provider st))
    = prompt_log st ++ (if save_prompts self then [prompt] else []).
Proof.
  unfold Writer.generate.
  destruct (generate_text prompt _ max_tokens _ (world st)) as [reply w].
  exists reply. simpl. repeat split.
  destruct (save_prompts self); [reflexivity | now rewrite app_nil_r].
Qed.

Lemma more_chunks_outcome : forall indices target chunks total per_chunk st,
  exists new,
    gateway_calls (snd (more_chunks indices target chunks total per_chunk st))
    = gateway_calls st ++ new /\
    prompt_log (snd (more_chunks indices target chunks total per_chunk st))
    = prompt_log st ++ (if save_prompts self then map fst new else []) /\
    outcome new (fst (more_chunks indices target chunks total per_chunk st))
      chunks.
Proof.
  assert (Hnil : forall l : list str,
             l = l ++ (if save_prompts self then [] else [])).
  { intros l. destruct (save_prompts self); now rewrite app_nil_r. }
  induction indices as [|i indices IH]; intros target chunks total per_chunk st.
  - exists []. simpl. rewrite !app_nil_r. repeat split; auto.
  - simpl. destruct (Z.geb_spec total target) as [Hge | Hlt].
    + exists []. simpl. rewrite !app_nil_r. repeat split; auto.
    + set (prompt := continuation_prompt _ chunks).
      destruct (generate_effects prompt None (Some (7 # 10)) None st)
        as (reply & Hfst & Hcalls & Hlog).
      destruct (generate prompt None (Some (7 # 10)) None st) as [r st1].
      simpl in Hfst, Hcalls, Hlog. subst r.
      destruct reply as [next | e]; simpl.
      * destruct (IH target (chunks ++ [next]) (total + len (split next))
                    (if target - total <? 1000 then target - total
                     else per_chunk) st1)
          as (new & Hnew & Hlog' & Hout).
        exists ((prompt, Ok next) :: new). split; [|split].
        -- rewrite Hnew, Hcalls. now rewrite <- app_assoc.
        -- rewrite Hlog', Hlog. simpl.
           destruct (save_prompts self); now rewrite <- app_assoc.
        -- unfold outcome in *.
           destruct (fst (more_chunks indices target (chunks ++ [next]) _ _ st1))
             as [chunks' | ex].
           ++ destruct Hout as [Hall ->]. split.
              ** constructor; [now exists next | assumption].
              ** simpl. now rewrite <- app_assoc.
           ++ destruct Hout as (before & p & ex' & -> & Hall & ->).
              exists ((prompt, Ok next) :: before), p, ex'.
              split; [reflexivity|]. split; [|reflexivity].
              constructor; [now exists next | assumption].
      * exists [(prompt, Raise e)]. split; [assumption|]. split.
        -- rewrite Hlog. simpl. now destruct (save_prompts self).
        -- exists [], prompt, e. repeat split. constructor.
Qed.

Lemma write_long_chapter_outcome initial_prompt target max_chunks st :
  max_chunks <> 0 ->
  exists new,
    gateway_calls (snd (_write_long_chapter initial_prompt target max_chunks st))
    = gateway_calls st ++ new /\
    prompt_log (snd (_write_long_chapter initial_prompt target max_chunks st))
    = prompt_log st ++ (if save_prompts self then map fst new else []) /\
    match fst (_write_long_chapter initial_prompt target max_chunks st) with
    | Ok text =>
        Forall returned new /\ text = join (nl ++ nl) (texts_returned new)
    | Raise e =>
        exists before prompt ex,
          new = before ++ [(prompt, Raise ex)] /\ Forall returned before /\
          e = ProviderError ex
    end.
Proof.
  intros Hne. unfold Writer._write_long_chapter.
  destruct (Z.eqb_spec max_chunks 0) as [-> | _]; [contradiction|].
  destruct (generate_effects initial_prompt None (Some (7 # 10)) None st)
    as (reply & Hfst & Hcalls & Hlog).
  destruct (generate initial_prompt None (Some (7 # 10)) None st) as [r st1].
  simpl in Hfst, Hcalls, Hlog. subst r.
  destruct reply as [first_chunk | e]; simpl.
  - destruct (more_chunks_outcome (range_from 2 (max_chunks + 1)) target
                [first_chunk] (len (split first_chunk))
                (Z.min 2500 (target / max_chunks)) st1)
      as (new & Hnew & Hlog' & Hout).
    exists ((initial_prompt, Ok first_chunk) :: new).
    destruct (more_chunks _ _ _ _ _ st1) as [[chunks | ex] st2]; simpl in *.
    + destruct Hout as [Hall ->]. split; [|split; [|split]].
      * rewrite Hnew, Hcalls. now rewrite <- app_assoc.
      * rewrite Hlog', Hlog. destruct (save_prompts self); simpl;
          now rewrite <- app_assoc.
      * constructor; [now exists first_chunk | assumption].
      * reflexivity.
    + destruct Hout as (before & p & ex' & -> & Hall & ->).
      split; [|split].
      * rewrite Hnew, Hcalls. now rewrite <- app_assoc.
      * rewrite Hlog', Hlog. destruct (save_prompts self); simpl;
          now rewrite <- app_assoc.
      * exists ((initial_prompt, Ok first_chunk) :: before), p, ex'.
        split; [reflexivity|]. split; [|reflexivity].
        constructor; [now exists first_chunk | assumption].
  - exists [(initial_prompt, Raise e)]. split; [assumption|]. split.
    + rewrite Hlog. simpl. now destruct (save_prompts self).
    + exists [], initial_prompt, e. repeat split. constructor.
Qed.

(** X12. When every call of a chunked generation returns, the chapter is
    the returned chunks, in the order of the calls, joined by blank lines.
    When a call raises, it is the last call, its exception is the
    exception of [_write_long_chapter], and the chunks generated before it
    are lost. *)
Theorem write_long_chapter_text initial_prompt target max_chunks st :
  max_chunks <> 0 ->
  exists new,
    gateway_calls (snd (_write_long_chapter initial_prompt target max_chunks st))
    = gateway_calls st ++ new /\
    match fst (_write_long_chapter initial_prompt target max_chunks st) with
    | Ok text =>
        Forall returned new /\ text = join (nl ++ nl) (texts_returned new)
    | Raise e =>
        exists before prompt ex,
          new = before ++ [(prompt, Raise ex)] /\ Forall returned before /\
          e = ProviderError ex
    end.
Proof.
  intros Hne.
  destruct (write_long_chapter_outcome initial_prompt target max_chunks st Hne)
    as (new & Hcalls & _ & Hout).
  now exists new.
Qed.

(** X13. Every prompt that [write_chapter] sends to the gateway is in the
    prompt log, in the order of the calls, when the agent saves its
    prompts, also when the call raises; otherwise the log is left as it
    is. *)
Theorem write_chapter_prompt_log
    info previous_chapters character_profiles writing_style st :
  exists new,
    gateway_calls (snd (write_chapter info previous_chapters
                          character_profiles writing_style st))
    = gateway_calls st ++ new /\
    prompt_log (snd (write_chapter info previous_chapters
                       character_profiles writing_style st))
    = prompt_log st ++ (if save_prompts self then map fst new else []).
Proof.
  unfold Writer.write_chapter.
  destruct (LLMProvider.get (word_count info) 3000 >? 3000).
  - destruct (write_long_chapter_outcome
                (chapter_prompt info previous_chapters character_profiles
                   writing_style)
                (LLMProvider.get (word_count info) 3000) 3 st)
      as (new & Hcalls & Hlog & _); [discriminate|].
    now exists new.
  - destruct (generate_effects
                (chapter_prompt info previous_chapters character_profiles
                   writing_style) None (Some (7 # 10)) None st)
      as (reply & _ & Hcalls & Hlog).
    exists [(chapter_prompt info previous_chapters character_profiles
               writing_style, reply)].
    split; [assumption|]. rewrite Hlog. now destruct (save_prompts self).
Qed.

End AgentEffects.

Lemma write_long_chapter_text_witness :
  exists new,
    gateway_calls
      (snd (_write_long_chapter nat one_answer plain_agent (lit "Begin.")
              3500 3 fresh))
    = gateway_calls fresh ++ new /\
    match fst (_write_long_chapter nat one_answer plain_agent (lit "Begin.")
                 3500 3 fresh) with
    | Ok text =>
        Forall returned new /\ text = join (nl ++ nl) (texts_returned new)
    | Raise e =>
        exists before prompt ex,
          new = before ++ [(prompt, Raise ex)] /\ Forall returned before /\
          e = ProviderError ex
    end.
Proof.
  apply (write_long_chapter_text nat one_answer plain_agent (lit "Begin.")
           3500 3 fresh).
  discriminate.
Defined.

End WriterFacts.

(* ------------------------------------------------------------------ *)

Module ParsingFacts.
Import PyStr Re Parsing TextProcessingFacts.

Example parse_outline_two_chapters :
  parse_outline
    (lit "Chapter 2: Dusk" ++ nl ++ lit "Summary: They leave." ++ nl
     ++ lit "Estimated word count: 1,200" ++ nl
     ++ lit "Chapter 1: Dawn" ++ nl ++ lit "Summary: They arrive." ++ nl)
  = Ok [ {| chapter_num := 1; title := lit "Dawn";
            summary := lit "They arrive."; word_count := 3000 |};
         {| chapter_num := 2; title := lit "Dusk";
            summary := lit "They leave."; word_count := 1200 |} ].
Proof. vm_compute. reflexivity. Qed.

Example lenient_two_chapters :
  parse_outline
    (lit "CHAPTER 1 - Dawn" ++ nl ++ lit "They arrive. Target: 2,000 words"
     ++ nl ++ lit "CHAPTER 2: Dusk" ++ nl ++ lit "They leave.")
  = Ok [ {| chapter_num := 1; title := lit "Dawn";
            summary := lit "They arrive."; word_count := 2000 |};
         {| chapter_num := 2; title := lit "Dusk";
            summary := lit "They leave."; word_count := 3000 |} ].
Proof. vm_compute. reflexivity. Qed.

(** A figure of more digits than [int] reads makes the word count the
    default. *)
Example endless_word_count :
  parse_outline
    (lit "Chapter 1: Dawn" ++ nl ++ lit "Summary: x" ++ nl
     ++ lit "Estimated word count: " ++ repeat "7"%char 4301)
  = Ok [ {| chapter_num := 1; title := lit "Dawn";
            summary := lit "x"; word_count := 3000 |} ].
Proof. vm_compute. reflexivity. Qed.

(** *** What a successful match looks like *)

Lemma star_sound {A} p s (k : str -> option A) x :
  star p s k = Some x ->
  exists l s', s = l ++ s' /\ Forall (fun c => p c = true) l /\ k s' = Some x.
Proof.
  induction s as [|c t IH]; simpl; intros H.
  - now exists [], [].
  - destruct (p c) eqn:Ep.
    + destruct (star p t k) as [y|] eqn:Et.
      * injection H as <-. destruct (IH eq_refl) as (l & s' & -> & Hl & Hk).
        exists (c :: l), s'. repeat split; [now constructor | assumption].
      * now exists [], (c :: t).
    + now exists [], (c :: t).
Qed.

Lemma lazy_sound {A} p s (k : str -> option A) x :
  lazy p s k = Some x ->
  exists l s', s = l ++ s' /\ Forall (fun c => p c = true) l /\ k s' = Some x.
Proof.
  induction s as [|c t IH]; simpl; intros H.
  - destruct (k []) eqn:Ek; [|discriminate]. injection H as <-.
    now exists [], [].
  - destruct (k (c :: t)) eqn:Ek.
    + injection H as <-. now exists [], (c :: t).
    + destruct (p c) eqn:Ep; [|discriminate].
      destruct (IH H) as (l & s' & -> & Hl & Hk).
      exists (c :: l), s'. repeat split; [now constructor | assumption].
Qed.

Lemma run_sound r : forall A s caps (k : str -> captures -> option A) x,
  run r s caps k = Some x ->
  exists s' caps', matches r s s' caps caps' /\ k s' caps' = Some x.
Proof.
  induction r as [|p|r1 IH1 r2 IH2|r1 IH1 r2 IH2|p|p|n r1 IH1|r1 IH1|];
    intros A s caps k x H; simpl in H.
  - now exists s, caps.
  - destruct s as [|c t]; [discriminate|].
    destruct (p c) eqn:Ep; [|discriminate].
    exists t, caps. split; [|assumption]. now exists c.
  - apply IH1 in H as (s1 & caps1 & H1 & H).
    apply IH2 in H as (s2 & caps2 & H2 & H).
    exists s2, caps2. split; [|assumption]. now exists s1, caps1.
  - destruct (run r1 s caps k) as [y|] eqn:E1.
    + injection H as <-. apply IH1 in E1 as (s' & caps' & H1 & Hk).
      exists s', caps'. split; [now left | assumption].
    + apply IH2 in H as (s' & caps' & H2 & Hk).
      exists s', caps'. split; [now right | assumption].
  - apply star_sound in H as (l & s' & -> & Hl & Hk).
    exists s', caps. split; [|assumption]. now exists l.
  - apply lazy_sound in H as (l & s' & -> & Hl & Hk).
    exists s', caps. split; [|assumption]. now exists l.
  - apply IH1 in H as (s' & caps' & H1 & Hk).
    eexists s', _. split; [|exact Hk]. now exists caps'.
  - destruct (run r1 s caps (fun _ caps' => Some caps')) as [caps1|] eqn:E1;
      [|discriminate].
    apply IH1 in E1 as (s2 & caps2 & H1 & [= ->]).
    exists s, caps1. split; [|assumption]. split; [reflexivity|]. now exists s2.
  - destruct s as [|c [|d t]]; try discriminate.
    + exists [], caps. repeat split; auto.
    + destruct (Ascii.eqb_spec c "010"); [|discriminate]. subst c.
      exists nl, caps. repeat split; auto.
Qed.

Lemma search_from_sound r s : forall i m,
  search_from r s i = Some m ->
  exists suffix rest,
    matches r suffix rest [] (groups m) /\
    text m = firstn (length suffix - length rest) suffix.
Proof.
  induction s as [|c t IH]; intros i m H; simpl in H.
  - destruct (match_at r []) as [[rest caps]|] eqn:E; [|discriminate].
    injection H as <-. unfold match_at in E.
    apply run_sound in E as (s' & caps' & Hm & [= <- <-]).
    now exists [], s'.
  - destruct (match_at r (c :: t)) as [[rest caps]|] eqn:E.
    + injection H as <-. unfold match_at in E.
      apply run_sound in E as (s' & caps' & Hm & [= <- <-]).
      now exists (c :: t), s'.
    + now apply IH in H.
Qed.

(** *** Word counts are never negative *)

Lemma firstn_app_exact {A} (l rest : list A) :
  firstn (length (l ++ rest) - length rest) (l ++ rest) = l.
Proof.
  rewrite length_app. replace (length l + length rest - length rest)%nat
    with (length l + 0)%nat by lia.
  rewrite firstn_app_2. simpl. apply app_nil_r.
Qed.

Lemma matches_Lit l : forall s s' caps caps',
  matches (Lit l) s s' caps caps' -> s = l ++ s' /\ caps' = caps.
Proof.
  induction l as [|c l IH]; intros s s' caps caps' H; simpl in H.
  - destruct H as [-> ->]. now split.
  - destruct H as (s1 & caps1 & (c0 & -> & Hc & ->) & H).
    apply Ascii.eqb_eq in Hc. subst c0.
    apply IH in H as [-> ->]. now split.
Qed.

Lemma matches_LitI l : forall s s' caps caps',
  matches (LitI l) s s' caps caps' -> caps' = caps.
Proof.
  induction l as [|c l IH]; intros s s' caps caps' H; simpl in H.
  - now destruct H.
  - destruct H as (s1 & caps1 & (c0 & -> & Hc & ->) & H). now apply IH in H.
Qed.

Lemma matches_count_group s s' caps caps' :
  matches (Group 1 (Seq (Chr is_digit) (Star digit_or_comma))) s s' caps caps'
  -> exists g, caps' = (1%nat, g) :: caps /\ counted g.
Proof.
  simpl. intros (caps1 & (s1 & caps2 & (c & -> & Hc & ->) & (l & -> & Hl & ->))
                 & ->).
  exists (c :: l). split.
  - f_equal. f_equal. apply (firstn_app_exact (c :: l) s').
  - now exists c, l.
Qed.

Lemma matches_Seq r1 r2 s s' caps caps' :
  matches (Seq r1 r2) s s' caps caps' ->
  exists s1 caps1, matches r1 s s1 caps caps1 /\ matches r2 s1 s' caps1 caps'.
Proof. exact (fun H => H). Qed.

Lemma matches_Alt r1 r2 s s' caps caps' :
  matches (Alt r1 r2) s s' caps caps' ->
  matches r1 s s' caps caps' \/ matches r2 s s' caps caps'.
Proof. exact (fun H => H). Qed.

Lemma matches_Star p s s' caps caps' :
  matches (Star p) s s' caps caps' ->
  exists l, s = l ++ s' /\ Forall (fun c => p c = true) l /\ caps' = caps.
Proof. exact (fun H => H). Qed.

Lemma word_count_match s m :
  search word_count_pattern s = Some m -> counted (group_of m 1).
Proof.
  intros H. apply search_from_sound in H as (suffix & rest & H & _).
  unfold word_count_pattern in H.
  apply matches_Seq in H as (s1 & caps1 & H1 & H).
  apply matches_Lit in H1 as [_ ->].
  apply matches_Seq in H as (s2 & caps2 & H2 & H).
  apply matches_Star in H2 as (l & _ & _ & ->).
  apply matches_count_group in H as (g & Hg & Hc).
  unfold group_of. rewrite Hg. exact Hc.
Qed.

Lemma lenient_word_count_match s m :
  search lenient_word_count_pattern s = Some m -> counted (group_of m 1).
Proof.
  intros H. apply search_from_sound in H as (suffix & rest & H & _).
  unfold lenient_word_count_pattern in H.
  apply matches_Seq in H as (s1 & caps1 & H1 & H).
  assert (caps1 = []) as ->.
  { apply matches_Alt in H1 as [H1 | H1];
      [|apply matches_Alt in H1 as [H1 | H1]];
      now apply matches_LitI in H1. }
  apply matches_Seq in H as (s2 & caps2 & H2 & H).
  apply matches_Star in H2 as (l & _ & _ & ->).
  apply matches_Seq in H as (s3 & caps3 & H3 & H).
  apply matches_count_group in H3 as (g & -> & Hc).
  apply matches_Seq in H as (s4 & caps4 & H4 & H).
  apply matches_Star in H4 as (l' & _ & _ & ->).
  apply matches_LitI in H.
  unfold group_of. rewrite H. exact Hc.
Qed.

(** [int] on a count *)

Lemma digit_not_sign c :
  is_digit c = true ->
  int_space c = false /\ c <> "-"%char /\ c <> "+"%char /\ c <> ","%char.
Proof.
  destruct c as [b0 b1 b2 b3 b4 b5 b6 b7].
  destruct b0, b1, b2, b3, b4, b5, b6, b7; vm_compute; intros H;
    try discriminate; repeat split; discriminate.
Qed.

Lemma digit_value_nonneg c : is_digit c = true -> 0 <= code c - 48.
Proof.
  unfold is_digit, between. intros H. apply andb_prop in H as [H _].
  apply Z.leb_le in H. lia.
Qed.

Lemma int_digits_nonneg d : forall acc,
  Forall (fun c => is_digit c = true) d -> 0 <= acc ->
  exists n, int_digits d acc AfterDigit = Some n /\ 0 <= n.
Proof.
  induction d as [|c d IH]; intros acc Hd Hacc; simpl.
  - now exists acc.
  - inversion Hd as [|? ? Hc Hd']; subst. rewrite Hc.
    apply IH; [assumption|]. pose proof (digit_value_nonneg c Hc). lia.
Qed.

Lemma int_lstrip_digit c d :
  is_digit c = true -> int_lstrip (c :: d) = c :: d.
Proof.
  intros Hc. simpl. now destruct (digit_not_sign c Hc) as [-> _].
Qed.

Lemma digit_value_small c : is_digit c = true -> code c - 48 <= 9.
Proof.
  unfold is_digit, between. intros H. apply andb_prop in H as [_ H].
  apply Z.leb_le in H. lia.
Qed.

(** The digits read so far, followed by [d], stay below the next power
    of ten. *)
Lemma int_digits_bound d : forall acc,
  Forall (fun c => is_digit c = true) d -> 0 <= acc ->
  exists n, int_digits d acc AfterDigit = Some n /\
            0 <= n < (acc + 1) * 10 ^ len d.
Proof.
  induction d as [|c d IH]; intros acc Hd Hacc.
  - exists acc. split; [reflexivity|]. change (len (@nil ascii)) with 0. lia.
  - inversion Hd as [|? ? Hc Hd']; subst. cbn [int_digits]. rewrite Hc.
    pose proof (digit_value_nonneg c Hc). pose proof (digit_value_small c Hc).
    destruct (IH (acc * 10 + (code c - 48)) Hd' ltac:(lia)) as (n & -> & Hn).
    exists n. split; [reflexivity|].
    replace (len (c :: d)) with (len d + 1)
      by (unfold len; cbn [length]; lia).
    rewrite Z.pow_add_r by (unfold len; lia).
    assert (0 < 10 ^ len d) by (apply Z.pow_pos_nonneg; unfold len; lia).
    nia.
Qed.

Lemma filter_digits d :
  Forall (fun c => is_digit c = true) d -> filter is_digit d = d.
Proof.
  induction 1 as [|c d Hc _ IH]; [reflexivity|]. cbn [filter].
  now rewrite Hc, IH.
Qed.

(** [int] on a text of digits: the white space and the sign play no part. *)
Lemma int_digit_string c d :
  is_digit c = true -> Forall (fun x => is_digit x = true) d ->
  int (c :: d)
  = if int_max_str_digits <? len (c :: d) then None
    else int_digits (c :: d) 0 AtStart.
Proof.
  intros Hc Hd. unfold int. rewrite (int_lstrip_digit c d Hc).
  assert (Hrev : exists c' d', rev (c :: d) = c' :: d' /\
                               is_digit c' = true).
  { destruct (rev (c :: d)) as [|c' d'] eqn:E.
    - apply (f_equal (@length _)) in E. rewrite length_rev in E. discriminate.
    - exists c', d'. split; [reflexivity|].
      assert (Hin : In c' (rev (c :: d))) by (rewrite E; now left).
      apply in_rev in Hin. destruct Hin as [<- | Hin]; [assumption|].
      rewrite Forall_forall in Hd. now apply Hd. }
  destruct Hrev as (c' & d' & E & Hc'). rewrite E.
  rewrite (int_lstrip_digit c' d' Hc'), <- E, rev_involutive.
  rewrite (filter_digits (c :: d)) by now constructor.
  destruct (int_max_str_digits <? len (c :: d)); [reflexivity|].
  destruct (digit_not_sign c Hc) as (_ & Hm & Hp & _).
  destruct c as [b0 b1 b2 b3 b4 b5 b6 b7].
  destruct b0, b1, b2, b3, b4, b5, b6, b7; try reflexivity; congruence.
Qed.

(** A text of at most [int_max_str_digits] digits is read as a number
    below the power of ten of its length. *)
Lemma int_short c d :
  is_digit c = true -> Forall (fun x => is_digit x = true) d ->
  len (c :: d) <= int_max_str_digits ->
  exists n, int (c :: d) = Some n /\ 0 <= n < 10 ^ len (c :: d).
Proof.
  intros Hc Hd Hlen. rewrite (int_digit_string c d Hc Hd).
  destruct (Z.ltb_spec int_max_str_digits (len (c :: d))); [lia|].
  destruct (int_digits_bound (c :: d) 0) as (n & Hn & Hb);
    [now constructor | lia |].
  exists n. split; [|lia].
  cbn [int_digits] in Hn |- *. rewrite Hc in Hn |- *.
  change (0 * 10 + (code c - 48)) with (code c - 48) in Hn |- *.
  destruct (int_digits_nonneg d (code c - 48) Hd) as (n' & Hn' & _);
    [apply (digit_value_nonneg c Hc)|].
  rewrite Hn'. rewrite Hn' in Hn. exact Hn.
Qed.

(** A text of more digits is refused. *)
Lemma int_long c d :
  is_digit c = true -> Forall (fun x => is_digit x = true) d ->
  int_max_str_digits < len (c :: d) -> int (c :: d) = None.
Proof.
  intros Hc Hd Hlen. rewrite (int_digit_string c d Hc Hd).
  destruct (Z.ltb_spec int_max_str_digits (len (c :: d))); [reflexivity | lia].
Qed.

(** What [int] reads from digits is never negative. *)
Lemma int_nonneg c d n :
  is_digit c = true -> Forall (fun x => is_digit x = true) d ->
  int (c :: d) = Some n -> 0 <= n.
Proof.
  intros Hc Hd. rewrite (int_digit_string c d Hc Hd).
  destruct (int_max_str_digits <? len (c :: d)); [discriminate|].
  cbn [int_digits]. rewrite Hc.
  destruct (int_digits_nonneg d (0 * 10 + (code c - 48)) Hd) as (n' & -> & Hn').
  { pose proof (digit_value_nonneg c Hc). lia. }
  now intros [= <-].
Qed.

Lemma remove_commas_counted g :
  counted g ->
  exists c d, remove_commas g = c :: d /\ is_digit c = true /\
              Forall (fun x => is_digit x = true) d.
Proof.
  intros (c & l & -> & Hc & Hl). exists c, (remove_commas l).
  destruct (digit_not_sign c Hc) as (_ & _ & _ & Hcomma).
  split; [|split; [assumption|]].
  - unfold remove_commas. simpl.
    destruct (Ascii.eqb_spec c ","); [contradiction | reflexivity].
  - unfold remove_commas. apply Forall_forall. intros x Hx.
    apply filter_In in Hx as [Hx Hne]. rewrite Forall_forall in Hl.
    specialize (Hl x Hx). unfold digit_or_comma in Hl.
    destruct (Ascii.eqb x ","); [discriminate|].
    now rewrite orb_false_r in Hl.
Qed.

Lemma word_count_of_nonneg m : counted (group_of m 1) -> 0 <= word_count_of m.
Proof.
  intros H. unfold word_count_of.
  destruct (remove_commas_counted _ H) as (c & d & -> & Hc & Hd).
  destruct (int (c :: d)) as [n|] eqn:E; [|lia].
  now apply (int_nonneg c d n Hc Hd).
Qed.

Lemma lenient_chapter_count i block : 0 <= word_count (lenient_chapter i block).
Proof.
  unfold lenient_chapter. cbn [word_count].
  match goal with
  | |- context [search lenient_word_count_pattern ?x] =>
      destruct (search lenient_word_count_pattern x) as [m|] eqn:E
  end; [|lia].
  apply word_count_of_nonneg. eapply lenient_word_count_match. exact E.
Qed.

Lemma lenient_blocks_count blocks : forall i,
  Forall (fun c => 0 <= word_count c) (lenient_blocks i blocks).
Proof.
  induction blocks as [|block blocks IH]; intros i; simpl; [constructor|].
  destruct (strip block); [apply IH|].
  constructor; [apply lenient_chapter_count | apply IH].
Qed.

Lemma strict_chapter_count outline chapter_num title ch :
  strict_chapter outline chapter_num title = Ok ch -> 0 <= word_count ch.
Proof.
  unfold strict_chapter. destruct (int chapter_num) as [n|]; [|discriminate].
  destruct (str_of_int (n + 1)) as [next|]; [|discriminate].
  match goal with
  | |- bind ?b _ = _ -> _ => destruct b as [chapter_block | e]
  end; [|discriminate].
  simpl. intros [= <-]. cbn [word_count].
  destruct (search word_count_pattern chapter_block) as [m|] eqn:E; [|lia].
  apply word_count_of_nonneg. eapply word_count_match. exact E.
Qed.

Lemma strict_chapters_count outline matches_ : forall chapters,
  strict_chapters outline matches_ = Ok chapters ->
  Forall (fun c => 0 <= word_count c) chapters.
Proof.
  induction matches_ as [|[chapter_num title] rest IH]; intros chapters H;
    simpl in H.
  - injection H as <-. constructor.
  - destruct (strict_chapter outline chapter_num title) as [ch | e] eqn:E;
      [|discriminate].
    simpl in H. destruct (strict_chapters outline rest) as [chs | e];
      [|discriminate].
    simpl in H. injection H as <-.
    constructor; [eapply strict_chapter_count; exact E | now apply IH].
Qed.

(** Sorting by chapter number *)

Lemma insert_chapter_In x y l :
  In y (insert_chapter x l) <-> y = x \/ In y l.
Proof.
  induction l as [|z l IH]; simpl; [intuition congruence|].
  destruct (chapter_num x <=? chapter_num z); simpl; [intuition congruence|].
  rewrite IH. intuition congruence.
Qed.

Lemma sort_chapters_In y l : In y (sort_chapters l) <-> In y l.
Proof.
  induction l as [|x l IH]; simpl; [tauto|].
  rewrite insert_chapter_In, IH. intuition congruence.
Qed.

Lemma insert_chapter_sorted x l :
  StronglySorted by_number l -> StronglySorted by_number (insert_chapter x l).
Proof.
  induction 1 as [|y l Hs IH Hy]; simpl.
  - constructor; constructor.
  - destruct (Z.leb_spec (chapter_num x) (chapter_num y)).
    + constructor; [now constructor|]. constructor; [assumption|].
      rewrite Forall_forall in *. intros z Hz. specialize (Hy z Hz).
      unfold by_number in *. lia.
    + constructor; [assumption|].
      rewrite Forall_forall in *. intros z Hz.
      apply insert_chapter_In in Hz as [-> | Hz]; [unfold by_number; lia | auto].
Qed.

Lemma sort_chapters_sorted l : StronglySorted by_number (sort_chapters l).
Proof.
  induction l as [|x l IH]; simpl;
    [constructor | now apply insert_chapter_sorted].
Qed.

Lemma sort_chapters_Forall (P : chapter -> Prop) l :
  Forall P l -> Forall P (sort_chapters l).
Proof.
  rewrite !Forall_forall. intros H x Hx. now apply H, sort_chapters_In.
Qed.

(** *** Running a pattern over a text that is known in part *)

Lemma run_Seq {A} r1 r2 s caps (k : str -> captures -> option A) :
  run (Seq r1 r2) s caps k = run r1 s caps (fun s1 caps1 => run r2 s1 caps1 k).
Proof. reflexivity. Qed.

Lemma run_Lit_match {A} l s caps (k : str -> captures -> option A) :
  run (Lit l) (l ++ s) caps k = k s caps.
Proof.
  induction l as [|c l IH]; simpl; [reflexivity|].
  now rewrite Ascii.eqb_refl.
Qed.

Lemma run_Lit_fail {A} l : forall s caps (k : str -> captures -> option A),
  prefixb l s = false -> run (Lit l) s caps k = None.
Proof.
  induction l as [|c l IH]; intros s caps k H; simpl in *; [discriminate|].
  destruct s as [|d s]; [reflexivity|].
  destruct (Ascii.eqb c d); [now apply IH | reflexivity].
Qed.

Lemma prefixb_app l1 l2 s : prefixb l1 s = false -> prefixb (l1 ++ l2) s = false.
Proof.
  revert s. induction l1 as [|c l1 IH]; intros s H; simpl in *; [discriminate|].
  destruct s as [|d s]; [reflexivity|].
  destruct (Ascii.eqb c d); [now apply IH | reflexivity].
Qed.

(** A literal without [c] that starts inside [x] and is followed by [c]
    lies inside [x]. *)
Lemma prefixb_before l c : ~ In c l -> forall x rest,
  prefixb l x = false -> prefixb l (x ++ c :: rest) = false.
Proof.
  induction l as [|d l IH]; intros Hc x rest H; simpl in *; [discriminate|].
  destruct x as [|e x]; simpl.
  - destruct (Ascii.eqb_spec d c); [|reflexivity]. exfalso. apply Hc. now left.
  - destruct (Ascii.eqb d e); [|reflexivity].
    apply IH; [intros Hin; apply Hc; now right | assumption].
Qed.

Lemma occursb_suffix l x1 x2 : occursb l (x1 ++ x2) = false -> occursb l x2 = false.
Proof.
  induction x1 as [|c x1 IH]; simpl; [auto|].
  intros H. apply orb_false_elim in H as [_ H]. now apply IH.
Qed.

Lemma occursb_prefixb l s : occursb l s = false -> prefixb l s = false.
Proof. destruct s; simpl; intros H; now apply orb_false_elim in H as [H _]. Qed.

Lemma occursb_inside l c x : ~ In c l -> occursb l x = false ->
  forall x1 x2 rest, x = x1 ++ x2 -> prefixb l (x2 ++ c :: rest) = false.
Proof.
  intros Hc H x1 x2 rest ->. apply prefixb_before; [assumption|].
  now apply occursb_prefixb, occursb_suffix with x1.
Qed.

Lemma star_stop {A} p c s (k : str -> option A) :
  p c = false -> star p (c :: s) k = k (c :: s).
Proof. intros H. simpl. now rewrite H. Qed.

Lemma lazy_here {A} p s (k : str -> option A) x :
  k s = Some x -> lazy p s k = Some x.
Proof. intros H. destruct s; simpl; now rewrite H. Qed.

Lemma lazy_reach {A} (l rest : str) (k : str -> option A) :
  (forall l1 c t, l = l1 ++ c :: t -> k (c :: t ++ rest) = None) ->
  lazy any (l ++ rest) k = lazy any rest k.
Proof.
  induction l as [|c l IH]; intros H; [reflexivity|].
  simpl. rewrite (H [] c l eq_refl). apply IH.
  intros l1 d t E. apply (H (c :: l1) d t). now rewrite E.
Qed.

Lemma search_step r c s i :
  match_at r (c :: s) = None -> search_from r (c :: s) i = search_from r s (S i).
Proof. intros H. simpl. now rewrite H. Qed.

Lemma search_skip r (l rest : str) : forall i,
  (forall l1 c t, l = l1 ++ c :: t -> match_at r (c :: t ++ rest) = None) ->
  search_from r (l ++ rest) i = search_from r rest (i + length l).
Proof.
  induction l as [|c l IH]; intros i H.
  - simpl. f_equal. lia.
  - change ((c :: l) ++ rest) with (c :: l ++ rest).
    rewrite search_step by apply (H [] c l eq_refl).
    rewrite IH; [f_equal; simpl; lia|].
    intros l1 d t E. apply (H (c :: l1) d t). now rewrite E.
Qed.

Lemma finditer_step r c s i :
  match_at r (c :: s) = None ->
  finditer_from r (c :: s) i 0 = finditer_from r s (S i) 0.
Proof. intros H. simpl. now rewrite H. Qed.

Lemma finditer_pass r (l rest : str) : forall i,
  finditer_from r (l ++ rest) i (length l)
  = finditer_from r rest (i + length l) 0.
Proof.
  induction l as [|c l IH]; intros i; simpl.
  - f_equal. lia.
  - rewrite IH. f_equal. lia.
Qed.

Lemma finditer_skip r (l rest : str) : forall i,
  (forall l1 c t, l = l1 ++ c :: t -> match_at r (c :: t ++ rest) = None) ->
  finditer_from r (l ++ rest) i 0 = finditer_from r rest (i + length l) 0.
Proof.
  induction l as [|c l IH]; intros i H.
  - simpl. f_equal. lia.
  - change ((c :: l) ++ rest) with (c :: l ++ rest).
    rewrite finditer_step by apply (H [] c l eq_refl).
    rewrite IH; [f_equal; simpl; lia|].
    intros l1 d t E. apply (H (c :: l1) d t). now rewrite E.
Qed.

(** A pattern that starts with a literal finds nothing in a text without
    that literal. *)
Lemma finditer_absent r : forall s i,
  (forall x1 x2, s = x1 ++ x2 -> match_at r x2 = None) ->
  finditer_from r s i 0 = [].
Proof.
  induction s as [|c s IH]; intros i H; simpl.
  - now rewrite (H [] [] eq_refl).
  - rewrite (H [] (c :: s) eq_refl). apply IH.
    intros x1 x2 E. apply (H (c :: x1) x2). now rewrite E.
Qed.

(** *** The well-formed block *)

Lemma plain_inv s :
  plain s = true ->
  exists c t,
    s = c :: t /\ isspace c = false /\ isspace (last s c) = false /\
    forallb not_newline s = true /\
    occursb (lit "Chapter") s = false /\
    occursb (lit "Summary:") s = false /\
    occursb (lit "Estimated") s = false.
Proof.
  unfold plain. destruct s as [|c t]; [discriminate|].
  intros H. repeat (apply andb_prop in H as [H ?]).
  exists c, t. repeat split; try assumption;
    now apply negb_true_iff.
Qed.

Lemma lstrip_keep c t : isspace c = false -> lstrip (c :: t) = c :: t.
Proof. intros H. simpl. now rewrite H. Qed.

Lemma strip_plain s : plain s = true -> strip s = s.
Proof.
  intros H. apply plain_inv in H as (c & t & -> & Hc & Hl & _).
  unfold strip. rewrite (lstrip_keep c t Hc).
  assert (E : rev (c :: t)
              = last (c :: t) c :: rev (removelast (c :: t))).
  { rewrite (app_removelast_last c (l := c :: t)) at 1 by discriminate.
    now rewrite rev_app_distr. }
  rewrite E, (lstrip_keep _ _ Hl), <- E. apply rev_involutive.
Qed.

Lemma not_newline_inside s l1 c t :
  forallb not_newline s = true -> s = l1 ++ c :: t -> Ascii.eqb "010" c = false.
Proof.
  intros H ->. rewrite forallb_app in H. apply andb_prop in H as [_ H].
  simpl in H. apply andb_prop in H as [H _]. unfold not_newline in H.
  apply negb_true_iff in H. now rewrite Ascii.eqb_sym.
Qed.


Lemma run_Group_consume {A} n r l s caps (k : str -> captures -> option A) :
  (forall k' : str -> captures -> option A,
     run r (l ++ s) caps k' = k' s caps) ->
  run (Group n r) (l ++ s) caps k = k s ((n, l) :: caps).
Proof. intros H. simpl. now rewrite H, firstn_app_exact. Qed.

Lemma run_digit {A} d c s caps (k : str -> captures -> option A) :
  is_digit d = true -> is_digit c = false ->
  run (Plus is_digit) ([d] ++ c :: s) caps k = k (c :: s) caps.
Proof. intros Hd Hc. simpl. now rewrite Hd, Hc. Qed.

Lemma run_Star_one {A} p a s caps (k : str -> captures -> option A) x :
  p a = true -> (exists c t, s = c :: t /\ p c = false) ->
  k s caps = Some x ->
  run (Star p) (a :: s) caps k = Some x.
Proof. intros Ha (c & t & -> & Hc) Hk. simpl. now rewrite Ha, Hc, Hk. Qed.

Lemma run_Group_lazy {A} n l rest caps (k : str -> captures -> option A) x :
  (forall l1 c t caps', l = l1 ++ c :: t -> k (c :: t ++ rest) caps' = None) ->
  k rest ((n, l) :: caps) = Some x ->
  run (Group n (Lazy any)) (l ++ rest) caps k = Some x.
Proof.
  intros Hin Hk. simpl. rewrite lazy_reach.
  - apply lazy_here. now rewrite firstn_app_exact.
  - intros l1 c t E. now apply Hin with l1.
Qed.

Lemma run_Ahead_fail {A} r s caps (k : str -> captures -> option A) :
  run r s caps (fun _ caps' => Some caps') = None ->
  run (Ahead r) s caps k = None.
Proof. intros H. simpl. now rewrite H. Qed.

Lemma prefixb_nl d s : Ascii.eqb "010" d = false -> prefixb nl (d :: s) = false.
Proof. intros H. unfold nl. cbn [prefixb]. now rewrite H. Qed.

Lemma needs_Lit l l' r : needs (Seq (Lit (l ++ l')) r) l.
Proof.
  intros A s caps k H. rewrite run_Seq. now apply run_Lit_fail, prefixb_app.
Qed.

Lemma needs_match_at r l s : needs r l -> prefixb l s = false -> match_at r s = None.
Proof. intros Hr H. now apply Hr. Qed.

Lemma split_before_last {A} (l l1 : list A) c0 c t :
  l ++ [c0] = l1 ++ c :: t -> exists x, c :: t = x ++ [c0] /\ l = l1 ++ x.
Proof.
  intros E. exists (removelast (c :: t)).
  assert (Hl : c :: t = removelast (c :: t) ++ [last (c :: t) c])
    by (apply app_removelast_last; discriminate).
  rewrite Hl, app_assoc in E. apply app_inj_tail in E as [E1 E2].
  split; [now rewrite <- E2 in Hl | assumption].
Qed.

(** Inside a segment without [l] that is followed by a character not in
    [l], no text starts with [l]. *)
Lemma segment_free l seg c0 rest :
  occursb l seg = false -> ~ In c0 l ->
  forall l1 c t, seg ++ [c0] = l1 ++ c :: t ->
                 prefixb l (c :: t ++ rest) = false.
Proof.
  intros Hocc Hc l1 c t E.
  apply split_before_last in E as (x & Ex & El).
  change (c :: t ++ rest) with ((c :: t) ++ rest).
  rewrite Ex, <- app_assoc. simpl.
  now apply occursb_inside with seg l1.
Qed.

Lemma search_past r l seg c0 rest i :
  needs r l -> occursb l seg = false -> ~ In c0 l ->
  search_from r (seg ++ c0 :: rest) i
  = search_from r rest (i + length seg + 1).
Proof.
  intros Hr Hocc Hc.
  change (seg ++ c0 :: rest) with (seg ++ [c0] ++ rest).
  rewrite app_assoc, search_skip.
  - f_equal. rewrite length_app. simpl. lia.
  - intros l1 c t E. apply needs_match_at with l; [assumption|].
    now apply segment_free with seg c0 l1.
Qed.

Lemma finditer_none r l s i :
  needs r l -> occursb l s = false -> finditer_from r s i 0 = [].
Proof.
  intros Hr Hocc. apply finditer_absent. intros x1 x2 ->.
  apply needs_match_at with l; [assumption|].
  now apply occursb_prefixb, occursb_suffix with x1.
Qed.

Lemma search_here r s rest caps i :
  match_at r s = Some (rest, caps) ->
  search_from r s i
  = Some {| start := i; text := firstn (length s - length rest) s;
            groups := caps |}.
Proof. intros H. destruct s; simpl; now rewrite H. Qed.

Lemma finditer_match r c l rest caps i :
  match_at r (c :: l ++ rest) = Some (rest, caps) ->
  finditer_from r (c :: l ++ rest) i 0
  = {| start := i; text := c :: l; groups := caps |}
    :: finditer_from r rest (S i + length l) 0.
Proof.
  intros H. cbn [finditer_from]. rewrite H.
  pose proof (firstn_app_exact (c :: l) rest) as F. cbn [app] in F.
  rewrite F. f_equal.
  replace (length (c :: l ++ rest) - length rest - 1)%nat with (length l)
    by (cbn [length]; rewrite length_app; lia).
  apply finditer_pass.
Qed.

Lemma occursb_sep l c x rest :
  ~ In c l -> occursb l x = false -> occursb l (c :: rest) = false ->
  occursb l (x ++ c :: rest) = false.
Proof.
  intros Hc. induction x as [|d x IH]; intros Hx Hr; [assumption|].
  simpl in Hx. apply orb_false_elim in Hx as [Hp Hx].
  change ((d :: x) ++ c :: rest) with (d :: x ++ c :: rest).
  cbn [occursb]. rewrite IH by assumption. rewrite orb_false_r.
  change (d :: x ++ c :: rest) with ((d :: x) ++ c :: rest).
  now apply prefixb_before.
Qed.

Lemma run_Lazy {A} p s caps (k : str -> captures -> option A) :
  run (Lazy p) s caps k = lazy p s (fun s' => k s' caps).
Proof. reflexivity. Qed.

Lemma run_Eos_fail {A} s caps (k : str -> captures -> option A) :
  goes_on s -> run Eos s caps k = None.
Proof.
  intros [H1 H2]. destruct s as [|c [|d t]]; [congruence | | reflexivity].
  simpl. destruct (Ascii.eqb_spec c "010"); [|reflexivity].
  subst c. now contradiction H2.
Qed.

Lemma run_Alt {A} r1 r2 s caps (k : str -> captures -> option A) :
  run (Alt r1 r2) s caps k
  = match run r1 s caps k with
    | Some x => Some x
    | None => run r2 s caps k
    end.
Proof. reflexivity. Qed.

Lemma run_until_fail {A} l s caps (k : str -> captures -> option A) :
  prefixb l s = false -> goes_on s ->
  run (Ahead (Alt (Lit l) Eos)) s caps k = None.
Proof.
  intros Hl Hs. apply run_Ahead_fail.
  now rewrite run_Alt, run_Lit_fail, run_Eos_fail.
Qed.

Lemma goes_on_more c t rest : rest <> [] -> goes_on (c :: t ++ rest).
Proof.
  intros H. split; [discriminate|]. unfold nl. intros E. injection E as _ E.
  now apply app_eq_nil in E as [_ E].
Qed.

Lemma goes_on_last (x l1 : str) z c t :
  z <> "010"%char -> x ++ [z] = l1 ++ c :: t -> goes_on (c :: t).
Proof.
  intros Hz E. split; [discriminate|].
  apply split_before_last in E as (y & Ey & _). rewrite Ey. unfold nl.
  intros E. destruct y as [|a [|b y]]; try discriminate.
  injection E as E. contradiction.
Qed.

Section WF.
Variables T S : str.
Hypothesis HT : plain T = true.
Hypothesis HS : plain S = true.

#[local] Abbreviation tail2 := (nl ++ lit "Estimated word count: 2500").
#[local] Abbreviation tail1 := (nl ++ lit "Summary: " ++ S ++ tail2).

Lemma block_shape : well_formed_block T S = lit "Chapter 1: " ++ T ++ tail1.
Proof. reflexivity. Qed.

Lemma header_match :
  match_at chapter_pattern (lit "Chapter 1: " ++ T ++ tail1)
  = Some (tail1, [(2%nat, T); (1%nat, lit "1")]).
Proof.
  destruct (plain_inv T HT) as (c & t & ET & Hc & _ & Hnl & _).
  unfold match_at, chapter_pattern.
  change (lit "Chapter 1: " ++ T ++ tail1)
    with (lit "Chapter " ++ [ "1"%char ] ++ ":"%char :: lit " " ++ T ++ tail1).
  rewrite run_Seq, run_Lit_match.
  rewrite run_Seq, run_Group_consume
    by (intros k'; now apply run_digit).
  change (":"%char :: lit " " ++ T ++ tail1)
    with (lit ":" ++ " "%char :: T ++ tail1).
  rewrite run_Seq, run_Lit_match, run_Seq.
  apply run_Star_one;
    [reflexivity | exists c, (t ++ tail1); now rewrite ET |].
  rewrite run_Seq.
  apply run_Group_lazy.
  - intros l1 d t' caps' E. apply run_Ahead_fail.
    rewrite run_Seq. apply run_Lit_fail, prefixb_nl.
    exact (not_newline_inside T l1 d t' Hnl E).
  - reflexivity.
Qed.

Lemma occursb_cons l c s :
  prefixb l (c :: s) = false -> occursb l (c :: s) = occursb l s.
Proof. intros H. cbn [occursb]. now rewrite H. Qed.

Ltac expose := cbn [app lit list_ascii_of_string nl].
Ltac walk := expose; repeat (rewrite occursb_cons by reflexivity).
Ltac not_in := cbn [In lit list_ascii_of_string]; intuition discriminate.

Lemma tail1_chapter : occursb (lit "Chapter") tail1 = false.
Proof.
  destruct (plain_inv S HS) as (_ & _ & _ & _ & _ & _ & H & _).
  walk.
  apply occursb_sep; [not_in | exact H | reflexivity].
Qed.

Lemma all_chapter_matches :
  finditer chapter_pattern (well_formed_block T S)
  = [ {| start := 0; text := lit "Chapter 1: " ++ T;
         groups := [(2%nat, T); (1%nat, lit "1")] |} ].
Proof.
  rewrite block_shape. unfold finditer.
  change (lit "Chapter 1: " ++ T ++ tail1)
    with ("C"%char :: (lit "hapter 1: " ++ T) ++ tail1).
  rewrite (finditer_match chapter_pattern "C" (lit "hapter 1: " ++ T) tail1
             [(2%nat, T); (1%nat, lit "1")] 0) by apply header_match.
  f_equal. apply finditer_none with (lit "Chapter").
  - apply (needs_Lit (lit "Chapter") (lit " ")).
  - apply tail1_chapter.
Qed.

Lemma block_text :
  well_formed_block T S
  = lit "Chapter 1:"
    ++ (" "%char :: T ++ nl ++ lit "Summary: " ++ S ++ nl
        ++ lit "Estimated word count: 250") ++ ["0"%char].
Proof.
  unfold well_formed_block.
  repeat (progress (cbn [app lit list_ascii_of_string nl];
                    rewrite <- ?app_assoc)).
  reflexivity.
Qed.

Lemma block_chapter_free :
  occursb (lit "Chapter")
    ((" "%char :: T ++ nl ++ lit "Summary: " ++ S ++ nl
      ++ lit "Estimated word count: 250") ++ ["0"%char]) = false.
Proof.
  destruct (plain_inv T HT) as (_ & _ & _ & _ & _ & _ & H & _).
  destruct (plain_inv S HS) as (_ & _ & _ & _ & _ & _ & H' & _).
  repeat (progress (cbn [app lit list_ascii_of_string nl];
                    rewrite <- ?app_assoc)).
  walk. apply occursb_sep; [not_in | exact H |]. walk.
  apply occursb_sep; [not_in | exact H' | reflexivity].
Qed.

Lemma block_match :
  search (chapter_block_pattern (lit "1") (lit "2")) (well_formed_block T S)
  = Some {| start := 0; text := well_formed_block T S; groups := [] |}.
Proof.
  unfold search.
  rewrite (search_here _ _ [] []).
  - f_equal. f_equal. cbn [length]. rewrite Nat.sub_0_r. apply firstn_all.
  - rewrite block_text. unfold match_at, chapter_block_pattern.
    change (lit "Chapter " ++ lit "1" ++ lit ":") with (lit "Chapter 1:").
    rewrite run_Seq, run_Lit_match, run_Seq, run_Lazy.
    rewrite <- (app_nil_r (_ ++ ["0"%char])), lazy_reach.
    + apply lazy_here. reflexivity.
    + intros l1 c t E. rewrite app_nil_r. apply run_until_fail.
      * change (lit "Chapter " ++ lit "2" ++ lit ":")
          with (lit "Chapter" ++ lit " 2:").
        apply prefixb_app, occursb_prefixb, occursb_suffix with l1.
        rewrite <- E. apply block_chapter_free.
      * eapply goes_on_last; [|exact E]. discriminate.
Qed.

Lemma summary_here :
  match_at summary_pattern (lit "Summary: " ++ S ++ tail2)
  = Some (tail2, [(1%nat, S)]).
Proof.
  destruct (plain_inv S HS) as (c & t & ES & Hc & _ & Hnl & _).
  unfold match_at, summary_pattern.
  change (lit "Summary: " ++ S ++ tail2)
    with (lit "Summary:" ++ " "%char :: S ++ tail2).
  rewrite run_Seq, run_Lit_match, run_Seq.
  apply run_Star_one;
    [reflexivity | exists c, (t ++ tail2); now rewrite ES |].
  rewrite run_Seq. apply run_Group_lazy.
  - intros l1 d t' caps' E. apply run_until_fail.
    + apply (prefixb_app nl), prefixb_nl.
      exact (not_newline_inside S l1 d t' Hnl E).
    + apply goes_on_more. discriminate.
  - reflexivity.
Qed.

Lemma summary_match :
  exists m, search summary_pattern (well_formed_block T S) = Some m /\
            group_of m 1 = S.
Proof.
  destruct (plain_inv T HT) as (_ & _ & _ & _ & _ & _ & _ & H & _).
  unfold search.
  change (well_formed_block T S)
    with ((lit "Chapter 1: " ++ T)
          ++ "010"%char :: lit "Summary: " ++ S ++ tail2).
  rewrite (search_past summary_pattern (lit "Summary:")).
  - rewrite (search_here _ _ _ _ _ summary_here). eexists. split; reflexivity.
  - apply (needs_Lit (lit "Summary:") []).
  - walk. exact H.
  - not_in.
Qed.

Lemma word_count_match_here :
  exists m, search word_count_pattern (well_formed_block T S) = Some m /\
            word_count_of m = 2500.
Proof.
  destruct (plain_inv T HT) as (_ & _ & _ & _ & _ & _ & _ & _ & H).
  destruct (plain_inv S HS) as (_ & _ & _ & _ & _ & _ & _ & _ & H').
  unfold search.
  replace (well_formed_block T S)
    with ((lit "Chapter 1: " ++ T ++ nl ++ lit "Summary: " ++ S)
          ++ "010"%char :: lit "Estimated word count: 2500").
  - rewrite (search_past word_count_pattern (lit "Estimated")).
    + rewrite (search_here _ _ [] [(1%nat, lit "2500")]) by reflexivity.
      eexists. split; reflexivity.
    + apply (needs_Lit (lit "Estimated") (lit " word count:")).
    + walk. apply occursb_sep; [not_in | exact H |]. walk. exact H'.
    + not_in.
  - unfold well_formed_block.
    repeat (progress (cbn [app lit list_ascii_of_string nl];
                      rewrite <- ?app_assoc)).
    reflexivity.
Qed.

Lemma strict_chapter_block :
  strict_chapter (well_formed_block T S) (lit "1") T
  = Ok {| chapter_num := 1; title := T; summary := S; word_count := 2500 |}.
Proof.
  unfold strict_chapter.
  assert (E1 : int (lit "1") = Some 1) by (vm_compute; reflexivity).
  assert (E2 : str_of_int (1 + 1) = Some (lit "2"))
    by (vm_compute; reflexivity).
  rewrite E1, E2, block_match. cbn [bind text].
  destruct summary_match as (m1 & -> & ->).
  destruct word_count_match_here as (m2 & -> & ->).
  now rewrite !strip_plain.
Qed.

Theorem parse_well_formed_block :
  parse_outline (well_formed_block T S)
  = Ok [ {| chapter_num := 1; title := T; summary := S; word_count := 2500 |} ].
Proof.
  unfold parse_outline, chapter_matches.
  rewrite all_chapter_matches. cbn [map group_of groups group Nat.eqb].
  cbn [strict_chapters]. rewrite strict_chapter_block. reflexivity.
Qed.

End WF.

(** *** Input without chapter markers *)

Lemma needs_alt_chapter_pattern : needs alt_chapter_pattern (lit "Chapter").
Proof.
  intros A s caps k H. unfold alt_chapter_pattern.
  rewrite run_Seq, run_Alt.
  rewrite (needs_Lit (lit "Chapter") (lit " ")) by assumption.
  now apply run_Lit_fail.
Qed.

Lemma chapter_marker_absent s :
  occursb (lit "Chapter") s = false -> occursb (lit "CHAPTER") s = false ->
  finditer chapter_marker s = [].
Proof.
  intros H1 H2. apply finditer_absent. intros x1 x2 ->.
  unfold match_at, chapter_marker. rewrite run_Alt.
  rewrite (needs_Lit (lit "Chapter") (lit " "))
    by now apply occursb_prefixb, occursb_suffix with x1.
  apply (needs_Lit (lit "CHAPTER") (lit " ")).
  now apply occursb_prefixb, occursb_suffix with x1.
Qed.

Lemma no_header_lenient outline :
  finditer chapter_pattern outline = [] ->
  finditer alt_chapter_pattern outline = [] ->
  parse_outline outline = Ok (sort_chapters (_lenient_parse_outline outline)).
Proof.
  intros H1 H2. unfold parse_outline, chapter_matches. now rewrite H1, H2.
Qed.

Lemma no_marker_placeholder outline :
  occursb (lit "Chapter") outline = false ->
  occursb (lit "CHAPTER") outline = false ->
  strip outline <> [] ->
  parse_outline outline = Ok [lenient_chapter 0 outline].
Proof.
  intros H1 H2 Hblank. rewrite no_header_lenient.
  - unfold _lenient_parse_outline, Re.split.
    rewrite chapter_marker_absent by assumption. cbn [pieces skipn].
    destruct (strip outline) eqn:E; [contradiction|].
    cbn [lenient_blocks]. now rewrite E.
  - unfold finditer. apply finditer_none with (lit "Chapter");
      [apply (needs_Lit (lit "Chapter") (lit " ")) | assumption].
  - unfold finditer. apply finditer_none with (lit "Chapter");
      [apply needs_alt_chapter_pattern | assumption].
Qed.

(** *** Input with numbered headers *)

Lemma finditer_sound r s : forall i skip m,
  In m (finditer_from r s i skip) ->
  exists x1 x2 rest, s = x1 ++ x2 /\ matches r x2 rest [] (groups m).
Proof.
  induction s as [|c t IH]; intros i skip m H.
  - destruct skip; simpl in H; [|contradiction].
    destruct (match_at r []) as [[rest caps]|] eqn:E; [|contradiction].
    destruct H as [<- | []]. unfold match_at in E.
    apply run_sound in E as (s' & caps' & Hm & [= <- <-]).
    now exists [], [], s'.
  - destruct skip as [|skip]; simpl in H.
    + destruct (match_at r (c :: t)) as [[rest caps]|] eqn:E.
      * destruct H as [<- | H].
        -- unfold match_at in E.
           apply run_sound in E as (s' & caps' & Hm & [= <- <-]).
           now exists [], (c :: t), s'.
        -- apply IH in H as (x1 & x2 & rest' & -> & Hm).
           now exists (c :: x1), x2, rest'.
      * apply IH in H as (x1 & x2 & rest' & -> & Hm).
        now exists (c :: x1), x2, rest'.
    + apply IH in H as (x1 & x2 & rest' & -> & Hm).
      now exists (c :: x1), x2, rest'.
Qed.

Lemma matches_number_group n s s' caps caps' :
  matches (Group n (Plus is_digit)) s s' caps caps' ->
  exists c l, s = (c :: l) ++ s' /\ caps' = (n, c :: l) :: caps /\
              is_digit c = true /\ Forall (fun x => is_digit x = true) l.
Proof.
  simpl. intros (caps1 & (s1 & caps2 & (c & -> & Hc & ->) & (l & -> & Hl & ->))
                 & ->).
  exists c, l. repeat split; try assumption.
  f_equal. f_equal. apply (firstn_app_exact (c :: l) s').
Qed.

Lemma matches_Group n r s s' caps caps' :
  matches (Group n r) s s' caps caps' ->
  exists caps1, matches r s s' caps caps1 /\
                caps' = (n, firstn (length s - length s') s) :: caps1.
Proof. exact (fun H => H). Qed.

Lemma matches_Lazy p s s' caps caps' :
  matches (Lazy p) s s' caps caps' ->
  exists l, s = l ++ s' /\ Forall (fun c => p c = true) l /\ caps' = caps.
Proof. exact (fun H => H). Qed.

Lemma matches_Ahead r s s' caps caps' :
  matches (Ahead r) s s' caps caps' ->
  s' = s /\ exists s2, matches r s s2 caps caps'.
Proof. exact (fun H => H). Qed.

(** A header found by the first pattern: the text starts with ["Chapter "],
    the digits of group 1 and a colon. *)
Lemma chapter_header_shape x rest caps :
  matches chapter_pattern x rest [] caps ->
  exists c l after,
    x = lit "Chapter " ++ (c :: l) ++ lit ":" ++ after /\
    group caps 1 = Some (c :: l) /\
    is_digit c = true /\ Forall (fun d => is_digit d = true) l.
Proof.
  unfold chapter_pattern. intros H.
  apply matches_Seq in H as (s1 & caps1 & H1 & H).
  apply matches_Lit in H1 as [-> ->].
  apply matches_Seq in H as (s2 & caps2 & H2 & H).
  apply matches_number_group in H2 as (c & l & -> & -> & Hc & Hl).
  apply matches_Seq in H as (s3 & caps3 & H3 & H).
  apply matches_Lit in H3 as [-> ->].
  apply matches_Seq in H as (s4 & caps4 & H4 & H).
  apply matches_Star in H4 as (ws & _ & _ & ->).
  apply matches_Seq in H as (s5 & caps5 & H5 & H).
  apply matches_Group in H5 as (caps6 & H5 & ->).
  apply matches_Lazy in H5 as (g & _ & _ & ->).
  apply matches_Ahead in H as (_ & s6 & H).
  apply matches_Seq in H as (s7 & caps7 & H7 & H).
  apply matches_Lit in H7 as [_ ->].
  assert (caps = (2%nat, firstn (length s4 - length s5) s4)
                 :: [(1%nat, c :: l)]) as ->.
  { apply matches_Alt in H as [H | H]; now apply matches_Lit in H. }
  exists c, l, s3. repeat split; assumption.
Qed.

Lemma run_Ahead {A} r s caps (k : str -> captures -> option A) :
  run (Ahead r) s caps k
  = match run r s caps (fun _ caps' => Some caps') with
    | Some caps' => k s caps'
    | None => None
    end.
Proof. reflexivity. Qed.

Lemma lazy_total {A} s (k : str -> option A) x :
  k [] = Some x -> exists y, lazy any s k = Some y.
Proof.
  intros H. induction s as [|c s IH]; simpl.
  - rewrite H. now exists x.
  - destruct (k (c :: s)) as [y|]; [now exists y | assumption].
Qed.

Lemma search_complete r x1 x2 y : forall i,
  match_at r x2 = Some y -> exists m, search_from r (x1 ++ x2) i = Some m.
Proof.
  induction x1 as [|c x1 IH]; intros i H.
  - destruct y as [rest caps]. rewrite (search_here _ _ _ _ _ H). now eexists.
  - simpl. destruct (match_at r (c :: x1 ++ x2)) as [[rest caps]|];
      [now eexists | now apply IH].
Qed.

Lemma chapter_block_found number next after :
  exists y,
    match_at (chapter_block_pattern number next)
      (lit "Chapter " ++ number ++ lit ":" ++ after) = Some y.
Proof.
  unfold match_at, chapter_block_pattern.
  replace (lit "Chapter " ++ number ++ lit ":" ++ after)
    with ((lit "Chapter " ++ number ++ lit ":") ++ after)
    by now rewrite <- !app_assoc.
  rewrite run_Seq, run_Lit_match, run_Seq, run_Lazy.
  eapply lazy_total. cbv beta. rewrite run_Ahead, run_Alt.
  assert (E : forall (k : str -> captures -> option captures),
            run (Lit (lit "Chapter " ++ next ++ lit ":")) [] [] k
            = None) by reflexivity.
  rewrite E. reflexivity.
Qed.

Lemma int_max_str_digits_pos : 0 < int_max_str_digits.
Proof. reflexivity. Qed.

Lemma int_str_bound_eq : int_str_bound = 10 ^ int_max_str_digits.
Proof. vm_compute. reflexivity. Qed.

(** The successor of a number of fewer than [int_max_str_digits] digits can
    be written. *)
Lemma str_of_int_succ n k :
  0 <= n < 10 ^ k -> 0 <= k < int_max_str_digits ->
  str_of_int (n + 1) = Some (str_of_Z (n + 1)).
Proof.
  intros Hn Hk. unfold str_of_int. rewrite int_str_bound_eq.
  assert (H : 10 ^ k < 10 ^ int_max_str_digits)
    by (apply Z.pow_lt_mono_r; lia).
  destruct (Z.leb_spec (10 ^ int_max_str_digits) (Z.abs (n + 1)));
    [lia | reflexivity].
Qed.

Lemma strict_chapter_returns outline m :
  In m (finditer chapter_pattern outline) -> short_number m ->
  exists ch, strict_chapter outline (group_of m 1) (group_of m 2) = Ok ch.
Proof.
  intros H Hshort. unfold short_number in Hshort.
  apply finditer_sound in H as (x1 & x2 & rest & -> & H).
  apply chapter_header_shape in H as (c & l & after & -> & Hg & Hc & Hl).
  unfold group_of in Hshort |- *. rewrite Hg in Hshort |- *.
  unfold strict_chapter.
  destruct (int_short c l Hc Hl ltac:(lia)) as (n & -> & Hn).
  rewrite (str_of_int_succ n (len (c :: l)) Hn)
    by (unfold len in *; cbn [length] in *; lia).
  destruct (chapter_block_found (c :: l) (str_of_Z (n + 1)) after) as [y Hy].
  destruct (search_complete _ x1 _ y 0 Hy) as [mb Hmb].
  unfold search. rewrite Hmb. cbn [bind]. now eexists.
Qed.

Lemma strict_chapters_return outline : forall ms,
  (forall m, In m ms -> In m (finditer chapter_pattern outline)) ->
  Forall short_number ms ->
  exists chapters,
    strict_chapters outline (map (fun m => (group_of m 1, group_of m 2)) ms)
    = Ok chapters /\
    length chapters = length ms.
Proof.
  induction ms as [|m ms IH]; intros H Hshort.
  - now exists [].
  - inversion Hshort as [|? ? Hm Hms]; subst. cbn [map strict_chapters].
    destruct (strict_chapter_returns outline m) as [ch ->];
      [apply H; now left | assumption |].
    destruct IH as (chapters & -> & Hlen);
      [intros m' Hm'; apply H; now right | assumption |].
    exists (ch :: chapters). split; [reflexivity | simpl; now rewrite Hlen].
Qed.

(** A header number of more digits than the interpreter reads. *)
Lemma strict_chapter_long outline m :
  In m (finditer chapter_pattern outline) ->
  int_max_str_digits < len (group_of m 1) ->
  strict_chapter outline (group_of m 1) (group_of m 2) = Raise ValueError.
Proof.
  intros H Hlong.
  apply finditer_sound in H as (x1 & x2 & rest & -> & H).
  apply chapter_header_shape in H as (c & l & after & -> & Hg & Hc & Hl).
  unfold group_of in Hlong |- *. rewrite Hg in Hlong |- *.
  unfold strict_chapter. now rewrite (int_long c l Hc Hl Hlong).
Qed.

Lemma length_insert_chapter x l :
  length (insert_chapter x l) = S (length l).
Proof.
  induction l as [|y l IH]; simpl; [reflexivity|].
  destruct (chapter_num x <=? chapter_num y); simpl; [reflexivity|].
  now rewrite IH.
Qed.

Lemma length_sort_chapters l : length (sort_chapters l) = length l.
Proof.
  induction l as [|x l IH]; simpl; [reflexivity|].
  now rewrite length_insert_chapter, IH.
Qed.

Lemma numbered_headers_return outline :
  finditer chapter_pattern outline <> [] ->
  Forall short_number (finditer chapter_pattern outline) ->
  exists chapters,
    parse_outline outline = Ok chapters /\
    length chapters = length (finditer chapter_pattern outline).
Proof.
  intros Hne Hshort. unfold parse_outline, chapter_matches.
  destruct (finditer chapter_pattern outline) as [|m ms] eqn:E;
    [contradiction|].
  destruct (strict_chapters_return outline (m :: ms))
    as (chapters & -> & Hlen); [|assumption|].
  { intros m' Hm'. now rewrite E. }
  cbn [bind]. destruct chapters as [|ch chapters]; [discriminate|].
  eexists. split; [reflexivity|]. now rewrite length_sort_chapters.
Qed.

Lemma long_number_raises outline m ms :
  finditer chapter_pattern outline = m :: ms ->
  int_max_str_digits < len (group_of m 1) ->
  parse_outline outline = Raise ValueError.
Proof.
  intros E Hlong. unfold parse_outline, chapter_matches. rewrite E.
  cbn [map strict_chapters].
  rewrite (strict_chapter_long outline m); [reflexivity | | assumption].
  rewrite E. now left.
Qed.

(** A literal that starts with a character other than white space does
    not occur in a blank text. *)
Lemma occursb_blank c l s :
  isspace c = false -> forallb isspace s = true ->
  occursb (c :: l) s = false.
Proof.
  intros Hc. induction s as [|x s IH]; intros Hs; [reflexivity|].
  cbn [forallb] in Hs. apply andb_prop in Hs as [Hx Hs].
  cbn [occursb prefixb].
  destruct (Ascii.eqb_spec c x) as [-> | _]; [congruence|].
  now apply IH.
Qed.

Lemma blank_outline outline :
  strip outline = [] -> parse_outline outline = Ok [].
Proof.
  intros Hblank. pose proof (strip_nil outline Hblank) as Hs.
  assert (H1 : occursb (lit "Chapter") outline = false)
    by now apply occursb_blank.
  assert (H2 : occursb (lit "CHAPTER") outline = false)
    by now apply occursb_blank.
  rewrite no_header_lenient.
  - unfold _lenient_parse_outline, Re.split.
    rewrite chapter_marker_absent by assumption. cbn [pieces skipn].
    now rewrite Hblank.
  - unfold finditer. apply finditer_none with (lit "Chapter");
      [apply (needs_Lit (lit "Chapter") (lit " ")) | assumption].
  - unfold finditer. apply finditer_none with (lit "Chapter");
      [apply needs_alt_chapter_pattern | assumption].
Qed.




(** *** The numbers of the lenient parser *)

Lemma lenient_blocks_numbers blocks : forall i,
  StronglySorted (fun a b => chapter_num a < chapter_num b)
    (lenient_blocks i blocks) /\
  Forall (fun c => i + 1 <= chapter_num c <= i + len blocks)
    (lenient_blocks i blocks).
Proof.
  induction blocks as [|block rest IH]; intros i; simpl.
  - split; constructor.
  - destruct (IH (i + 1)) as [Hs Hf].
    assert (Hf' : Forall (fun c => i + 1 + 1 <= chapter_num c
                                   <= i + len (block :: rest))
                    (lenient_blocks (i + 1) rest)).
    { eapply Forall_impl; [|exact Hf]. simpl. intros c Hc.
      unfold len in *. simpl length. lia. }
    destruct (strip block).
    + split; [assumption|]. eapply Forall_impl; [|exact Hf']. simpl. lia.
    + split.
      * constructor; [assumption|].
        eapply Forall_impl; [|exact Hf']. simpl. lia.
      * constructor.
        -- unfold lenient_chapter. simpl. unfold len. simpl length. lia.
        -- eapply Forall_impl; [|exact Hf']. simpl. lia.
Qed.

Lemma sort_chapters_ascending l :
  StronglySorted (fun a b => chapter_num a < chapter_num b) l ->
  sort_chapters l = l.
Proof.
  induction 1 as [|x l Hl IH Hx]; [reflexivity|].
  simpl. fold (sort_chapters l). rewrite IH.
  destruct l as [|y l']; [reflexivity|]. simpl.
  inversion Hx as [|? ? Hxy _]; subst.
  destruct (Z.leb_spec (chapter_num x) (chapter_num y)); [reflexivity | lia].
Qed.

(** X14. [_lenient_parse_outline] numbers the chapters by the position of
    their block: the numbers are at least 1, at most the number of blocks
    that the split has left, and go up strictly, so that the sort of
    [parse_outline] leaves the list as it is. *)
Theorem lenient_parse_outline_numbers (outline : str) :
  StronglySorted (fun a b => chapter_num a < chapter_num b)
    (_lenient_parse_outline outline) /\
  Forall (fun c => 1 <= chapter_num c
                   <= len (Re.split chapter_marker outline))
    (_lenient_parse_outline outline) /\
  sort_chapters (_lenient_parse_outline outline)
  = _lenient_parse_outline outline.
Proof.
  assert (H : StronglySorted (fun a b => chapter_num a < chapter_num b)
                (_lenient_parse_outline outline) /\
              Forall (fun c => 1 <= chapter_num c
                               <= len (Re.split chapter_marker outline))
                (_lenient_parse_outline outline)).
  { unfold _lenient_parse_outline.
    destruct (Re.split chapter_marker outline) as [|first rest].
    - apply (lenient_blocks_numbers [] 0).
    - destruct (strip first).
      + destruct (lenient_blocks_numbers rest 0) as [Hs Hf].
        split; [assumption|]. eapply Forall_impl; [|exact Hf]. simpl.
        unfold len. simpl length. lia.
      + apply (lenient_blocks_numbers (first :: rest) 0). }
  destruct H as [Hs Hf]. split; [assumption|]. split; [assumption|].
  now apply sort_chapters_ascending.
Qed.

(** *** Parts of a text *)

Lemma strip_inside s :
  exists a b, s = a ++ strip s ++ b /\
              Forall (fun c => isspace c = true) a /\
              Forall (fun c => isspace c = true) b.
Proof.
  destruct (lstrip_suffix s) as (a & Ea & Ha).
  destruct (lstrip_suffix (rev (lstrip s))) as (b & Eb & Hb).
  exists a, (rev b). split; [|split].
  - unfold strip. rewrite <- rev_app_distr, <- Eb, rev_involutive. exact Ea.
  - apply Forall_forall. rewrite forallb_forall in Ha. exact Ha.
  - apply Forall_rev, Forall_forall. rewrite forallb_forall in Hb. exact Hb.
Qed.

Lemma search_from_suffix r s : forall i m,
  search_from r s i = Some m ->
  exists x1 x2 rest, s = x1 ++ x2 /\ matches r x2 rest [] (groups m).
Proof.
  induction s as [|c t IH]; intros i m H; simpl in H.
  - destruct (match_at r []) as [[rest caps]|] eqn:E; [|discriminate].
    injection H as <-. unfold match_at in E.
    apply run_sound in E as (s' & caps' & Hm & [= <- <-]).
    now exists [], [], s'.
  - destruct (match_at r (c :: t)) as [[rest caps]|] eqn:E.
    + injection H as <-. unfold match_at in E.
      apply run_sound in E as (s' & caps' & Hm & [= <- <-]).
      now exists [], (c :: t), s'.
    + apply IH in H as (x1 & x2 & rest & -> & Hm).
      now exists (c :: x1), x2, rest.
Qed.

Lemma pieces_Forall (P : ascii -> Prop) s : forall ms i,
  Forall P s -> Forall (Forall P) (pieces s i ms).
Proof.
  induction ms as [|m ms IH]; intros i H; simpl.
  - constructor; [now apply Forall_skipn_keep | constructor].
  - constructor; [|now apply IH].
    now apply Forall_firstn_keep, Forall_skipn_keep.
Qed.

(** What a text does not hold, its parts do not hold. *)
Lemma prefixb_shorter l y z : prefixb l y = true -> prefixb l (y ++ z) = true.
Proof.
  revert y. induction l as [|c l IH]; intros y H; [reflexivity|].
  destruct y as [|d y]; [discriminate|]. cbn [prefixb app] in *.
  apply andb_prop in H as [-> H]. now rewrite IH.
Qed.

Lemma occursb_prefix l y z :
  occursb l (y ++ z) = false -> occursb l y = false.
Proof.
  induction y as [|d y IH]; intros H.
  - destruct l as [|c l]; [|reflexivity].
    destruct z; discriminate.
  - cbn [app occursb] in *. apply orb_false_iff in H as [H1 H2].
    apply orb_false_iff. split; [|now apply IH].
    destruct (prefixb l (d :: y)) eqn:E; [|reflexivity].
    apply (prefixb_shorter l (d :: y) z) in E. cbn [app] in E. congruence.
Qed.

Lemma occursb_firstn l k s :
  occursb l s = false -> occursb l (firstn k s) = false.
Proof.
  intros H. rewrite <- (firstn_skipn k s) in H. now apply occursb_prefix in H.
Qed.

Lemma occursb_skipn l k s :
  occursb l s = false -> occursb l (skipn k s) = false.
Proof.
  intros H. rewrite <- (firstn_skipn k s) in H. now apply occursb_suffix in H.
Qed.

Lemma occursb_strip l s : occursb l s = false -> occursb l (strip s) = false.
Proof.
  intros H. destruct (strip_inside s) as (a & b & E & _). rewrite E in H.
  now apply occursb_suffix, occursb_prefix in H.
Qed.

Lemma pieces_occursb l s : forall ms i,
  occursb l s = false ->
  Forall (fun piece => occursb l piece = false) (pieces s i ms).
Proof.
  induction ms as [|m ms IH]; intros i H; simpl.
  - constructor; [now apply occursb_skipn | constructor].
  - constructor; [|now apply IH].
    now apply occursb_firstn, occursb_skipn.
Qed.

Lemma search_from_text r s : forall i m,
  search_from r s i = Some m ->
  exists k1 k2, text m = firstn k1 (skipn k2 s).
Proof.
  induction s as [|c t IH]; intros i m H; simpl in H.
  - destruct (match_at r []) as [[rest caps]|]; [|discriminate].
    injection H as <-. now exists (0 - length rest)%nat, 0%nat.
  - destruct (match_at r (c :: t)) as [[rest caps]|].
    + injection H as <-. now eexists _, 0%nat.
    + apply IH in H as (k1 & k2 & ->). now exists k1, (S k2).
Qed.

Lemma search_absent r l s i :
  needs r l -> occursb l s = false -> search_from r s i = None.
Proof.
  intros Hr. revert i. induction s as [|c s IH]; intros i H.
  - cbn [search_from]. now rewrite (needs_match_at r l []) by
      (assumption || now apply occursb_prefixb).
  - cbn [search_from].
    rewrite (needs_match_at r l (c :: s))
      by (assumption || now apply occursb_prefixb).
    apply IH. now apply (occursb_suffix l [c] s).
Qed.

(** *** The defaults *)

Lemma strict_chapter_default outline chapter_num title ch :
  occursb (lit "Estimated word count:") outline = false ->
  strict_chapter outline chapter_num title = Ok ch ->
  word_count ch = 3000.
Proof.
  intros Habsent. unfold strict_chapter.
  destruct (int chapter_num) as [n|]; [|discriminate].
  destruct (str_of_int (n + 1)) as [next|]; [|discriminate].
  set (l := lit "Estimated word count:") in *.
  assert (Hblock : forall chapter_block,
            occursb l chapter_block = false ->
            search word_count_pattern chapter_block = None).
  { intros chapter_block H. unfold search.
    apply search_absent with l; [|assumption].
    apply (needs_Lit l []). }
  destruct (search (chapter_block_pattern chapter_num next) outline)
    as [m|] eqn:E.
  - cbn [bind]. intros [= <-]. cbn [word_count].
    rewrite Hblock; [reflexivity|].
    apply search_from_text in E as (k1 & k2 & ->).
    now apply occursb_firstn, occursb_skipn.
  - assert (H1 : occursb l
                   (hd [] (str_split (lit "Chapter " ++ next ++ lit ":")
                             outline)) = false).
    { unfold str_split, Re.split.
      pose proof (pieces_occursb l outline
                    (finditer (Lit (lit "Chapter " ++ next ++ lit ":"))
                       outline) 0 Habsent) as HF.
      destruct (pieces outline 0 _); [reflexivity|]. now inversion HF. }
    set (before_next := hd [] _) in *.
    pose proof (pieces_occursb l before_next
                  (finditer (Lit (lit "Chapter " ++ chapter_num ++ lit ":"))
                     before_next) 0 H1) as HF.
    unfold str_split, Re.split.
    destruct (pieces before_next 0 _) as [|p0 [|parts ps]];
      try discriminate.
    cbn [bind]. intros [= <-]. cbn [word_count].
    rewrite Hblock; [reflexivity|].
    apply occursb_strip. inversion HF as [|? ? _ HF']; subst.
    now inversion HF'.
Qed.

Lemma strict_chapters_default outline matches_ : forall chapters,
  occursb (lit "Estimated word count:") outline = false ->
  strict_chapters outline matches_ = Ok chapters ->
  Forall (fun c => word_count c = 3000) chapters /\
  length chapters = length matches_.
Proof.
  induction matches_ as [|[chapter_num title] rest IH]; intros chapters Ha H;
    simpl in H.
  - injection H as <-. now split.
  - destruct (strict_chapter outline chapter_num title) as [ch | e] eqn:E;
      [|discriminate].
    simpl in H. destruct (strict_chapters outline rest) as [chs | e];
      [|discriminate].
    simpl in H. injection H as <-.
    destruct (IH chs Ha eq_refl) as [HF Hlen]. split.
    + constructor; [eapply strict_chapter_default; eassumption | assumption].
    + simpl. now rewrite Hlen.
Qed.

Lemma strict_chapters_length outline matches_ : forall chapters,
  strict_chapters outline matches_ = Ok chapters ->
  length chapters = length matches_.
Proof.
  induction matches_ as [|[chapter_num title] rest IH]; intros chapters H;
    simpl in H.
  - now injection H as <-.
  - destruct (strict_chapter outline chapter_num title) as [ch | e];
      [|discriminate].
    simpl in H. destruct (strict_chapters outline rest) as [chs | e];
      [|discriminate].
    simpl in H. injection H as <-. simpl. now rewrite (IH chs).
Qed.

Lemma matches_LitI_shape l : forall s s' caps caps',
  matches (LitI l) s s' caps caps' ->
  exists l', s = l' ++ s' /\ length l' = length l /\ caps' = caps.
Proof.
  induction l as [|c l IH]; intros s s' caps caps' H; simpl in H.
  - destruct H as [-> ->]. now exists [].
  - destruct H as (s1 & caps1 & (c0 & -> & Hc & ->) & H).
    apply IH in H as (l' & -> & Hlen & ->).
    exists (c0 :: l'). repeat split. simpl. now rewrite Hlen.
Qed.

(** A word count is found only where a digit stands. *)
Lemma lenient_word_count_digit s m :
  search lenient_word_count_pattern s = Some m ->
  exists c, In c s /\ is_digit c = true.
Proof.
  intros H. unfold search in H.
  apply search_from_suffix in H as (x1 & x2 & rest & -> & H).
  unfold lenient_word_count_pattern in H.
  apply matches_Seq in H as (s1 & caps1 & H1 & H).
  assert (Hkw : exists kw, x2 = kw ++ s1).
  { apply matches_Alt in H1 as [H1 | H1];
      [|apply matches_Alt in H1 as [H1 | H1]];
      apply matches_LitI_shape in H1 as (kw & -> & _); now exists kw. }
  destruct Hkw as (kw & ->).
  apply matches_Seq in H as (s2 & caps2 & H2 & H).
  apply matches_Star in H2 as (l & -> & _ & _).
  apply matches_Seq in H as (s3 & caps3 & H3 & _).
  destruct H3 as (caps4 & (s4 & caps5 & (c & -> & Hc & _) & _) & _).
  exists c. split; [|assumption].
  apply in_or_app. right. apply in_or_app. right. apply in_or_app. right.
  now left.
Qed.

Lemma lenient_chapter_default i block :
  Forall (fun c => is_digit c = false) block ->
  word_count (lenient_chapter i block) = 3000.
Proof.
  intros Hblock. unfold lenient_chapter. cbn [word_count].
  match goal with
  | |- context [search lenient_word_count_pattern ?x] =>
      assert (Hs : Forall (fun c => is_digit c = false) x);
      [|destruct (search lenient_word_count_pattern x) as [m|] eqn:E;
        [|reflexivity]]
  end.
  - destruct (search title_pattern block) as [m|]; [|assumption].
    unfold remove_first. destruct (search (Lit (text m)) block); [|assumption].
    apply Forall_app. split;
      [now apply Forall_firstn_keep | now apply Forall_skipn_keep].
  - apply lenient_word_count_digit in E as (c & Hin & Hc).
    rewrite Forall_forall in Hs. rewrite (Hs c Hin) in Hc. discriminate.
Qed.

Lemma lenient_blocks_default blocks : forall i,
  Forall (Forall (fun c => is_digit c = false)) blocks ->
  Forall (fun c => word_count c = 3000) (lenient_blocks i blocks).
Proof.
  induction blocks as [|block blocks IH]; intros i H; simpl; [constructor|].
  inversion H as [|? ? Hb Hbs]; subst.
  destruct (strip block); [now apply IH|].
  constructor; [now apply lenient_chapter_default | now apply IH].
Qed.

Lemma lenient_default outline :
  Forall (Forall (fun c => is_digit c = false))
         (Re.split chapter_marker outline) ->
  Forall (fun c => word_count c = 3000) (_lenient_parse_outline outline).
Proof.
  intros H. unfold _lenient_parse_outline. apply lenient_blocks_default.
  destruct (Re.split chapter_marker outline) as [|first rest]; [constructor|].
  destruct (strip first); [now inversion H | assumption].
Qed.

(** A title is found only where a delimiter stands. *)
Lemma title_delimiter_needed block :
  Forall (fun c => title_delimiter c = false) block ->
  search title_pattern block = None.
Proof.
  intros Hblock. destruct (search title_pattern block) as [m|] eqn:E;
    [|reflexivity].
  unfold search in E. apply search_from_suffix in E as (x1 & x2 & rest & -> & H).
  unfold title_pattern in H.
  apply matches_Seq in H as (s1 & caps1 & (c & -> & Hc & _) & _).
  apply Forall_app in Hblock as [_ Hblock]. inversion Hblock; congruence.
Qed.

Lemma lenient_blocks_titles blocks : forall i,
  Forall (Forall (fun c => title_delimiter c = false)) blocks ->
  Forall (fun c => title c = lit "Chapter " ++ str_of_Z (chapter_num c))
         (lenient_blocks i blocks).
Proof.
  induction blocks as [|block blocks IH]; intros i H; simpl; [constructor|].
  inversion H as [|? ? Hb Hbs]; subst.
  destruct (strip block); [now apply IH|].
  constructor; [|now apply IH].
  unfold lenient_chapter. rewrite (title_delimiter_needed block Hb).
  reflexivity.
Qed.

(** The header patterns find nothing in a text without a colon. *)
Lemma headers_need_colon outline :
  Forall (fun c => title_delimiter c = false) outline ->
  chapter_matches outline = [].
Proof.
  intros H.
  assert (Hcolon : forall x1 x2 pre post,
            outline = x1 ++ x2 -> x2 = pre ++ ":"%char :: post -> False).
  { intros x1 x2 pre post -> ->.
    apply Forall_app in H as [_ H]. apply Forall_app in H as [_ H].
    inversion H as [|? ? Hc _]. discriminate. }
  unfold chapter_matches.
  destruct (finditer chapter_pattern outline) as [|m ms] eqn:E.
  - destruct (finditer alt_chapter_pattern outline) as [|m ms] eqn:E';
      [reflexivity|].
    exfalso.
    assert (Hin : In m (finditer alt_chapter_pattern outline))
      by (rewrite E'; now left).
    apply finditer_sound in Hin as (x1 & x2 & rest & Ho & Hm).
    unfold alt_chapter_pattern in Hm.
    apply matches_Seq in Hm as (s1 & caps1 & H1 & Hm).
    apply matches_Seq in Hm as (s2 & caps2 & H2 & _).
    apply matches_Lit in H2 as [-> _].
    assert (Hpre : exists pre, x2 = pre ++ lit ":" ++ s2).
    { apply matches_Alt in H1 as [H1 | H1].
      - apply matches_Seq in H1 as (s3 & caps3 & H3 & H1).
        apply matches_Lit in H3 as [-> _].
        destruct H1 as (s4 & caps4 & (c & -> & _) & (l & -> & _)).
        exists (lit "Chapter " ++ c :: l). now rewrite <- !app_assoc.
      - apply matches_Lit in H1 as [-> _]. now exists (lit "Chapter"). }
    destruct Hpre as (pre & Hpre). exact (Hcolon x1 x2 pre s2 Ho Hpre).
  - exfalso.
    assert (Hin : In m (finditer chapter_pattern outline))
      by (rewrite E; now left).
    apply finditer_sound in Hin as (x1 & x2 & rest & Ho & Hm).
    apply chapter_header_shape in Hm as (c & l & after & Hx & _).
    apply (Hcolon x1 x2 (lit "Chapter " ++ c :: l) after Ho).
    rewrite Hx. now rewrite <- !app_assoc.
Qed.

Lemma lenient_titles outline :
  Forall (fun c => title_delimiter c = false) outline ->
  Forall (fun c => title c = lit "Chapter " ++ str_of_Z (chapter_num c))
         (_lenient_parse_outline outline).
Proof.
  intros H. unfold _lenient_parse_outline. apply lenient_blocks_titles.
  pose proof (pieces_Forall _ outline (finditer chapter_marker outline) 0 H)
    as HF.
  unfold Re.split. destruct (pieces outline 0 _) as [|first rest];
    [constructor|].
  destruct (strip first); [now inversion HF | assumption].
Qed.

(** C7 (as amended). Whenever [parse_outline] returns, the chapters come
    in ascending order of chapter number and no word count is negative.
    The word count is 3000 for every chapter of the strict parser when the
    outline does not hold the text [Estimated word count:], and for every
    chapter of the lenient parser when the outline holds no digit between
    its chapter markers.  Every chapter of an outline without colon or
    hyphen is titled [Chapter N], [N] being its number. *)
Theorem parse_outline_sorted (outline : str) (chapters : list chapter) :
  parse_outline outline = Ok chapters ->
  StronglySorted (fun a b => chapter_num a <= chapter_num b) chapters /\
  Forall (fun c => 0 <= word_count c) chapters /\
  (chapter_matches outline <> [] ->
   occursb (lit "Estimated word count:") outline = false ->
   Forall (fun c => word_count c = 3000) chapters) /\
  (chapter_matches outline = [] ->
   Forall (Forall (fun c => is_digit c = false))
          (Re.split chapter_marker outline) ->
   Forall (fun c => word_count c = 3000) chapters) /\
  (Forall (fun c => title_delimiter c = false) outline ->
   Forall (fun c => title c = lit "Chapter " ++ str_of_Z (chapter_num c))
          chapters).
Proof.
  intros H. unfold parse_outline in H.
  destruct (strict_chapters outline (chapter_matches outline))
    as [strict | e] eqn:E; [|discriminate].
  simpl in H. injection H as <-.
  pose proof (strict_chapters_length _ _ _ E) as Hlen.
  split; [|split; [|split; [|split]]].
  - apply sort_chapters_sorted.
  - apply sort_chapters_Forall. destruct strict as [|ch strict].
    + apply lenient_blocks_count.
    + eapply strict_chapters_count. exact E.
  - intros Hstrict Habsent. apply sort_chapters_Forall.
    destruct strict as [|ch strict].
    + destruct (chapter_matches outline); [contradiction | discriminate].
    + now apply (strict_chapters_default outline (chapter_matches outline)).
  - intros Hnone Hblocks. rewrite Hnone in E. injection E as <-.
    apply sort_chapters_Forall. now apply lenient_default.
  - intros Hplain.
    rewrite (headers_need_colon outline Hplain) in E. injection E as <-.
    apply sort_chapters_Forall. now apply lenient_titles.
Qed.

Lemma parse_outline_sorted_witness :
  StronglySorted (fun a b => chapter_num a <= chapter_num b)
    [ {| chapter_num := 1; title := lit "Dawn";
         summary := lit "They arrive."; word_count := 3000 |};
      {| chapter_num := 2; title := lit "Dusk";
         summary := lit "They leave."; word_count := 1200 |} ].
Proof.
  apply (parse_outline_sorted two_chapters). vm_compute. reflexivity.
Defined.

(** C7, as stated, fails: a header directly followed by the summary line
    gives an empty title, and a word count of zero is taken as it is. *)
Lemma parse_outline_title_counterexample :
  parse_outline (lit "Chapter 1:" ++ nl ++ lit "Summary: x")
  = Ok [ {| chapter_num := 1; title := [];
            summary := lit "x"; word_count := 3000 |} ] /\
  parse_outline
    (lit "Chapter 1: Dawn" ++ nl ++ lit "Summary: x" ++ nl
     ++ lit "Estimated word count: 0")
  = Ok [ {| chapter_num := 1; title := lit "Dawn";
            summary := lit "x"; word_count := 0 |} ].
Proof. split; vm_compute; reflexivity. Qed.

(** *** Greedy repetition *)

(** [p*] takes all of a run of [p] when what follows the pattern matches
    after it. *)
Lemma star_greedy {A} p (l rest : str) (k : str -> option A) x :
  Forall (fun c => p c = true) l ->
  (forall c t, rest = c :: t -> p c = false) ->
  k rest = Some x ->
  star p (l ++ rest) k = Some x.
Proof.
  intros Hl Hrest Hk. induction Hl as [|c l Hc _ IH].
  - destruct rest as [|c t]; simpl; [assumption|].
    now rewrite (Hrest c t eq_refl).
  - simpl. now rewrite Hc, IH.
Qed.

(** [p*] fails when what follows the pattern fails after every part of
    the run. *)
Lemma star_fails {A} p (l rest : str) (k : str -> option A) :
  (forall c t, rest = c :: t -> p c = false) ->
  (forall l1 l2, l = l1 ++ l2 -> k (l2 ++ rest) = None) ->
  star p (l ++ rest) k = None.
Proof.
  intros Hrest. induction l as [|c l IH]; intros Hk.
  - pose proof (Hk [] [] eq_refl) as H0. simpl in H0.
    destruct rest as [|c t]; simpl; [assumption|].
    now rewrite (Hrest c t eq_refl).
  - pose proof (Hk [] (c :: l) eq_refl) as H0. cbn [app] in H0.
    cbn [app star]. rewrite IH, H0; [now destruct (p c)|].
    intros l1 l2 E. apply (Hk (c :: l1) l2). now rewrite E.
Qed.

Lemma run_Star_greedy {A} p (l rest : str) caps
    (k : str -> captures -> option A) x :
  Forall (fun c => p c = true) l ->
  (forall c t, rest = c :: t -> p c = false) ->
  k rest caps = Some x ->
  run (Star p) (l ++ rest) caps k = Some x.
Proof. intros Hl Hrest Hk. simpl. now apply star_greedy. Qed.

Lemma run_Plus_greedy {A} p (l rest : str) caps
    (k : str -> captures -> option A) x :
  l <> [] -> Forall (fun c => p c = true) l ->
  (forall c t, rest = c :: t -> p c = false) ->
  k rest caps = Some x ->
  run (Plus p) (l ++ rest) caps k = Some x.
Proof.
  intros Hne Hl Hrest Hk. destruct l as [|c l]; [congruence|].
  inversion Hl as [|? ? Hc Hl']; subst.
  unfold Plus. rewrite run_Seq. cbn [app run].
  rewrite Hc. now apply star_greedy.
Qed.

(** A group takes what its pattern takes. *)
Lemma run_Group_to {A} n r (l rest : str) caps
    (k : str -> captures -> option A) x :
  (forall k' : str -> captures -> option A,
     k' rest caps = Some x -> run r (l ++ rest) caps k' = Some x) ->
  k rest ((n, l) :: caps) = Some x ->
  run (Group n r) (l ++ rest) caps k = Some x.
Proof. intros H Hk. cbn [run]. apply H. now rewrite firstn_app_exact. Qed.

Lemma finditer_head r s rest caps i :
  match_at r s = Some (rest, caps) ->
  exists m ms, finditer_from r s i 0 = m :: ms /\ groups m = caps.
Proof.
  intros H. destruct s; cbn [finditer_from]; rewrite H; now eexists _, _.
Qed.

End ParsingFacts.

(* ------------------------------------------------------------------ *)

Module TextPatternsFacts.
Import PyStr Re TextProcessing Parsing TextPatterns.
Import TextProcessingFacts ParsingFacts.

Lemma matches_groupless r : forall s s' caps caps',
  groupless r = true -> matches r s s' caps caps' -> caps' = caps.
Proof.
  induction r as [|p|r1 IH1 r2 IH2|r1 IH1 r2 IH2|p|p|n r1 IH1|r1 IH1|];
    intros s s' caps caps' Hg H; simpl in Hg, H; try discriminate.
  - now destruct H.
  - now destruct H as (c & _ & _ & ->).
  - apply andb_prop in Hg as [G1 G2].
    destruct H as (s1 & caps1 & H1 & H2).
    apply IH1 in H1; [|assumption]. apply IH2 in H2; [|assumption]. congruence.
  - apply andb_prop in Hg as [G1 G2]. destruct H as [H | H]; eauto.
  - now destruct H as (l & _ & _ & ->).
  - now destruct H as (l & _ & _ & ->).
  - destruct H as (_ & s2 & H). eauto.
  - now destruct H as (_ & -> & _).
Qed.

Lemma groupless_one_of first others : groupless (one_of first others) = true.
Proof.
  assert (HL : forall l, groupless (Lit l) = true)
    by (induction l as [|c l IH]; simpl; auto).
  revert first. induction others as [|next others IH]; intros first; simpl.
  - apply HL.
  - now rewrite HL, IH.
Qed.

Lemma groupless_Lit l : groupless (Lit l) = true.
Proof. induction l as [|c l IH]; simpl; auto. Qed.

Lemma matches_plus_group n p s s' caps caps' :
  matches (Group n (Plus p)) s s' caps caps' ->
  exists c l, s = (c :: l) ++ s' /\ caps' = (n, c :: l) :: caps /\
              p c = true /\ Forall (fun x => p x = true) l.
Proof.
  simpl. intros (caps1 & (s1 & caps2 & (c & -> & Hc & ->) & (l & -> & Hl & ->))
                 & ->).
  exists c, l. repeat split; try assumption.
  f_equal. f_equal. apply (firstn_app_exact (c :: l) s').
Qed.

Lemma matches_capitalised n s s' caps caps' :
  matches (Group n capitalised) s s' caps caps' ->
  exists g, s = g ++ s' /\ caps' = (n, g) :: caps /\ capitalised_word g.
Proof.
  simpl.
  intros (caps1 & (s1 & caps2 & (c & -> & Hc & ->)
                   & (s2 & caps3 & (d & -> & Hd & ->) & (l & -> & Hl & ->)))
          & ->).
  exists (c :: d :: l). split; [reflexivity|]. split.
  - f_equal. f_equal. apply (firstn_app_exact (c :: d :: l) s').
  - exists c, d, l. repeat split; try assumption. now constructor.
Qed.

(** What a match of the pattern with a speaker holds. *)
Lemma dialogue_shape x rest caps :
  matches dialogue_pattern x rest [] caps ->
  exists d sp ws p ws' after,
    x = dquote ++ d ++ dquote ++ ws ++ p ++ ws' ++ sp ++ after /\
    caps = [(2%nat, sp); (1%nat, d)] /\
    quotation d /\ capitalised_word sp /\
    Forall (fun c => isspace c = true) (ws ++ ws') /\
    (p = lit "," \/ p = lit ".").
Proof.
  unfold dialogue_pattern. intros H.
  apply matches_Seq in H as (s1 & caps1 & H1 & H).
  apply matches_Lit in H1 as [-> ->].
  apply matches_Seq in H as (s2 & caps2 & H2 & H).
  apply matches_plus_group in H2 as (c & l & -> & -> & Hc & Hl).
  apply matches_Seq in H as (s3 & caps3 & H3 & H).
  apply matches_Lit in H3 as [-> ->].
  apply matches_Seq in H as (s4 & caps4 & H4 & H).
  apply matches_Star in H4 as (ws & -> & Hws & ->).
  apply matches_Seq in H as (s5 & caps5 & H5 & H).
  assert (Hp : exists p, s4 = p ++ s5 /\ caps5 = [(1%nat, c :: l)]
                         /\ (p = lit "," \/ p = lit ".")).
  { apply matches_Alt in H5 as [H5 | H5]; apply matches_Lit in H5 as [-> ->];
      eexists; repeat split; auto. }
  destruct Hp as (p & -> & -> & Hp).
  apply matches_Seq in H as (s6 & caps6 & H6 & H).
  apply matches_Star in H6 as (ws' & -> & Hws' & ->).
  apply matches_Seq in H as (s7 & caps7 & H7 & H).
  apply matches_Seq in H7 as (s8 & caps8 & H8 & H7).
  apply matches_capitalised in H8 as (sp & -> & -> & Hsp).
  apply matches_groupless in H7; [subst caps7 | reflexivity].
  apply matches_groupless in H; [subst caps | reflexivity].
  exists (c :: l), sp, ws, p, ws', s8. repeat split; try assumption.
  - discriminate.
  - now constructor.
  - apply Forall_app. now split.
Qed.

Lemma quote_shape x rest caps :
  matches quote_pattern x rest [] caps ->
  exists d after,
    x = dquote ++ d ++ dquote ++ after /\ caps = [(1%nat, d)] /\ quotation d.
Proof.
  unfold quote_pattern. intros H.
  apply matches_Seq in H as (s1 & caps1 & H1 & H).
  apply matches_Lit in H1 as [-> ->].
  apply matches_Seq in H as (s2 & caps2 & H2 & H).
  apply matches_plus_group in H2 as (c & l & -> & -> & Hc & Hl).
  apply matches_Lit in H as [-> ->].
  exists (c :: l), rest. repeat split; try assumption.
  - discriminate.
  - now constructor.
Qed.

(** X15. Every line that [extract_dialogue] returns is a quotation of the
    text: it is not empty, holds no double quote and stands between two
    double quotes.  Either every speaker is a capitalised name, which in
    the text follows the closing quote after a comma or a full stop, or
    every speaker is [Unknown]. *)
Theorem extract_dialogue_quotations (text : str) :
  Forall (fun l => quotation (dialogue l) /\ quoted text (dialogue l))
         (extract_dialogue text) /\
  (Forall (fun l => capitalised_word (speaker l) /\
                    attributed text (dialogue l) (speaker l))
          (extract_dialogue text) \/
   Forall (fun l => speaker l = lit "Unknown") (extract_dialogue text)).
Proof.
  unfold extract_dialogue.
  set (named := map _ (filter _ (map _ (finditer dialogue_pattern text)))).
  assert (Hnamed : Forall (fun l =>
                     (quotation (dialogue l) /\ quoted text (dialogue l)) /\
                     capitalised_word (speaker l) /\
                     attributed text (dialogue l) (speaker l)) named).
  { subst named. apply Forall_forall. intros l Hl.
    apply in_map_iff in Hl as ([d sp] & <- & Hl).
    apply filter_In in Hl as [Hl _].
    apply in_map_iff in Hl as (m & Hm & Hin).
    apply finditer_sound in Hin as (x1 & x2 & rest & -> & Hmatch).
    apply dialogue_shape in Hmatch
      as (d' & sp' & ws & p & ws' & after & -> & Hcaps & Hq & Hs & Hws & Hp).
    unfold group_of in Hm. rewrite Hcaps in Hm. simpl in Hm.
    injection Hm as <- <-. cbn [dialogue speaker].
    split; [split; [assumption|] | split; [assumption|]].
    - now exists x1, (ws ++ p ++ ws' ++ sp' ++ after).
    - now exists x1, ws, p, ws', after. }
  destruct named as [|l0 named'] eqn:E.
  - split; [|right].
    + apply Forall_forall. intros l Hl.
      apply in_map_iff in Hl as (q & <- & Hl).
      apply filter_In in Hl as [Hl _].
      apply in_map_iff in Hl as (m & Hm & Hin).
      apply finditer_sound in Hin as (x1 & x2 & rest & -> & Hmatch).
      apply quote_shape in Hmatch as (d & after & -> & Hcaps & Hq).
      unfold group_of in Hm. rewrite Hcaps in Hm. simpl in Hm. subst q.
      cbn [dialogue]. split; [assumption|]. now exists x1, after.
    + apply Forall_forall. intros l Hl.
      now apply in_map_iff in Hl as (q & <- & _).
  - split; [|left]; eapply Forall_impl; try exact Hnamed; simpl; tauto.
Qed.

(** *** Scene breaks *)

Lemma finditer_at r s : forall i skip m,
  In m (finditer_from r s i skip) ->
  exists x1 x2 rest,
    s = x1 ++ x2 /\ start m = (i + length x1)%nat /\
    matches r x2 rest [] (groups m).
Proof.
  induction s as [|c t IH]; intros i skip m H.
  - destruct skip; simpl in H; [|contradiction].
    destruct (match_at r []) as [[rest caps]|] eqn:E; [|contradiction].
    destruct H as [<- | []]. unfold match_at in E.
    apply run_sound in E as (s' & caps' & Hm & [= <- <-]).
    exists [], [], s'. simpl. repeat split; [lia | assumption].
  - destruct skip as [|skip]; simpl in H.
    + destruct (match_at r (c :: t)) as [[rest caps]|] eqn:E.
      * destruct H as [<- | H].
        -- unfold match_at in E.
           apply run_sound in E as (s' & caps' & Hm & [= <- <-]).
           exists [], (c :: t), s'. simpl. repeat split; [lia | assumption].
        -- apply IH in H as (x1 & x2 & rest' & -> & Hs & Hm).
           exists (c :: x1), x2, rest'. simpl. repeat split; [lia | assumption].
      * apply IH in H as (x1 & x2 & rest' & -> & Hs & Hm).
        exists (c :: x1), x2, rest'. simpl. repeat split; [lia | assumption].
    + apply IH in H as (x1 & x2 & rest' & -> & Hs & Hm).
      exists (c :: x1), x2, rest'. simpl. repeat split; [lia | assumption].
Qed.

Lemma insert_new_In x y l : In y (insert_new x l) <-> y = x \/ In y l.
Proof.
  induction l as [|z l IH]; simpl; [intuition|].
  destruct (Z.ltb_spec x z); simpl; [intuition|].
  destruct (Z.eqb_spec x z); simpl; [subst; intuition|].
  rewrite IH. intuition.
Qed.

Lemma sorted_set_In y l : In y (sorted_set l) <-> In y l.
Proof.
  induction l as [|x l IH]; simpl; [reflexivity|].
  rewrite insert_new_In, IH. intuition.
Qed.

Lemma insert_new_sorted x l :
  StronglySorted Z.lt l -> StronglySorted Z.lt (insert_new x l).
Proof.
  induction l as [|z l IH]; intros H; simpl; [repeat constructor|].
  inversion H as [|? ? Hl Hz]; subst.
  destruct (Z.ltb_spec x z).
  - constructor; [assumption|]. constructor; [assumption|].
    eapply Forall_impl; [|exact Hz]. simpl. lia.
  - destruct (Z.eqb_spec x z); [assumption|].
    constructor; [now apply IH|].
    apply Forall_forall. intros y Hy. apply insert_new_In in Hy as [-> | Hy].
    + lia.
    + rewrite Forall_forall in Hz. now apply Hz.
Qed.

Lemma sorted_set_sorted l : StronglySorted Z.lt (sorted_set l).
Proof.
  induction l as [|x l IH]; simpl; [constructor | now apply insert_new_sorted].
Qed.

Lemma marker_shape symbol x rest caps caps' :
  matches (marker symbol) x rest caps caps' -> exists after, x = nl ++ after.
Proof.
  unfold marker. intros H.
  apply matches_Seq in H as (s1 & caps1 & H1 & _).
  apply matches_Lit in H1 as [-> _]. now exists s1.
Qed.

Lemma transition_shape opening words x rest caps caps' :
  matches (transition opening words) x rest caps caps' ->
  exists after, x = nl ++ after.
Proof.
  unfold transition. intros H.
  apply matches_Seq in H as (s1 & caps1 & H1 & _).
  apply matches_Lit in H1 as [-> _]. now exists (nl ++ s1).
Qed.

Lemma starts_of_newline patterns text :
  Forall (fun r => forall x rest caps,
            matches r x rest [] caps -> exists after, x = nl ++ after)
         patterns ->
  Forall (fun i => 0 <= i /\ slice text (Some i) (Some (i + 1)) = nl)
         (starts_of patterns text).
Proof.
  intros Hp. apply Forall_forall. intros i Hi.
  unfold starts_of in Hi. apply in_flat_map in Hi as (r & Hr & Hi).
  apply in_map_iff in Hi as (m & <- & Hm).
  rewrite Forall_forall in Hp.
  apply finditer_at in Hm as (x1 & x2 & rest & -> & -> & Hmatch).
  apply (Hp r Hr) in Hmatch as (after & ->).
  split; [lia|]. rewrite slice_valid.
  - replace (Z.to_nat (Z.of_nat (0 + length x1))) with (length x1) by lia.
    rewrite skipn_app, skipn_all, Nat.sub_diag. simpl.
    replace (Z.to_nat (Z.of_nat (length x1) + 1 - Z.of_nat (length x1)))
      with 1%nat by lia. reflexivity.
  - lia.
  - lia.
  - unfold len. rewrite length_app. simpl. lia.
Qed.

(** X16. The indices that [identify_scene_breaks] returns are in strictly
    ascending order, and each one is the index of a line feed of the
    text. *)
Theorem identify_scene_breaks_sorted (text : str) :
  StronglySorted Z.lt (identify_scene_breaks text) /\
  Forall (fun i => 0 <= i /\ slice text (Some i) (Some (i + 1)) = nl)
         (identify_scene_breaks text).
Proof.
  unfold identify_scene_breaks. split; [apply sorted_set_sorted|].
  apply Forall_forall. intros i Hi. apply (proj1 (sorted_set_In _ _)) in Hi.
  apply in_app_iff in Hi as [Hi | Hi].
  - assert (H : Forall (fun i => 0 <= i
                                 /\ slice text (Some i) (Some (i + 1)) = nl)
                        (starts_of explicit_markers text)).
    { apply starts_of_newline. unfold explicit_markers.
      repeat (constructor; [intros x rest caps; apply marker_shape|]).
      constructor. }
    rewrite Forall_forall in H. now apply H.
  - assert (H : Forall (fun i => 0 <= i
                                 /\ slice text (Some i) (Some (i + 1)) = nl)
                        (starts_of transition_patterns text)).
    { apply starts_of_newline. unfold transition_patterns.
      repeat (constructor; [intros x rest caps; apply transition_shape|]).
      constructor. }
    rewrite Forall_forall in H. now apply H.
Qed.

(** *** Classes of characters *)

Lemma upper_not_space c : upper_az c = true -> isspace c = false.
Proof.
  unfold upper_az, isspace, between. intros H.
  apply andb_true_iff in H as [H1 H2].
  apply Z.leb_le in H1. apply Z.leb_le in H2.
  repeat (apply orb_false_iff; split);
    try (apply andb_false_iff);
    try (apply Z.eqb_neq; lia).
  - right. apply Z.leb_gt. lia.
  - right. apply Z.leb_gt. lia.
Qed.

Lemma lower_not_space c : lower_az c = true -> isspace c = false.
Proof.
  unfold lower_az, isspace, between. intros H.
  apply andb_true_iff in H as [H1 H2].
  apply Z.leb_le in H1. apply Z.leb_le in H2.
  repeat (apply orb_false_iff; split);
    try (apply andb_false_iff);
    try (apply Z.eqb_neq; lia).
  - right. apply Z.leb_gt. lia.
  - right. apply Z.leb_gt. lia.
Qed.

Lemma lower_not_upper c : lower_az c = true -> upper_az c = false.
Proof.
  unfold lower_az, upper_az, between. intros H.
  apply andb_true_iff in H as [H1 H2].
  apply Z.leb_le in H1. apply Z.leb_le in H2.
  apply andb_false_iff. right. apply Z.leb_gt. lia.
Qed.

Lemma space_not_lower c : isspace c = true -> lower_az c = false.
Proof.
  intros H. destruct (lower_az c) eqn:E; [|reflexivity].
  apply lower_not_space in E. congruence.
Qed.

Lemma space_not_upper c : isspace c = true -> upper_az c = false.
Proof.
  intros H. destruct (upper_az c) eqn:E; [|reflexivity].
  apply upper_not_space in E. congruence.
Qed.

(** A verb starts with a small letter and is found by the alternation. *)
Lemma verb_small verb : In verb verbs ->
  exists c t, verb = c :: t /\ lower_az c = true.
Proof.
  unfold verbs. intros H.
  repeat (destruct H as [<- | H]; [eexists _, _; split; reflexivity|]).
  contradiction.
Qed.

Lemma run_verb {A} verb rest caps (k : str -> captures -> option A) x :
  In verb verbs -> k rest caps = Some x ->
  run (one_of (lit "said")
         [lit "asked"; lit "replied"; lit "answered"; lit "shouted";
          lit "whispered"; lit "muttered"; lit "exclaimed";
          lit "responded"]) (verb ++ rest) caps k = Some x.
Proof.
  unfold verbs. intros H Hk.
  repeat (destruct H as [<- | H]; [cbn; now rewrite Hk|]).
  contradiction.
Qed.

(** A capitalised word, followed by white space, is read to its end. *)
Lemma run_capitalised {A} word rest caps (k : str -> captures -> option A) x :
  capitalised_word word ->
  (forall c t, rest = c :: t -> lower_az c = false) ->
  k rest caps = Some x ->
  run capitalised (word ++ rest) caps k = Some x.
Proof.
  intros (u & d & l & -> & Hu & Hl) Hrest Hk.
  unfold capitalised. rewrite run_Seq. cbn [app run]. rewrite Hu.
  apply (run_Plus_greedy lower_az (d :: l) rest); try assumption.
  discriminate.
Qed.

Lemma run_punctuation {A} p rest caps (k : str -> captures -> option A) x :
  p = lit "," \/ p = lit "." -> k rest caps = Some x ->
  run (Alt (Lit (lit ",")) (Lit (lit "."))) (p ++ rest) caps k = Some x.
Proof. intros [-> | ->] Hk; cbn; now rewrite Hk. Qed.

Lemma blank_head ws rest : blank ws ->
  exists c t, ws ++ rest = c :: t /\ isspace c = true.
Proof.
  intros [Hne H]. destruct ws as [|c ws]; [congruence|].
  inversion H; subst. now exists c, (ws ++ rest).
Qed.

Lemma capitalised_head word rest : capitalised_word word ->
  exists c t, word ++ rest = c :: t /\ upper_az c = true.
Proof. intros (u & d & l & -> & Hu & _). now eexists _, _. Qed.

(** The verb is read after the white space before it. *)
Lemma run_said {A} ws verb after caps (k : str -> captures -> option A) x :
  blank ws -> In verb verbs -> k after caps = Some x ->
  run (Seq (Plus isspace)
         (one_of (lit "said")
            [lit "asked"; lit "replied"; lit "answered"; lit "shouted";
             lit "whispered"; lit "muttered"; lit "exclaimed";
             lit "responded"])) (ws ++ verb ++ after) caps k = Some x.
Proof.
  intros [Hne Hws] Hverb Hk. rewrite run_Seq.
  apply run_Plus_greedy; try assumption.
  - destruct (verb_small verb Hverb) as (c & t & -> & Hc).
    intros c' t' [= <- <-]. now apply lower_not_space.
  - now apply run_verb.
Qed.

(** No second name is read where the verb stands. *)
Lemma no_second_name {A} ws verb after caps (k : str -> captures -> option A) :
  blank ws -> In verb verbs ->
  run (Seq (Plus isspace) capitalised) (ws ++ verb ++ after) caps k = None.
Proof.
  intros [Hne Hws] Hverb.
  destruct (verb_small verb Hverb) as (v & vt & -> & Hv).
  destruct ws as [|w ws]; [congruence|]. inversion Hws as [|? ? Hw Hws']; subst.
  rewrite run_Seq. unfold Plus. rewrite run_Seq. cbn [app run]. rewrite Hw.
  apply star_fails.
  - intros c t [= <- <-]. now apply lower_not_space.
  - intros l1 l2 E. unfold capitalised. rewrite run_Seq.
    destruct l2 as [|c l2]; cbn [app run].
    + now rewrite (lower_not_upper v Hv).
    + assert (Hc : isspace c = true).
      { subst ws. apply Forall_app in Hws' as [_ H]. now inversion H. }
      now rewrite (space_not_upper c Hc).
Qed.

(** The attribution is found where it starts. *)
Lemma attribution_match d ws p ws' sp second ws'' verb after :
  quotation d ->
  Forall (fun c => isspace c = true) ws ->
  p = lit "," \/ p = lit "." ->
  Forall (fun c => isspace c = true) ws' ->
  capitalised_word sp -> second_name second -> blank ws'' ->
  In verb verbs ->
  match_at dialogue_pattern
    (dquote ++ d ++ dquote ++ ws ++ p ++ ws' ++ sp ++ second ++ ws''
     ++ verb ++ after)
  = Some (after, [(2%nat, sp); (1%nat, d)]).
Proof.
  intros [Hd Hq] Hws Hp Hws' Hsp Hsecond Hws'' Hverb.
  unfold match_at, dialogue_pattern.
  rewrite run_Seq, run_Lit_match, run_Seq.
  apply run_Group_to.
  { intros k' Hk'. apply run_Plus_greedy; try assumption.
    intros c t [= <- <-]. reflexivity. }
  rewrite run_Seq, run_Lit_match, run_Seq.
  apply run_Star_greedy; [assumption| |].
  { intros c t E. destruct Hp as [-> | ->]; injection E as <- _; reflexivity. }
  rewrite run_Seq. apply run_punctuation; [assumption|].
  rewrite run_Seq. apply run_Star_greedy; [assumption| |].
  { intros c t E.
    destruct (capitalised_head sp (second ++ ws'' ++ verb ++ after) Hsp)
      as (u & t' & E' & Hu).
    rewrite E' in E. injection E as <- _. now apply upper_not_space. }
  rewrite run_Seq, run_Seq.
  assert (Hnext : forall c t, second ++ ws'' ++ verb ++ after = c :: t ->
                              isspace c = true).
  { intros c t E. destruct Hsecond as [-> | (ws1 & word & -> & Hws1 & _)].
    - destruct (blank_head ws'' (verb ++ after) Hws'') as (c' & t' & E' & Hc').
      cbn [app] in E. rewrite E' in E. now injection E as <- _.
    - rewrite <- app_assoc in E.
      destruct (blank_head ws1 (word ++ ws'' ++ verb ++ after) Hws1)
        as (c' & t' & E' & Hc').
      rewrite E' in E. now injection E as <- _. }
  apply run_Group_to.
  { intros k' Hk'. apply run_capitalised; try assumption.
    intros c t E. apply space_not_lower. now apply (Hnext c t). }
  destruct Hsecond as [-> | (ws1 & word & -> & Hws1 & Hword)].
  - cbn [app]. rewrite run_Alt, no_second_name by assumption.
    cbn [run]. now apply run_said.
  - rewrite <- app_assoc, run_Alt.
    assert (E : run (Seq (Plus isspace) capitalised)
                  (ws1 ++ word ++ ws'' ++ verb ++ after)
                  [(2%nat, sp); (1%nat, d)]
                  (fun s1 caps1 =>
                     run (Seq (Plus isspace)
                            (one_of (lit "said")
                               [lit "asked"; lit "replied"; lit "answered";
                                lit "shouted"; lit "whispered"; lit "muttered";
                                lit "exclaimed"; lit "responded"]))
                       s1 caps1 (fun s' caps => Some (s', caps)))
                = Some (after, [(2%nat, sp); (1%nat, d)])).
    { rewrite run_Seq. destruct Hws1 as [Hne1 Hws1].
      apply run_Plus_greedy; try assumption.
      - intros c t E.
        destruct (capitalised_head word (ws'' ++ verb ++ after) Hword)
          as (u & t' & E' & Hu).
        rewrite E' in E. injection E as <- _. now apply upper_not_space.
      - apply run_capitalised; try assumption.
        + intros c t E.
          destruct (blank_head ws'' (verb ++ after) Hws'') as (c' & t' & E' & Hc').
          rewrite E' in E. injection E as <- _. now apply space_not_lower.
        + now apply run_said. }
    now rewrite E.
Qed.

Section Attribution.
Variables before d ws p ws' sp second ws'' verb after : str.

(** X22. A quotation that is followed by a comma or a full stop, a capitalised
    name and one of the verbs is returned with that name as its speaker,
    when no double quote stands before it; of a name of two capitalised
    words the speaker is the first. *)
Theorem extract_dialogue_attributed :
  Forall (fun c => not_quote c = true) before ->
  quotation d ->
  Forall (fun c => isspace c = true) ws ->
  p = lit "," \/ p = lit "." ->
  Forall (fun c => isspace c = true) ws' ->
  capitalised_word sp -> second_name second -> blank ws'' ->
  In verb verbs ->
  exists more,
    extract_dialogue
      (before ++ dquote ++ d ++ dquote ++ ws ++ p ++ ws' ++ sp ++ second
       ++ ws'' ++ verb ++ after)
    = {| dialogue := d; speaker := sp |} :: more.
Proof.
  intros Hbefore Hd Hws Hp Hws' Hsp Hsecond Hws'' Hverb.
  pose proof (attribution_match d ws p ws' sp second ws'' verb after
                Hd Hws Hp Hws' Hsp Hsecond Hws'' Hverb) as Hm.
  unfold extract_dialogue, finditer.
  rewrite finditer_skip.
  - destruct (finditer_head _ _ _ _ (0 + length before) Hm)
      as (m & ms & -> & Hg).
    cbn [map filter]. unfold group_of. rewrite Hg. cbn [group Nat.eqb].
    assert (Hn : nonempty d && nonempty sp = true).
    { destruct Hd as [Hd _]. destruct Hsp as (u & c & l & -> & _).
      destruct d; [congruence | reflexivity]. }
    rewrite Hn. cbn [map]. now eexists.
  - intros l1 c t E. unfold match_at, dialogue_pattern. rewrite run_Seq.
    apply run_Lit_fail.
    assert (Hc : not_quote c = true).
    { subst before. apply Forall_app in Hbefore as [_ H]. now inversion H. }
    unfold not_quote in Hc. apply negb_true_iff in Hc.
    cbn [dquote prefixb]. rewrite Ascii.eqb_sym, Hc. reflexivity.
Qed.

End Attribution.

Lemma extract_dialogue_attributed_witness :
  exists more,
    extract_dialogue
      (lit "Then: " ++ dquote ++ lit "Run" ++ dquote ++ [] ++ lit "," ++ lit " "
       ++ lit "Ada" ++ lit " King" ++ lit " " ++ lit "said" ++ lit " again.")
    = {| dialogue := lit "Run"; speaker := lit "Ada" |} :: more.
Proof.
  apply extract_dialogue_attributed.
  - repeat constructor.
  - split; [discriminate | repeat constructor].
  - constructor.
  - now left.
  - repeat constructor.
  - exists "A"%char, "d"%char, (lit "a"). repeat split. repeat constructor.
  - right. exists (lit " "), (lit "King"). repeat split; try discriminate.
    + repeat constructor.
    + exists "K"%char, "i"%char, (lit "ng"). repeat split. repeat constructor.
  - split; [discriminate | repeat constructor].
  - now left.
Defined.

End TextPatternsFacts.

(* ------------------------------------------------------------------ *)

Module ProfilesFacts.
Import PyStr Re TextProcessing Parsing Profiles.
Import TextProcessingFacts ParsingFacts.

(** X17. [extract_character_profiles] never returns an empty list.  For a
    blank text it returns the one profile ["Main Character"] that holds the
    text as it is; every other profile it returns holds a block that is
    not empty and has no white space at either end. *)
Theorem extract_character_profiles_blocks (profiles_text : str) :
  extract_character_profiles profiles_text <> [] /\
  (strip profiles_text = [] ->
   extract_character_profiles profiles_text = [main_character profiles_text]) /\
  (extract_character_profiles profiles_text = [main_character profiles_text] \/
   Forall (fun c => full_profile c <> [] /\
                    strip (full_profile c) = full_profile c)
          (extract_character_profiles profiles_text)).
Proof.
  unfold extract_character_profiles.
  set (blocks := map strip (filter _ (Re.split block_separator profiles_text))).
  assert (Hblocks : Forall (fun b => b <> [] /\ strip b = b) blocks).
  { subst blocks. apply Forall_forall. intros b Hb.
    apply in_map_iff in Hb as (x & <- & Hx). apply filter_In in Hx as [_ Hx].
    split; [|apply strip_idem]. now destruct (strip x). }
  split; [|split].
  - destruct (map character_of blocks); discriminate.
  - intros Hblank. apply strip_nil in Hblank.
    assert (E : blocks = []).
    { subst blocks. clear Hblocks.
      assert (Hp : Forall (Forall (fun c => isspace c = true))
                     (Re.split block_separator profiles_text)).
      { apply pieces_Forall. apply Forall_forall.
        rewrite forallb_forall in Hblank. exact Hblank. }
      induction (Re.split block_separator profiles_text) as [|x xs IH];
        [reflexivity|].
      inversion Hp as [|? ? Hx Hxs]; subst. cbn [filter].
      rewrite (strip_blank x); [cbn [nonempty]; now apply IH|].
      apply forallb_forall. now rewrite Forall_forall in Hx. }
    now rewrite E.
  - destruct blocks as [|b bs] eqn:E; [now left|]. right.
    change (Forall (fun c => full_profile c <> []
                             /\ strip (full_profile c) = full_profile c)
              (map character_of (b :: bs))).
    apply Forall_forall. intros ch Hch.
    apply in_map_iff in Hch as (blk & <- & Hblk).
    rewrite Forall_forall in Hblocks. now apply Hblocks.
Qed.

Lemma extract_character_profiles_blocks_witness :
  extract_character_profiles (lit "  ") = [main_character (lit "  ")].
Proof.
  apply (proj1 (proj2 (extract_character_profiles_blocks (lit "  ")))).
  reflexivity.
Defined.

(** *** Entries *)

Lemma last_app_more {A} (l r : list A) d : r <> [] -> last (l ++ r) d = last r d.
Proof.
  intros Hr. induction l as [|x l IH]; [reflexivity|].
  cbn [app]. destruct (l ++ r) eqn:E.
  - apply app_eq_nil in E as [_ ->]. congruence.
  - rewrite <- IH. reflexivity.
Qed.

Lemma last_indep {A} (l : list A) d d' : l <> [] -> last l d = last l d'.
Proof.
  induction l as [|x l IH]; [congruence|]. intros _.
  destruct l; [reflexivity|]. cbn [last] in *. apply IH. discriminate.
Qed.

Lemma strip_keep c t :
  isspace c = false -> isspace (last (c :: t) c) = false ->
  strip (c :: t) = c :: t.
Proof.
  intros Hc Hl. unfold strip. rewrite (lstrip_keep c t Hc).
  assert (E : rev (c :: t)
              = last (c :: t) c :: rev (removelast (c :: t))).
  { rewrite (app_removelast_last c (l := c :: t)) at 1 by discriminate.
    now rewrite rev_app_distr. }
  rewrite E, (lstrip_keep _ _ Hl), <- E. apply rev_involutive.
Qed.

Lemma entry_inv s :
  entry s = true ->
  exists c t,
    s = c :: t /\ isspace c = false /\ isspace (last s c) = false /\
    Forall (fun x => not_newline x = true) s /\ ~ In ":"%char s.
Proof.
  unfold entry. destruct s as [|c t]; [discriminate|]. intros H.
  apply andb_prop in H as [H H3]. apply andb_prop in H as [H1 H2].
  apply negb_true_iff in H1, H2.
  exists c, t. repeat split; try assumption.
  - apply Forall_forall. intros x Hx.
    rewrite forallb_forall in H3. apply H3 in Hx.
    now apply andb_prop in Hx as [Hx _].
  - intros Hin. rewrite forallb_forall in H3. apply H3 in Hin.
    apply andb_prop in Hin as [_ Hin]. discriminate.
Qed.

(** *** Headings *)

(** A text found by a literal under [re.IGNORECASE] holds no character
    that the literal, case apart, does not hold. *)
Lemma matches_LitI_free (bad : ascii) l : forall s s' caps caps',
  forallb (fun x => negb (same_letter x bad)) l = true ->
  matches (LitI l) s s' caps caps' ->
  exists l', s = l' ++ s' /\ ~ In bad l' /\ caps' = caps.
Proof.
  induction l as [|c l IH]; intros s s' caps caps' Hl H; simpl in H.
  - destruct H as [-> ->]. now exists [].
  - cbn [forallb] in Hl. apply andb_prop in Hl as [Hc Hl].
    destruct H as (s1 & caps1 & (c0 & -> & Hc0 & ->) & H).
    apply (IH _ _ _ _ Hl) in H as (l' & -> & Hbad & ->).
    exists (c0 :: l'). repeat split. intros [<- | Hin]; [|now apply Hbad].
    rewrite Hc0 in Hc. discriminate.
Qed.

Lemma label_free a b c s s' caps caps' :
  forallb (fun x => negb (same_letter x "010")) (a ++ b ++ c) = true ->
  matches (label a b c) s s' caps caps' ->
  exists l, s = l ++ ":"%char :: s' /\ ~ In "010"%char l.
Proof.
  intros Hfree H. rewrite !forallb_app in Hfree.
  apply andb_prop in Hfree as [Ha Hfree]. apply andb_prop in Hfree as [Hb Hc].
  unfold label in H. apply matches_Seq in H as (s1 & caps1 & H1 & H).
  apply matches_Lit in H as [-> ->].
  destruct H1 as [H1 | [H1 | H1]];
    eapply matches_LitI_free in H1; try eassumption;
    destruct H1 as (l & -> & Hl & ->); exists l; now split.
Qed.

(** A line without a colon holds no colon before its end. *)
Lemma no_colon_in_line (y l s1 rest : str) :
  ~ In ":"%char y -> ~ In "010"%char l ->
  rest = [] \/ (exists t, rest = "010"%char :: t) ->
  y ++ rest = l ++ ":"%char :: s1 -> False.
Proof.
  intros Hy Hl Hrest. revert l Hl. induction y as [|c y IH]; intros l Hl E.
  - cbn [app] in E. destruct Hrest as [-> | (t & ->)].
    + now destruct l.
    + destruct l as [|x l]; [discriminate|]. injection E as <- _.
      apply Hl. now left.
  - destruct l as [|x l].
    + injection E as -> _. apply Hy. now left.
    + injection E as <- E. apply (IH (fun H => Hy (or_intror H)) l); auto.
      intros H. apply Hl. now right.
Qed.

(** A heading is not found on a line without a colon. *)
Lemma label_fails a b c r (y rest : str) :
  forallb (fun x => negb (same_letter x "010")) (a ++ b ++ c) = true ->
  ~ In ":"%char y ->
  rest = [] \/ (exists t, rest = "010"%char :: t) ->
  match_at (Seq (label a b c) r) (y ++ rest) = None.
Proof.
  intros Hfree Hy Hrest. unfold match_at.
  destruct (run _ _ _ _) as [x|] eqn:E; [|reflexivity].
  apply run_sound in E as (s' & caps' & Hm & _).
  apply matches_Seq in Hm as (s1 & caps1 & H1 & _).
  apply (label_free _ _ _ _ _ _ _ Hfree) in H1 as (l & E & Hl).
  exfalso. now apply (no_colon_in_line y l s1 rest).
Qed.

Lemma search_line a b c r (y rest : str) i :
  forallb (fun x => negb (same_letter x "010")) (a ++ b ++ c) = true ->
  ~ In ":"%char y ->
  rest = [] \/ (exists t, rest = "010"%char :: t) ->
  search_from (Seq (label a b c) r) (y ++ rest) i
  = search_from (Seq (label a b c) r) rest (i + length y).
Proof.
  intros Hfree Hy Hrest. apply search_skip. intros l1 x t E.
  apply (label_fails a b c r (x :: t) rest); try assumption.
  intros Hin. apply Hy. rewrite E. apply in_or_app. now right.
Qed.

(** *** One card *)

Ltac by_cases H :=
  repeat (destruct H as [<- | H]; [intros s; vm_compute; reflexivity|]);
  contradiction.

Lemma role_skips_name : skips_name role_pattern.
Proof. intros prefix H. by_cases H. Qed.

Lemma personality_skips_name : skips_name personality_pattern.
Proof. intros prefix H. by_cases H. Qed.

Lemma goals_skips_name : skips_name goals_pattern.
Proof. intros prefix H. by_cases H. Qed.

Lemma personality_skips_role : skips_role personality_pattern.
Proof. intros prefix H. by_cases H. Qed.

Lemma goals_skips_role : skips_role goals_pattern.
Proof. intros prefix H. by_cases H. Qed.

Section Card.
Variables n r : str.
Hypothesis Hn : entry n = true.
Hypothesis Hr : entry r = true.

Lemma search_name_line a b c r' rest i :
  forallb (fun x => negb (same_letter x "010")) (a ++ b ++ c) = true ->
  skips_name (Seq (label a b c) r') ->
  exists j,
    search_from (Seq (label a b c) r') (lit "Name: " ++ n ++ nl ++ rest) i
    = search_from (Seq (label a b c) r') rest j.
Proof.
  intros Hfree Hskip.
  destruct (entry_inv n Hn) as (c0 & t0 & En & _ & _ & _ & Hcolon).
  eexists. cbn [lit list_ascii_of_string app].
  rewrite search_step
    by (apply (Hskip (lit "Name:")); cbn [In]; auto).
  rewrite search_step
    by (apply (Hskip (lit "ame:")); cbn [In]; auto).
  rewrite search_step
    by (apply (Hskip (lit "me:")); cbn [In]; auto).
  rewrite search_step
    by (apply (Hskip (lit "e:")); cbn [In]; auto).
  rewrite search_step
    by (apply (Hskip (lit ":")); cbn [In]; auto 10).
  change (" "%char :: n ++ nl ++ rest) with ((" "%char :: n) ++ nl ++ rest).
  rewrite search_line; try assumption.
  - cbn [nl app]. rewrite search_step; [reflexivity|].
    apply (Hskip nl). cbn [In]. auto 10.
  - intros [H | H]; [discriminate | contradiction].
  - right. now eexists.
Qed.

Lemma search_role_line a b c r' i :
  forallb (fun x => negb (same_letter x "010")) (a ++ b ++ c) = true ->
  skips_role (Seq (label a b c) r') ->
  match_at (Seq (label a b c) r') [] = None ->
  search_from (Seq (label a b c) r') (lit "Role: " ++ r) i = None.
Proof.
  intros Hfree Hskip Hend.
  destruct (entry_inv r Hr) as (c0 & t0 & Er & _ & _ & _ & Hcolon).
  cbn [lit list_ascii_of_string app].
  rewrite search_step
    by (apply (Hskip (lit "Role:")); cbn [In]; auto).
  rewrite search_step
    by (apply (Hskip (lit "ole:")); cbn [In]; auto).
  rewrite search_step
    by (apply (Hskip (lit "le:")); cbn [In]; auto).
  rewrite search_step
    by (apply (Hskip (lit "e:")); cbn [In]; auto).
  rewrite search_step
    by (apply (Hskip (lit ":")); cbn [In]; auto 10).
  rewrite <- (app_nil_r (" "%char :: r)).
  rewrite search_line; try assumption.
  - cbn [search_from]. now rewrite Hend.
  - intros [H | H]; [discriminate | contradiction].
  - now left.
Qed.

(** A heading pattern that is found neither at the heading of the name nor
    at the heading of the role is not found in the card. *)
Lemma search_card_none a b c r' :
  forallb (fun x => negb (same_letter x "010")) (a ++ b ++ c) = true ->
  skips_name (Seq (label a b c) r') ->
  skips_role (Seq (label a b c) r') ->
  match_at (Seq (label a b c) r') [] = None ->
  search (Seq (label a b c) r') (card (n, r)) = None.
Proof.
  intros Hfree Hname Hrole Hend. unfold search, card. cbn [fst snd].
  destruct (search_name_line a b c r' (lit "Role: " ++ r) 0%nat Hfree Hname)
    as (j & ->).
  now apply search_role_line.
Qed.

Lemma card_personality : field personality_pattern (card (n, r)) [] = [].
Proof.
  unfold field, personality_pattern, field_pattern.
  rewrite search_card_none; try reflexivity.
  - exact personality_skips_name.
  - exact personality_skips_role.
Qed.

Lemma card_goals : field goals_pattern (card (n, r)) [] = [].
Proof.
  unfold field, goals_pattern, field_pattern.
  rewrite search_card_none; try reflexivity.
  - exact goals_skips_name.
  - exact goals_skips_role.
Qed.

Lemma run_role_heading {A} s caps (k : str -> captures -> option A) x :
  k s caps = Some x ->
  run (label (lit "Role") (lit "Role in story") (lit "Character role"))
      (lit "Role:" ++ s) caps k = Some x.
Proof. intros H. vm_compute. now rewrite H. Qed.

Lemma run_name_heading {A} s caps (k : str -> captures -> option A) x :
  k s caps = Some x ->
  run profile_header (lit "Name:" ++ s) caps k = Some x.
Proof. intros H. vm_compute. now rewrite H. Qed.

(** A heading, a space and an entry: group 1 is the entry. *)
Lemma run_entry {A} e rest caps (k : str -> captures -> option A) x :
  entry e = true -> (forall c t, rest = c :: t -> not_newline c = false) ->
  k rest ((1%nat, e) :: caps) = Some x ->
  run (Seq (Star isspace) (Group 1 (Plus not_newline)))
      (lit " " ++ e ++ rest) caps k = Some x.
Proof.
  intros He Hrest Hk.
  destruct (entry_inv e He) as (c0 & t0 & Ee & Hc0 & _ & Hline & _).
  rewrite run_Seq. apply run_Star_greedy.
  - repeat constructor.
  - intros c t E. rewrite Ee in E. now injection E as <- _.
  - apply run_Group_to; [|assumption].
    intros k' Hk'. apply run_Plus_greedy; try assumption.
    rewrite Ee. discriminate.
Qed.

Lemma card_role : field role_pattern (card (n, r)) [] = r.
Proof.
  unfold field, search, card. cbn [fst snd].
  destruct (search_name_line (lit "Role") (lit "Role in story")
              (lit "Character role")
              (Seq (Star isspace) (Group 1 (Plus not_newline)))
              (lit "Role: " ++ r) 0%nat eq_refl role_skips_name)
    as (j & E).
  unfold role_pattern. rewrite E.
  assert (Hm : match_at
                 (Seq (label (lit "Role") (lit "Role in story")
                         (lit "Character role"))
                      (Seq (Star isspace) (Group 1 (Plus not_newline))))
                 (lit "Role: " ++ r)
               = Some ([], [(1%nat, r)])).
  { unfold match_at. rewrite run_Seq.
    change (lit "Role: " ++ r) with (lit "Role:" ++ lit " " ++ r).
    apply run_role_heading.
    rewrite <- (app_nil_r r) at 1.
    apply run_entry; [assumption | discriminate | reflexivity]. }
  rewrite (search_here _ _ _ _ j Hm). unfold group_of. cbn [groups group Nat.eqb].
  destruct (entry_inv r Hr) as (c0 & t0 & Er & Hc0 & Hlast & _).
  rewrite Er in *. now apply strip_keep.
Qed.

Lemma card_name : field name_pattern (card (n, r)) (lit "Unknown Character") = n.
Proof.
  unfold field, search, card. cbn [fst snd].
  assert (Hm : match_at name_pattern
                 (lit "Name: " ++ n ++ nl ++ lit "Role: " ++ r)
               = Some (nl ++ lit "Role: " ++ r, [(1%nat, n)])).
  { unfold match_at, name_pattern. rewrite run_Seq.
    change (lit "Name: " ++ n ++ nl ++ lit "Role: " ++ r)
      with (lit "Name:" ++ lit " " ++ n ++ nl ++ lit "Role: " ++ r).
    apply run_name_heading.
    apply run_entry; [assumption | | reflexivity].
    intros c t [= <- _]. reflexivity. }
  rewrite (search_here _ _ _ _ 0%nat Hm). unfold group_of.
  cbn [groups group Nat.eqb].
  destruct (entry_inv n Hn) as (c0 & t0 & En & Hc0 & Hlast & _).
  rewrite En in *. now apply strip_keep.
Qed.

(** The card read as a block. *)
Lemma character_of_card : character_of (card (n, r)) = profile_of (n, r).
Proof.
  unfold character_of, profile_of. cbn [fst snd].
  now rewrite card_name, card_role, card_personality, card_goals.
Qed.

Lemma strip_card : strip (card (n, r)) = card (n, r).
Proof.
  destruct (entry_inv r Hr) as (c0 & t0 & Er & _ & Hlast & _).
  set (body := lit "ame: " ++ n ++ nl ++ lit "Role: ").
  assert (E : card (n, r) = ("N"%char :: body) ++ r).
  { unfold card, body. cbn [fst snd lit list_ascii_of_string app].
    rewrite <- !app_assoc. reflexivity. }
  rewrite E. cbn [app]. apply strip_keep; [reflexivity|].
  change ("N"%char :: body ++ r) with (("N"%char :: body) ++ r).
  assert (Hne : r <> []) by (rewrite Er; discriminate).
  rewrite (last_app_more _ r _ Hne), (last_indep r _ c0 Hne). exact Hlast.
Qed.

Lemma card_nonempty : nonempty (strip (card (n, r))) = true.
Proof. rewrite strip_card. reflexivity. Qed.

(** *** The blocks of a text of cards *)

Lemma separator_skips_line (l rest : str) i :
  Forall (fun c => not_newline c = true) l ->
  finditer_from block_separator (l ++ rest) i 0
  = finditer_from block_separator rest (i + length l) 0.
Proof.
  intros Hl. apply finditer_skip. intros l1 c t E.
  unfold match_at, block_separator. rewrite run_Seq. apply run_Lit_fail.
  apply prefixb_nl.
  assert (Hc : not_newline c = true).
  { rewrite E in Hl. apply Forall_app in Hl as [_ Hl]. now inversion Hl. }
  unfold not_newline in Hc. apply negb_true_iff in Hc.
  now rewrite Ascii.eqb_sym.
Qed.

Lemma separator_not_role rest :
  match_at block_separator (nl ++ lit "Role: " ++ rest) = None.
Proof. vm_compute. reflexivity. Qed.

Lemma separator_match rest :
  match_at block_separator (nl ++ nl ++ lit "Name:" ++ rest)
  = Some (lit "Name:" ++ rest, []).
Proof. vm_compute. reflexivity. Qed.

Lemma separator_skips_card rest i :
  finditer_from block_separator (card (n, r) ++ rest) i 0
  = finditer_from block_separator rest (i + length (card (n, r))) 0.
Proof.
  destruct (entry_inv n Hn) as (c0 & t0 & _ & _ & _ & Hline & _).
  destruct (entry_inv r Hr) as (c1 & t1 & _ & _ & _ & Hline' & _).
  unfold card. cbn [fst snd].
  replace ((lit "Name: " ++ n ++ nl ++ lit "Role: " ++ r) ++ rest)
    with ((lit "Name: " ++ n) ++ nl ++ (lit "Role: " ++ r) ++ rest)
    by (now rewrite <- !app_assoc).
  rewrite separator_skips_line
    by (apply Forall_app; split; [repeat constructor | assumption]).
  change (nl ++ (lit "Role: " ++ r) ++ rest)
    with ("010"%char :: (lit "Role: " ++ r) ++ rest).
  rewrite finditer_step
    by (rewrite <- app_assoc; apply separator_not_role).
  rewrite separator_skips_line
    by (apply Forall_app; split; [repeat constructor | assumption]).
  f_equal. rewrite !length_app. cbn [length nl lit list_ascii_of_string]. lia.
Qed.

End Card.

Lemma cards_head person people :
  exists rest,
    join (nl ++ nl) (map card (person :: people)) = lit "Name:" ++ rest.
Proof.
  destruct person as [n r]. cbn [map join].
  destruct (map card people); unfold card; cbn [fst snd];
    eexists; cbn [lit list_ascii_of_string app]; reflexivity.
Qed.

Lemma skipn_exact {A} (pre l : list A) : skipn (length pre) (pre ++ l) = l.
Proof. induction pre; [reflexivity | assumption]. Qed.

Lemma firstn_exact {A} (l rest : list A) : firstn (length l) (l ++ rest) = l.
Proof. induction l as [|x l IH]; [reflexivity|]. cbn. now rewrite IH. Qed.

(** The text of the cards, a blank line between one and the next, is split
    into the cards. *)
Lemma split_cards people :
  people <> [] -> Forall entries people ->
  forall pre,
    pieces (pre ++ join (nl ++ nl) (map card people)) (length pre)
      (finditer_from block_separator (join (nl ++ nl) (map card people))
         (length pre) 0)
    = map card people.
Proof.
  induction people as [|[n r] people IH]; [congruence|].
  intros _ Hall pre. inversion Hall as [|? ? [Hn Hr] Hall']; subst.
  cbn [fst snd] in Hn, Hr.
  destruct people as [|q people].
  - cbn [map join]. rewrite <- (app_nil_r (card (n, r))) at 2.
    rewrite (separator_skips_card n r Hn Hr).
    cbn [finditer_from pieces].
    replace (match_at block_separator []) with (@None (str * captures))
      by (vm_compute; reflexivity).
    cbn [pieces]. now rewrite skipn_exact.
  - change (join (nl ++ nl) (map card ((n, r) :: q :: people)))
      with (card (n, r) ++ (nl ++ nl) ++ join (nl ++ nl) (map card (q :: people))).
    set (rest := join (nl ++ nl) (map card (q :: people))) in *.
    rewrite (separator_skips_card n r Hn Hr).
    destruct (cards_head q people) as (tail & Etail). fold rest in Etail.
    assert (Hm : match_at block_separator ("010"%char :: nl ++ rest)
                 = Some (rest, [])).
    { rewrite Etail. apply separator_match. }
    change ((nl ++ nl) ++ rest) with ("010"%char :: nl ++ rest).
    rewrite (finditer_match _ _ _ _ _ _ Hm).
    cbn [pieces start text map].
    rewrite skipn_exact.
    replace (length pre + length (card (n, r)) - length pre)%nat
      with (length (card (n, r))) by lia.
    rewrite firstn_exact. f_equal.
    specialize (IH ltac:(discriminate) Hall' (pre ++ card (n, r) ++ nl ++ nl)).
    rewrite <- !app_assoc in IH. cbn [app nl] in IH |- *.
    rewrite !length_app in IH.
    etransitivity; [|exact IH].
    cbn [length nl]. f_equal; [lia | f_equal; lia].
Qed.

Lemma cards_kept people :
  Forall entries people ->
  map strip (filter (fun block => nonempty (strip block)) (map card people))
  = map card people.
Proof.
  induction 1 as [|[n r] people [Hn Hr] _ IH]; [reflexivity|].
  cbn [fst snd] in Hn, Hr. cbn [map filter].
  rewrite (card_nonempty n r Hr). cbn [map].
  now rewrite (strip_card n r Hr), IH.
Qed.

Lemma cards_read people :
  Forall entries people ->
  map character_of (map card people) = map profile_of people.
Proof.
  induction 1 as [|[n r] people [Hn Hr] _ IH]; [reflexivity|].
  cbn [fst snd] in Hn, Hr. cbn [map].
  now rewrite (character_of_card n r Hn Hr), IH.
Qed.

(** X23. A text of cards, each a name and a role under their headings and
    a blank line between one card and the next, is read card by card:
    the profiles hold the names and the roles in the order of the text,
    no personality and no goals, and each its own card. *)
Theorem extract_character_profiles_cards (people : list (str * str)) :
  people <> [] -> Forall entries people ->
  extract_character_profiles (join (nl ++ nl) (map card people))
  = map profile_of people.
Proof.
  intros Hne Hall. unfold extract_character_profiles, Re.split, finditer.
  pose proof (split_cards people Hne Hall []) as Hs. cbn [app length] in Hs.
  rewrite Hs, (cards_kept people Hall), (cards_read people Hall).
  destruct people; [congruence | reflexivity].
Qed.

Lemma extract_character_profiles_cards_witness :
  extract_character_profiles
    (join (nl ++ nl)
       (map card [(lit "Ada", lit "The detective"); (lit "Bo", lit "Thief")]))
  = map profile_of [(lit "Ada", lit "The detective"); (lit "Bo", lit "Thief")].
Proof.
  apply extract_character_profiles_cards; [discriminate|].
  repeat constructor.
Defined.

End ProfilesFacts.

(* ------------------------------------------------------------------ *)

Module FeedbackFacts.
Import PyStr Re TextProcessing Parsing Profiles Feedback.
Import TextProcessingFacts ParsingFacts TextPatternsFacts.

(** A heading: some text, and a colon after it. *)
Lemma label_shape a b c s s' caps caps' :
  matches (label a b c) s s' caps caps' ->
  exists l, s = l ++ lit ":" ++ s' /\ caps' = caps.
Proof.
  unfold label. intros H.
  apply matches_Seq in H as (s1 & caps1 & H1 & H).
  apply matches_Lit in H as [-> ->].
  destruct H1 as [H1 | [H1 | H1]];
    apply matches_LitI_shape in H1 as (l & -> & _ & ->);
    exists l; now split.
Qed.

(** What a heading with its text holds: group 1 is a part of the match. *)
Lemma field_shape a b c x rest caps :
  matches (field_pattern a b c) x rest [] caps ->
  exists before g, x = before ++ g ++ rest /\ caps = [(1%nat, g)].
Proof.
  unfold field_pattern. intros H.
  apply matches_Seq in H as (s1 & caps1 & H1 & H).
  apply label_shape in H1 as (l & -> & ->).
  apply matches_Seq in H as (s2 & caps2 & H2 & H).
  apply matches_Star in H2 as (ws & -> & _ & ->).
  apply matches_Seq in H as (s3 & caps3 & H3 & H).
  apply matches_Group in H3 as (caps4 & H3 & ->).
  apply matches_Lazy in H3 as (g & -> & _ & ->).
  pose proof H as H'. apply matches_Ahead in H' as [-> _].
  apply matches_groupless in H; [subst caps | reflexivity].
  exists (l ++ lit ":" ++ ws), g. split.
  - now rewrite <- !app_assoc.
  - now rewrite firstn_app_exact.
Qed.

(** What an item holds: the mark, white space and group 1, which goes on
    to the end of the match and holds no line feed. *)
Lemma item_shape x rest caps :
  matches item_pattern x rest [] caps ->
  exists mark ws g,
    x = mark ++ ws ++ g ++ rest /\ caps = [(1%nat, g)] /\
    list_marker mark /\ Forall (fun c => isspace c = true) ws /\
    Forall (fun c => not_newline c = true) g.
Proof.
  unfold item_pattern. intros H.
  apply matches_Seq in H as (s1 & caps1 & H1 & H).
  assert (Hmark : exists mark, x = mark ++ s1 /\ caps1 = [] /\ list_marker mark).
  { apply matches_Alt in H1 as [H1 | H1].
    - apply matches_Seq in H1 as (s2 & caps2 & H2 & H1).
      apply matches_Lit in H1 as [-> ->].
      destruct H2 as (s3 & caps3 & (c & -> & Hc & ->) & (l & -> & Hl & ->)).
      exists ((c :: l) ++ lit "."). repeat split.
      + now rewrite <- app_assoc.
      + left. exists c, l. split; [reflexivity | now constructor].
    - apply matches_Alt in H1 as [H1 | H1]; apply matches_Lit in H1 as [-> ->].
      + exists (lit "*"). repeat split. right. now left.
      + exists (lit "-"). repeat split. right. now right. }
  destruct Hmark as (mark & -> & -> & Hmark).
  apply matches_Seq in H as (s2 & caps2 & H2 & H).
  apply matches_Star in H2 as (ws & -> & Hws & ->).
  apply matches_plus_group in H as (c & l & -> & -> & Hc & Hl).
  exists mark, ws, (c :: l). repeat split; try assumption. now constructor.
Qed.

Lemma Forall_inside {A} (P : A -> Prop) (a x b : list A) :
  Forall P (a ++ x ++ b) -> Forall P x.
Proof.
  intros H. apply Forall_app in H as [_ H]. now apply Forall_app in H as [H _].
Qed.

(** The items of a text are list items of it. *)
Lemma items_listed text : Forall (list_item text) (items text).
Proof.
  apply Forall_forall. intros y Hy. unfold items in Hy.
  apply in_map_iff in Hy as (g & <- & Hg).
  apply filter_In in Hg as [Hg Hne].
  apply in_map_iff in Hg as (m & <- & Hm).
  apply finditer_sound in Hm as (x1 & x2 & rest & -> & Hm).
  apply item_shape in Hm as (mark & ws & g & -> & Hcaps & Hmark & Hws & Hg).
  unfold group_of in *. rewrite Hcaps in *. cbn [group Nat.eqb] in *.
  destruct (strip_inside g) as (a & b & Eg & Ha & Hb).
  split; [|split; [|split]].
  - now destruct (strip g).
  - apply strip_idem.
  - rewrite Eg in Hg. now apply Forall_inside in Hg.
  - exists x1, mark, (ws ++ a), (b ++ rest). split; [|split].
    + rewrite Eg at 1. now rewrite <- !app_assoc.
    + assumption.
    + apply Forall_app. now split.
Qed.

Lemma list_item_inside before text after item :
  list_item text item -> list_item (before ++ text ++ after) item.
Proof.
  intros (H1 & H2 & H3 & b & mark & ws & a & -> & Hmark & Hws).
  repeat split; try assumption.
  exists (before ++ b), mark, ws, (a ++ after). split; [|now split].
  now rewrite <- !app_assoc.
Qed.

Lemma listed_items a b c feedback_text :
  Forall (list_item feedback_text)
         (listed (field_pattern a b c) feedback_text).
Proof.
  unfold listed.
  destruct (search (field_pattern a b c) feedback_text) as [m|] eqn:E;
    [|constructor].
  unfold search in E.
  apply search_from_suffix in E as (x1 & x2 & rest & -> & Hm).
  apply field_shape in Hm as (before & g & -> & Hcaps).
  unfold group_of. rewrite Hcaps. cbn [group Nat.eqb].
  pose proof (items_listed g) as H.
  apply Forall_forall. intros y Hy. rewrite Forall_forall in H.
  replace (x1 ++ before ++ g ++ rest) with ((x1 ++ before) ++ g ++ rest)
    by now rewrite <- app_assoc.
  now apply list_item_inside, H.
Qed.

(** A pattern for a heading finds nothing in a text without a colon. *)
Lemma label_needs_colon a b c r s i :
  ~ In ":"%char s -> search_from (Seq (label a b c) r) s i = None.
Proof.
  intros Hno. destruct (search_from _ s i) as [m|] eqn:E; [|reflexivity].
  apply search_from_suffix in E as (x1 & x2 & rest & -> & Hm).
  apply matches_Seq in Hm as (s1 & caps1 & H1 & _).
  apply label_shape in H1 as (l & -> & _).
  exfalso. apply Hno. apply in_or_app. right. apply in_or_app. right.
  now left.
Qed.

Section ParsedFeedback.
Variable value : Type.
Variable json_loads : str -> option value.
Variable float : Type.
Variable float_of : str -> option float.

#[local] Abbreviation parse_feedback :=
  (parse_feedback value json_loads float float_of).

(** X24. What [json.loads] accepts is returned as loaded.  Otherwise every
    issue and every suggestion of the result is a list item of the
    feedback: a text without line feed or white space at its ends, not
    empty, that stands in the feedback after a list mark. *)
Theorem parse_feedback_items (feedback_text : str) :
  match parse_feedback feedback_text with
  | Loaded parsed => json_loads feedback_text = Some parsed
  | Parsed r =>
      json_loads feedback_text = None /\
      Forall (list_item feedback_text) (issues r) /\
      Forall (list_item feedback_text) (suggestions r)
  end.
Proof.
  unfold Feedback.parse_feedback.
  destruct (json_loads feedback_text) as [parsed|]; [reflexivity|].
  cbn [issues suggestions]. split; [reflexivity|].
  split; apply listed_items.
Qed.


End ParsedFeedback.


End FeedbackFacts.

(* ------------------------------------------------------------------ *)

Module AgentFacts.
Import PyStr Memory TextProcessingFacts.

(** X19. What [store_memory] stores under a key is what [retrieve_memory]
    gives back for it, the other keys keep what they had, and a key that
    was never stored gives the default. *)
Theorem memory_round_trip {V : Type} (self : @memory V)
    (key other : str) (value default : V) :
  retrieve_memory key default (store_memory key value self) = value /\
  (other <> key ->
   retrieve_memory other default (store_memory key value self)
   = retrieve_memory other default self) /\
  retrieve_memory key default __init__ = default.
Proof.
  unfold retrieve_memory, store_memory. split; [|split].
  - apply dict_get_set_same.
  - intros Hne. apply dict_get_set_other. congruence.
  - reflexivity.
Qed.

Lemma memory_round_trip_witness :
  retrieve_memory (lit "mood") 0 (store_memory (lit "mood") 7 __init__) = 7 /\
  retrieve_memory (lit "plot") 0 (store_memory (lit "mood") 7 __init__)
  = retrieve_memory (lit "plot") 0 __init__.
Proof.
  destruct (memory_round_trip (@__init__ Z) (lit "mood") (lit "plot") 7 0)
    as (Hsame & Hother & _).
  split; [exact Hsame | apply Hother; discriminate].
Defined.

End AgentFacts.

(* ------------------------------------------------------------------ *)

Module JsonResponseFacts.
Import PyStr Re Parsing JsonResponse.
Import TextProcessingFacts ParsingFacts.

Lemma unfenced_inside s l1 c t : unfenced s -> s = l1 ++ c :: t ->
  c <> "`"%char /\ unfenced t.
Proof.
  intros H ->. apply Forall_app in H as [_ H]. now inversion H.
Qed.

Lemma fence_not_here c s : c <> "`"%char ->
  match_at fence_pattern (c :: s) = None.
Proof.
  intros Hc. unfold match_at, fence_pattern. rewrite run_Seq.
  apply run_Lit_fail. cbn [fence lit list_ascii_of_string app prefixb].
  destruct (Ascii.eqb_spec "`" c); [congruence | reflexivity].
Qed.

Lemma closing_not_inside c t rest :
  unfenced (c :: t) -> prefixb (nl ++ fence) (c :: t ++ nl ++ rest) = false.
Proof.
  intros H. inversion H as [|? ? Hc Ht]; subst.
  cbn [nl fence lit list_ascii_of_string app prefixb].
  destruct (Ascii.eqb "010" c); [|reflexivity]. cbn [andb].
  destruct t as [|d t'].
  - reflexivity.
  - inversion Ht as [|? ? Hd _]; subst. cbn [app prefixb].
    destruct (Ascii.eqb_spec "`" d); [congruence | reflexivity].
Qed.

Lemma fenced_block_match body post :
  unfenced body ->
  match_at fence_pattern
    ((fence ++ lit "json" ++ nl) ++ body ++ (nl ++ fence) ++ post)
  = Some (post, [(1%nat, body)]).
Proof.
  intros Hb. unfold match_at, fence_pattern.
  rewrite run_Seq, run_Lit_match, run_Seq.
  apply run_Group_lazy.
  - intros l1 c t caps' E.
    apply run_Lit_fail. rewrite <- app_assoc.
    apply closing_not_inside.
    destruct (unfenced_inside body l1 c t Hb E) as [Hc Ht]. now constructor.
  - now rewrite run_Lit_match.
Qed.

Section JsonFacts.
Variable value : Type.
Variable json_loads : str -> option value.
Variable empty_dict : value.

#[local] Abbreviation parse_json_response :=
  (parse_json_response value json_loads empty_dict).

(** X21. In a response with a fenced [json] block, [parse_json_response]
    parses what stands between the fences and nothing else, when neither
    that nor the text before the block holds a backquote; in a response
    without the opening fence it parses the whole response.  What
    [json.loads] refuses gives the default. *)
Theorem parse_json_response_block (default : option value) :
  (forall before body after,
     unfenced before -> unfenced body ->
     parse_json_response
       (before ++ (fence ++ lit "json" ++ nl) ++ body ++ (nl ++ fence) ++ after)
       default
     = match json_loads body with
       | Some parsed => parsed
       | None => match default with Some d => d | None => empty_dict end
       end) /\
  (forall response,
     occursb (fence ++ lit "json" ++ nl) response = false ->
     parse_json_response response default
     = match json_loads response with
       | Some parsed => parsed
       | None => match default with Some d => d | None => empty_dict end
       end).
Proof.
  split.
  - intros before body after Hpre Hbody.
    unfold JsonResponse.parse_json_response, finditer.
    rewrite finditer_skip.
    + set (rest := (fence ++ lit "json" ++ nl) ++ body ++ (nl ++ fence) ++ after).
      assert (E : exists ms,
                 finditer_from fence_pattern rest (0 + length before) 0
                 = {| start := (0 + length before)%nat;
                      text := (fence ++ lit "json" ++ nl) ++ body ++ nl ++ fence;
                      groups := [(1%nat, body)] |} :: ms).
      { pose proof (fenced_block_match body after Hbody) as Hm. fold rest in Hm.
        subst rest.
        change ((fence ++ lit "json" ++ nl) ++ body ++ (nl ++ fence) ++ after)
          with ("`"%char ::
                (lit "``json" ++ nl ++ body ++ (nl ++ fence) ++ after)) in *.
        replace (lit "``json" ++ nl ++ body ++ (nl ++ fence) ++ after)
          with ((lit "``json" ++ nl ++ body ++ nl ++ fence) ++ after) in *
          by (now rewrite <- !app_assoc).
        eexists. apply (finditer_match _ _ _ _ _ _ Hm). }
      destruct E as [ms ->]. cbn [map]. unfold group_of. cbn [groups group].
      cbn [Nat.eqb]. destruct default; reflexivity.
    + intros l1 c t E. apply fence_not_here.
      now destruct (unfenced_inside before l1 c t Hpre E).
  - intros response Hno.
    unfold JsonResponse.parse_json_response, finditer.
    rewrite (finditer_none fence_pattern (fence ++ lit "json" ++ nl));
      [destruct default; reflexivity | | assumption].
    unfold fence_pattern.
    replace (fence ++ lit "json" ++ nl) with ((fence ++ lit "json" ++ nl) ++ [])
      at 1 by apply app_nil_r.
    apply needs_Lit.
Qed.

End JsonFacts.

Lemma parse_json_response_block_witness :
  parse_json_response str (fun s => Some s) []
    (lit "Here you are: "
       ++ (fence ++ lit "json" ++ nl) ++ lit "{}" ++ (nl ++ fence)
       ++ lit " Enjoy.")
    None
  = lit "{}".
Proof.
  apply (proj1 (parse_json_response_block str (fun s => Some s) [] None)
           (lit "Here you are: ") (lit "{}") (lit " Enjoy."));
    repeat constructor; discriminate.
Defined.

End JsonResponseFacts.

(* ------------------------------------------------------------------ *)

Module TitlesFacts.
Import PyStr LLMProvider Writer Titles TextProcessingFacts.

Lemma split_once_found sep s :
  existsb (Ascii.eqb sep) s = true ->
  exists before after, split_once sep s = [before; after].
Proof.
  induction s as [|c t IH]; simpl; [discriminate|].
  rewrite (Ascii.eqb_sym sep c). destruct (Ascii.eqb c sep); simpl.
  - intros _. now exists [], t.
  - intros H. destruct (IH H) as (before & after & ->). now eexists _, _.
Qed.

Lemma occursb_char (c : ascii) s : occursb [c] s = existsb (Ascii.eqb c) s.
Proof.
  induction s as [|d t IH]; [reflexivity|].
  cbn [occursb prefixb existsb]. rewrite IH. now rewrite andb_true_r.
Qed.

Lemma clean_up_stripped title :
  exists cleaned, clean_up title = Ok cleaned /\ strip cleaned = cleaned.
Proof.
  unfold clean_up. set (t := strip (strip_chars quotes (strip title))).
  destruct (occursb (lit ":") t) eqn:Hc; cbn [andb].
  - destruct (prefixb (lit "Chapter") t); cbn [negb].
    + exists t. split; [reflexivity | apply strip_idem].
    + change (lit ":") with [":"%char] in Hc. rewrite occursb_char in Hc.
      destruct (split_once_found _ _ Hc) as (before & after & ->).
      exists (strip after). split; [reflexivity | apply strip_idem].
  - exists t. split; [reflexivity | apply strip_idem].
Qed.

Section TitleFacts.
Variable World : Type.
Variable generate_text :
  str -> option str -> option Z -> option Q ->
  World -> result LLMProvider.exn str * World.
Variable self : agent.

#[local] Abbreviation generate_chapter_title :=
  (generate_chapter_title World generate_text self).

(** X20. [generate_chapter_title] makes one call to the gateway, for at
    most 20 tokens; the title it makes of the reply has no white space at
    either end, and the index into [title.split(':', 1)] is never out of
    range; an exception of the gateway is passed on. *)
Theorem generate_chapter_title_stripped (chapter_content : str)
    (st : state World) :
  exists reply provider temperature,
    generate_text (title_prompt chapter_content) provider (Some 20)
      temperature (world st)
    = (reply, world (snd (generate_chapter_title chapter_content st))) /\
    gateway_calls (snd (generate_chapter_title chapter_content st))
    = gateway_calls st ++ [(title_prompt chapter_content, reply)] /\
    match reply with
    | Ok _ =>
        exists title,
          fst (generate_chapter_title chapter_content st) = Ok title /\
          strip title = title
    | Raise e =>
        fst (generate_chapter_title chapter_content st)
        = Raise (Raised (ProviderError e))
    end.
Proof.
  unfold Titles.generate_chapter_title, Writer.generate.
  destruct (generate_text (title_prompt chapter_content)
              (Some (get (settings_provider self) (lit "default")))
              (Some 20) (Some (7 # 10)) (world st)) as [reply w] eqn:E.
  exists reply, (Some (get (settings_provider self) (lit "default"))),
    (Some (7 # 10)).
  destruct reply as [text | e]; simpl.
  - split; [exact E|]. split; [reflexivity|]. apply clean_up_stripped.
  - split; [exact E|]. split; reflexivity.
Qed.
End TitleFacts.

End TitlesFacts.

(* ------------------------------------------------------------------ *)

Module OrchestratorFacts.
Import PyStr Re Orchestrator TextProcessingFacts.

Lemma skipn_app_le {A} (pre s : list A) i :
  (i <= length pre)%nat -> skipn i (pre ++ s) = skipn i pre ++ s.
Proof.
  intros H. rewrite skipn_app.
  replace (i - length pre)%nat with 0%nat by lia. reflexivity.
Qed.

(** Splitting at a class of single characters. *)
Lemma pieces_chop p : forall s pre i,
  (i <= length pre)%nat ->
  pieces (pre ++ s) i (finditer_from (Chr p) s (length pre) 0)
  = chop p s (skipn i pre).
Proof.
  induction s as [|c t IH]; intros pre i Hi.
  - simpl. now rewrite app_nil_r.
  - assert (E : (pre ++ c :: t) = (pre ++ [c]) ++ t)
      by now rewrite <- app_assoc.
    assert (L : S (length pre) = length (pre ++ [c]))
      by (rewrite length_app; simpl; lia).
    cbn [finditer_from match_at run chop]. destruct (p c) eqn:Hc.
    + replace (length (c :: t) - length t)%nat with 1%nat by (cbn [length]; lia).
      cbn [Nat.sub pieces start text firstn length].
      rewrite skipn_app_le by assumption.
      rewrite firstn_app, firstn_all2 by (rewrite length_skipn; lia).
      replace (length pre - i - length (skipn i pre))%nat with 0%nat
        by (rewrite length_skipn; lia).
      cbn [firstn]. rewrite app_nil_r. f_equal.
      rewrite E, L. replace (length pre + 1)%nat with (length (pre ++ [c]))
        by (rewrite length_app; simpl; lia).
      rewrite IH by lia. now rewrite skipn_all.
    + rewrite E, L, IH by (rewrite length_app; simpl; lia).
      now rewrite skipn_app_le by assumption.
Qed.

Lemma split_chop p s : Re.split (Chr p) s = chop p s [].
Proof. exact (pieces_chop p s [] 0 (Nat.le_refl 0)). Qed.

Lemma chop_cons p : forall s acc, chop p s acc <> [].
Proof.
  induction s as [|c t IH]; intros acc; simpl; [discriminate|].
  destruct (p c); [discriminate | apply IH].
Qed.

Lemma join_cons (sep a : str) parts :
  parts <> [] -> join sep (a :: parts) = a ++ sep ++ join sep parts.
Proof. destruct parts; [congruence | reflexivity]. Qed.

Lemma join_chop p (repl : ascii) : forall s acc,
  join [repl] (chop p s acc) = acc ++ map (fun c => if p c then repl else c) s.
Proof.
  induction s as [|c t IH]; intros acc; cbn [chop map].
  - simpl. now rewrite app_nil_r.
  - destruct (p c).
    + rewrite join_cons by apply chop_cons. now rewrite IH.
    + rewrite IH. now rewrite <- app_assoc.
Qed.

Lemma sub_class p (repl : ascii) s :
  sub (Chr p) [repl] s = map (fun c => if p c then repl else c) s.
Proof. unfold sub. rewrite split_chop. apply (join_chop p repl s []). Qed.

Lemma underscored_valid filename :
  Forall (fun c => invalid c = false) (underscored filename).
Proof.
  unfold underscored. apply Forall_forall. intros c Hc.
  apply in_map_iff in Hc as (x & <- & _).
  destruct (invalid x) eqn:E; [reflexivity | assumption].
Qed.

(** X18. [_sanitize_filename] puts an underscore in the place of every one
    of the nine invalid characters, leaves every other character as it is,
    and keeps the first 100 characters of the result: the name it returns
    holds no invalid character and is as long as the given one, up to 100
    characters. *)
Theorem sanitize_filename_valid (filename : str) :
  _sanitize_filename filename
  = firstn 100 (underscored filename) /\
  Forall (fun c => invalid c = false) (_sanitize_filename filename) /\
  len (_sanitize_filename filename) = Z.min (len filename) 100.
Proof.
  assert (E : _sanitize_filename filename = firstn 100 (underscored filename)).
  { unfold _sanitize_filename. change (lit "_") with ["_"%char].
    rewrite sub_class. fold (underscored filename).
    unfold slice. rewrite Z.sub_0_r.
    assert (Hn : 0 <= len (underscored filename)) by (unfold len; lia).
    assert (Ha : adjust (len (underscored filename)) 100
                 = Z.min 100 (len (underscored filename))).
    { unfold adjust. simpl. reflexivity. }
    rewrite Ha. simpl skipn.
    destruct (Z.le_ge_cases 100 (len (underscored filename))).
    - now rewrite Z.min_l by assumption.
    - rewrite Z.min_r by assumption.
      rewrite !firstn_all2; [reflexivity | unfold len in *; lia | unfold len; lia]. }
  rewrite E. split; [reflexivity|]. split.
  - apply Forall_firstn_keep, underscored_valid.
  - unfold len, underscored. rewrite length_firstn, length_map. lia.
Qed.

End OrchestratorFacts.
